(** * Pikafish (flutter_pikafish): move generation, NNUE accumulator
      maintenance and the host pipe, as a shallow embedding.

    - [FFI]      : src/ios/FlutterPikafish/ffi.cpp
    - [Permute]  : invert_permutation / permute and the parameter
                   (de)serialisation of nnue_feature_transformer.h
    - [MoveGen]  : src/ios/Pikafish/src/movegen.cpp
    - [NNUE]     : the accumulator update paths of
                   nnue_feature_transformer.h *)

From Stdlib Require Import ZArith NArith List Bool Lia Permutation.
From Stdlib Require Import Strings.Byte.
From Equations Require Import Equations.
Import ListNotations.

(* ===================================================================== *)
(** * Host pipe: ffi.cpp                                                   *)
(* ===================================================================== *)

Module FFI.

Local Open Scope Z_scope.

(** [char] values; the terminator is byte 0. *)
Definition NUL : byte := x00.

(** [const char *QUITOK = "quitok\n";] as it lies in memory, terminator
    included. *)
Definition QUITOK_chars : list byte :=
  [x71; x75; x69; x74; x6f; x6b; x0a].

Definition QUITOK : list byte := QUITOK_chars ++ [NUL].

(** [char buffer[80];] *)
Definition BUFFER_SIZE : nat := 80.

(** What the descriptor PARENT_READ_FD delivers to one call of [read]:
    an error, or the bytes the kernel has pending for this call. *)
Inductive pipe_event :=
| PipeError
| PipeData (pending : list byte).

(** [read(fd, buf, nbyte)]: on error the result is -1 and [buf] is
    untouched; otherwise at most [nbyte] pending bytes overwrite the
    front of [buf] and their number is returned. *)
Definition sys_read (ev : pipe_event) (buf : list byte) (nbyte : nat)
  : Z * list byte :=
  match ev with
  | PipeError => (-1, buf)
  | PipeData pending =>
      let chunk := firstn nbyte pending in
      (Z.of_nat (length chunk), chunk ++ skipn (length chunk) buf)
  end.

(** [buffer[count] = 0;] an index past the array leaves the model's array
    as it is (the source would write out of bounds). *)
Fixpoint store (buf : list byte) (i : nat) (v : byte) : list byte :=
  match buf, i with
  | [], _ => []
  | _ :: t, O => v :: t
  | h :: t, S i' => h :: store t i' v
  end.

(** [strcmp]: compares as unsigned chars up to and including the first
    terminator; [None] when either array ends before a terminator is
    met. *)
Fixpoint strcmp (a b : list byte) : option Z :=
  match a, b with
  | x :: a', y :: b' =>
      if Byte.eqb x y
      then if Byte.eqb x NUL then Some 0 else strcmp a' b'
      else Some (Z.of_N (Byte.to_N x) - Z.of_N (Byte.to_N y))
  | _, _ => None
  end.

(** The value returned by [pikafish_stdout_read]: the null pointer or the
    address of the one static [buffer]. *)
Inductive char_ptr := NULL | BUFFER.

(** [pikafish_stdout_read], threading the static buffer. *)
Definition pikafish_stdout_read (ev : pipe_event) (buffer : list byte)
  : char_ptr * list byte :=
  let '(count, buffer1) := sys_read ev buffer (BUFFER_SIZE - 1) in
  if count <? 0 then (NULL, buffer1)
  else
    let buffer2 := store buffer1 (Z.to_nat count) NUL in
    match strcmp buffer2 QUITOK with
    | Some 0 => (NULL, buffer2)
    | _ => (BUFFER, buffer2)
    end.

(** The count [read] returned and the bytes it delivered. *)
Definition read_count (ev : pipe_event) : Z :=
  match ev with
  | PipeError => -1
  | PipeData pending => Z.of_nat (length (firstn (BUFFER_SIZE - 1) pending))
  end.

Definition bytes_read (ev : pipe_event) : list byte :=
  match ev with
  | PipeError => []
  | PipeData pending => firstn (BUFFER_SIZE - 1) pending
  end.

(** The C string held by a byte sequence: what precedes its first
    terminator. *)
Fixpoint c_string (l : list byte) : list byte :=
  match l with
  | [] => []
  | x :: t => if Byte.eqb x NUL then [] else x :: c_string t
  end.

Lemma store_length buf i v : length (store buf i v) = length buf.
Proof.
  revert i; induction buf as [|h t IH]; intros [|i]; simpl; auto.
Qed.

Lemma store_app_exact (l r : list byte) v :
  r <> [] -> store (l ++ r) (length l) v = l ++ v :: tl r.
Proof.
  intros Hr. induction l as [|h t IH]; simpl.
  - destruct r; [congruence | reflexivity].
  - rewrite IH. reflexivity.
Qed.

Lemma byte_eqb_eq x y : Byte.eqb x y = true <-> x = y.
Proof.
  split.
  - apply Byte.byte_dec_bl.
  - apply Byte.byte_dec_lb.
Qed.

Lemma byte_eqb_neq x y : Byte.eqb x y = false <-> x <> y.
Proof.
  rewrite <- byte_eqb_eq. destruct (Byte.eqb x y); split; congruence.
Qed.

Lemma to_N_inj x y : Byte.to_N x = Byte.to_N y -> x = y.
Proof.
  intros H.
  assert (Some x = Some y) as E.
  { rewrite <- (Byte.of_to_N x), <- (Byte.of_to_N y), H. reflexivity. }
  congruence.
Qed.

Lemma byte_diff_nonzero x y :
  x <> y -> Z.of_N (Byte.to_N x) - Z.of_N (Byte.to_N y) <> 0.
Proof.
  intros Hne H. apply Hne, to_N_inj. lia.
Qed.

Ltac byte_cases :=
  repeat match goal with
  | |- context [Byte.eqb ?a ?b] =>
      let E := fresh "E" in
      destruct (Byte.eqb a b) eqn:E;
      [apply byte_eqb_eq in E | apply byte_eqb_neq in E]
  end.

(** [strcmp] of two terminated arrays is defined, and is 0 exactly when
    the C strings agree. *)
Lemma strcmp_terminated (a b ra rb : list byte) :
  exists z, strcmp (a ++ NUL :: ra) (b ++ NUL :: rb) = Some z /\
            (z = 0 <-> c_string a = c_string b).
Proof.
  revert b; induction a as [|x a IH]; intros [|y b]; cbn [strcmp app c_string].
  - byte_cases; try congruence. exists 0. split; [reflexivity | tauto].
  - byte_cases; subst; try congruence.
    + exists 0. split; [reflexivity | tauto].
    + eexists. split; [reflexivity|].
      split; [intros H; exfalso; revert H; apply byte_diff_nonzero; auto
             | discriminate].
  - byte_cases; subst; try congruence.
    + exists 0. split; [reflexivity | tauto].
    + eexists. split; [reflexivity|].
      split; [intros H; exfalso; revert H; apply byte_diff_nonzero; auto
             | discriminate].
  - destruct (IH b) as [z [Hz Hiff]].
    byte_cases; subst; try congruence.
    + exists 0. split; [reflexivity | tauto].
    + exists z. split; [exact Hz|].
      rewrite Hiff. split; [congruence|]. intros H; injection H; auto.
    + eexists. split; [reflexivity|].
      split; [intros H; exfalso; revert H; apply byte_diff_nonzero; auto
             | discriminate].
    + eexists. split; [reflexivity|].
      split; [intros H; exfalso; revert H; apply byte_diff_nonzero; auto
             | discriminate].
    + eexists. split; [reflexivity|].
      split; [intros H; exfalso; revert H; apply byte_diff_nonzero; auto
             | intros H; injection H; intros; congruence].
Qed.

Lemma read_buffer_shape (pending buffer : list byte) :
  length buffer = BUFFER_SIZE ->
  let chunk := firstn (BUFFER_SIZE - 1) pending in
  (length chunk <= BUFFER_SIZE - 1)%nat /\
  exists rest,
    store (chunk ++ skipn (length chunk) buffer) (length chunk) NUL
    = chunk ++ NUL :: rest /\
    length (chunk ++ NUL :: rest) = BUFFER_SIZE.
Proof.
  intros Hlen chunk.
  assert (length chunk <= BUFFER_SIZE - 1)%nat as Hc.
  { unfold chunk. rewrite length_firstn. apply Nat.le_min_l. }
  split; [exact Hc|].
  assert (length (skipn (length chunk) buffer) = BUFFER_SIZE - length chunk)%nat
    as Hs by (rewrite length_skipn, Hlen; reflexivity).
  exists (tl (skipn (length chunk) buffer)). split.
  - apply store_app_exact. intros E. rewrite E in Hs. cbn [length] in Hs.
    unfold BUFFER_SIZE in *. lia.
  - rewrite length_app. cbn [length].
    destruct (skipn (length chunk) buffer) as [|h t] eqn:E; cbn [length tl] in *;
      unfold BUFFER_SIZE in *; lia.
Qed.

Lemma nth_middle_NUL (l r : list byte) :
  nth (length l) (l ++ NUL :: r) x01 = NUL.
Proof. apply nth_middle. Qed.

Lemma firstn_exact (l r : list byte) : firstn (length l) (l ++ r) = l.
Proof.
  rewrite firstn_app, Nat.sub_diag, firstn_all. simpl. apply app_nil_r.
Qed.

(** C10. [pikafish_stdout_read] returns NULL exactly when [read] returned
    a negative count or the bytes read, as a C string, compare equal to
    "quitok\n"; otherwise it returns the static buffer, which still has
    its 80 bytes, of which at most 79 are output, the output being the
    bytes read, followed by a terminator at index [count]. *)
Theorem pikafish_stdout_read_spec (ev : pipe_event) (buffer : list byte) :
  length buffer = BUFFER_SIZE ->
  let r := fst (pikafish_stdout_read ev buffer) in
  let buffer' := snd (pikafish_stdout_read ev buffer) in
  let count := read_count ev in
  (r = NULL <-> count < 0 \/ c_string (bytes_read ev) = QUITOK_chars) /\
  (r <> NULL ->
     r = BUFFER /\
     length buffer' = 80%nat /\
     0 <= count <= 79 /\
     firstn (Z.to_nat count) buffer' = bytes_read ev /\
     nth (Z.to_nat count) buffer' x01 = NUL).
Proof.
  intros Hlen. destruct ev as [|pending].
  - cbn. split; [split; [intros _; left; lia | reflexivity] | congruence].
  - destruct (read_buffer_shape pending buffer Hlen) as [Hc [rest [Hst Hl]]].
    unfold pikafish_stdout_read, sys_read, read_count, bytes_read.
    set (chunk := firstn (BUFFER_SIZE - 1) pending) in *.
    cbv zeta.
    assert ((Z.of_nat (length chunk) <? 0) = false) as Hneg by (apply Z.ltb_ge; lia).
    rewrite Hneg, Nat2Z.id, Hst.
    destruct (strcmp_terminated chunk QUITOK_chars rest []) as [z [Hz Hiff]].
    unfold QUITOK. rewrite Hz.
    change (c_string QUITOK_chars) with QUITOK_chars in Hiff.
    assert (forall P Q : char_ptr * list byte,
               fst (match z with 0 => P | _ => Q end)
               = match z with 0 => fst P | _ => fst Q end) as Hf
        by (intros; destruct z; reflexivity).
    assert (forall P Q : char_ptr * list byte,
               snd (match z with 0 => P | _ => Q end)
               = match z with 0 => snd P | _ => snd Q end) as Hs
        by (intros; destruct z; reflexivity).
    cbv zeta. rewrite Hf, Hs. cbn [fst snd].
    split.
    + split.
      * intros Hr. right. apply Hiff. destruct z; [reflexivity | discriminate ..].
      * intros [Hlt | Heq]; [lia|]. apply Hiff in Heq. subst z. reflexivity.
    + intros Hr.
      assert (match z with 0 => chunk ++ NUL :: rest | _ => chunk ++ NUL :: rest end
              = chunk ++ NUL :: rest) as Hb by (destruct z; reflexivity).
      rewrite Hb.
      split; [destruct z; [congruence | reflexivity ..]|].
      split; [exact Hl|].
      split; [unfold BUFFER_SIZE in Hc; lia|].
      split; [apply firstn_exact | apply nth_middle_NUL].
Qed.

(** The engine's farewell alone in the pipe: the call returns NULL. *)
Lemma pikafish_stdout_read_spec_witness :
  length (repeat NUL 80) = BUFFER_SIZE /\
  fst (pikafish_stdout_read (PipeData QUITOK_chars) (repeat NUL 80)) = NULL.
Proof.
  split; [reflexivity|].
  apply (pikafish_stdout_read_spec (PipeData QUITOK_chars) (repeat NUL 80)
           eq_refl).
  right. reflexivity.
Defined.

(** A terminator inside the bytes read cuts the comparison short: what
    [strcmp] sees is the C string, not the whole read. *)
Example quitok_then_terminator :
  fst (pikafish_stdout_read (PipeData (QUITOK_chars ++ [NUL; x41]))
         (repeat NUL 80)) = NULL.
Proof. reflexivity. Qed.

(** Output and farewell delivered by one [read] are handed on as output. *)
Example output_then_quitok :
  fst (pikafish_stdout_read (PipeData (x6f :: x6b :: x0a :: QUITOK_chars))
         (repeat NUL 80)) = BUFFER.
Proof. reflexivity. Qed.

End FFI.

(* ===================================================================== *)
(** * Weight packing order: invert_permutation, permute                    *)
(* ===================================================================== *)

Module Permute.

Section Arrays.
Variable A : Type.

(** [a[i] = v] on a fixed-size array; an index past the end leaves the
    model's array as it is. *)
Fixpoint array_set (a : list A) (i : nat) (v : A) : list A :=
  match a, i with
  | [], _ => []
  | _ :: t, O => v :: t
  | h :: t, S i' => h :: array_set t i' v
  end.

(** The [BlockSize] elements of [values] that start at block number [k]:
    [&values[k * BlockSize]] up to [+ BlockSize]. *)
Definition block (BlockSize k : nat) (values : list A) : list A :=
  firstn BlockSize (skipn (k * BlockSize) values).

(** One iteration of the outer loop of [permute]: the buffer receives,
    for j = 0 .. OrderSize-1, block [order[j]] of [values], and is then
    copied back over [values]. *)
Definition permute_chunk (BlockSize : nat) (order : list nat)
  (values : list A) : list A :=
  concat (map (fun o => block BlockSize o values) order).

(** The outer loop, [count] chunks of [ProcessChunkSize] elements. *)
Fixpoint permute_chunks (count BlockSize : nat) (order : list nat)
  (data : list A) : list A :=
  match count with
  | O => data
  | S count' =>
      let ProcessChunkSize := BlockSize * length order in
      permute_chunk BlockSize order (firstn ProcessChunkSize data)
        ++ permute_chunks count' BlockSize order (skipn ProcessChunkSize data)
  end.

(** [permute<BlockSize>(data, order)] on the byte image [data];
    [TotalSize = length data]. *)
Definition permute (BlockSize : nat) (data : list A) (order : list nat)
  : list A :=
  permute_chunks (length data / (BlockSize * length order))
    BlockSize order data.

End Arrays.

Arguments array_set {A} a i v.
Arguments block {A} BlockSize k values.
Arguments permute_chunk {A} BlockSize order values.
Arguments permute_chunks {A} count BlockSize order data.
Arguments permute {A} BlockSize data order.

(** [invert_permutation]: [inverse] starts zeroed and receives
    [inverse[order[i]] = i] for i = 0 .. Len-1. *)
Definition invert_permutation (order : list nat) : list nat :=
  fold_left (fun inverse i => array_set inverse (nth i order 0%nat) i)
    (seq 0 (length order)) (repeat 0%nat (length order)).

(** [order] lists 0 .. Len-1 in some order. *)
Definition is_permutation (order : list nat) : Prop :=
  Permutation order (seq 0 (length order)).

(** ** Arrays *)

Lemma array_set_length A (a : list A) i v :
  length (array_set a i v) = length a.
Proof.
  revert i; induction a as [|h t IH]; intros [|i]; simpl; auto.
Qed.

Lemma nth_array_set_same A (a : list A) i v d :
  (i < length a)%nat -> nth i (array_set a i v) d = v.
Proof.
  revert i; induction a as [|h t IH]; intros [|i] Hi; simpl in *;
    try lia; auto. apply IH. lia.
Qed.

Lemma nth_array_set_other A (a : list A) i j v d :
  i <> j -> nth j (array_set a i v) d = nth j a d.
Proof.
  revert i j; induction a as [|h t IH]; intros [|i] [|j] Hne; simpl;
    try congruence; auto.
Qed.

(** ** invert_permutation *)

Lemma invert_loop_length order m inv0 :
  length (fold_left (fun inverse i => array_set inverse (nth i order 0%nat) i)
            (seq 0 m) inv0) = length inv0.
Proof.
  induction m as [|m IH].
  - reflexivity.
  - rewrite seq_S, fold_left_app. simpl. rewrite array_set_length. exact IH.
Qed.

Lemma invert_permutation_length order :
  length (invert_permutation order) = length order.
Proof.
  unfold invert_permutation. rewrite invert_loop_length. apply repeat_length.
Qed.

Lemma is_permutation_bound order j :
  is_permutation order -> (j < length order)%nat ->
  (nth j order 0 < length order)%nat.
Proof.
  intros Hp Hj.
  assert (In (nth j order 0%nat) (seq 0 (length order))) as Hin.
  { eapply Permutation_in; [exact Hp|]. apply nth_In. exact Hj. }
  apply in_seq in Hin. lia.
Qed.

Lemma is_permutation_NoDup order : is_permutation order -> NoDup order.
Proof.
  intros Hp. eapply Permutation_NoDup; [symmetry; exact Hp|]. apply seq_NoDup.
Qed.

Lemma is_permutation_onto order k :
  is_permutation order -> (k < length order)%nat ->
  exists i, (i < length order)%nat /\ nth i order 0%nat = k.
Proof.
  intros Hp Hk.
  assert (In k order) as Hin.
  { eapply Permutation_in; [symmetry; exact Hp|]. apply in_seq. lia. }
  apply In_nth with (d := 0%nat) in Hin. exact Hin.
Qed.

(** Loop invariant of [invert_permutation]: after [m] iterations every
    i < m has [inverse[order[i]] = i]. *)
Lemma invert_loop_inv order m inv0 :
  is_permutation order -> length inv0 = length order ->
  (m <= length order)%nat ->
  forall i, (i < m)%nat ->
    nth (nth i order 0%nat)
      (fold_left (fun inverse i => array_set inverse (nth i order 0%nat) i)
         (seq 0 m) inv0) 0%nat = i.
Proof.
  intros Hp Hlen. induction m as [|m IH]; intros Hm i Hi; [lia|].
  rewrite seq_S, fold_left_app. simpl.
  destruct (Nat.eq_dec i m) as [->|Hne].
  - apply nth_array_set_same. rewrite invert_loop_length, Hlen.
    apply is_permutation_bound; [exact Hp | lia].
  - rewrite nth_array_set_other; [apply IH; lia|].
    intros E. apply Hne. symmetry.
    apply (proj1 (NoDup_nth order 0%nat) (is_permutation_NoDup order Hp));
      [lia | lia | exact E].
Qed.

Lemma invert_left order i :
  is_permutation order -> (i < length order)%nat ->
  nth (nth i order 0%nat) (invert_permutation order) 0%nat = i.
Proof.
  intros Hp Hi. unfold invert_permutation.
  apply invert_loop_inv; auto. apply repeat_length.
Qed.

Lemma invert_bound order k :
  is_permutation order -> (k < length order)%nat ->
  (nth k (invert_permutation order) 0 < length order)%nat.
Proof.
  intros Hp Hk. destruct (is_permutation_onto order k Hp Hk) as [i [Hi <-]].
  rewrite invert_left; auto.
Qed.

Lemma invert_right order k :
  is_permutation order -> (k < length order)%nat ->
  nth (nth k (invert_permutation order) 0%nat) order 0%nat = k.
Proof.
  intros Hp Hk. destruct (is_permutation_onto order k Hp Hk) as [i [Hi <-]].
  rewrite invert_left; auto.
Qed.

(** ** Blocks of a chunk *)

Section Blocks.
Variable A : Type.
Implicit Types values data : list A.

Lemma firstn_app_len (l r : list A) n :
  length l = n -> firstn n (l ++ r) = l.
Proof.
  intros <-. rewrite firstn_app, Nat.sub_diag, firstn_all. simpl.
  apply app_nil_r.
Qed.

Lemma skipn_app_len (l r : list A) n :
  length l = n -> skipn n (l ++ r) = r.
Proof.
  intros <-. rewrite skipn_app, Nat.sub_diag, skipn_all. reflexivity.
Qed.

Lemma block_length B k values :
  ((k + 1) * B <= length values)%nat -> length (block B k values) = B.
Proof.
  intros H. unfold block. rewrite length_firstn, length_skipn. lia.
Qed.

Lemma block_concat B (ls : list (list A)) k :
  Forall (fun l => length l = B) ls -> (k < length ls)%nat ->
  block B k (concat ls) = nth k ls [].
Proof.
  intros Hall. revert k. induction Hall as [|l ls Hl Hall IH]; intros k Hk;
    simpl in Hk; [lia|].
  unfold block in *. destruct k as [|k]; simpl.
  - rewrite firstn_app, Hl, Nat.sub_diag, firstn_all2 by lia.
    simpl. apply app_nil_r.
  - rewrite skipn_app, Hl.
    rewrite skipn_all2 by lia.
    replace (B + k * B - B)%nat with (k * B)%nat by lia.
    simpl. apply IH. lia.
Qed.

Lemma block_succ B k values :
  block B (S k) values = block B k (skipn B values).
Proof.
  unfold block. rewrite skipn_skipn. f_equal. f_equal. simpl. lia.
Qed.

Lemma concat_all_blocks B n values :
  length values = (B * n)%nat ->
  concat (map (fun o => block B o values) (seq 0 n)) = values.
Proof.
  revert values. induction n as [|n IH]; intros values Hlen.
  - rewrite Nat.mul_0_r in Hlen. destruct values; [reflexivity | discriminate].
  - cbn [seq map concat]. rewrite <- seq_shift, map_map.
    rewrite (map_ext _ (fun o => block B o (skipn B values)))
      by (intros; apply block_succ).
    rewrite IH by (rewrite length_skipn; lia).
    unfold block. simpl. apply firstn_skipn.
Qed.

Lemma permute_chunk_blocks B order values :
  (forall j, (j < length order)%nat -> (nth j order 0 < length order)%nat) ->
  length values = (B * length order)%nat ->
  Forall (fun l => length l = B) (map (fun o => block B o values) order).
Proof.
  intros Hb Hlen. apply Forall_forall. intros l Hin.
  apply in_map_iff in Hin. destruct Hin as [o [<- Ho]].
  apply In_nth with (d := 0%nat) in Ho. destruct Ho as [j [Hj <-]].
  apply block_length. specialize (Hb j Hj). nia.
Qed.

Lemma length_concat_uniform B (ls : list (list A)) :
  Forall (fun l => length l = B) ls ->
  length (concat ls) = (B * length ls)%nat.
Proof.
  induction 1 as [|l ls Hl Hall IH]; simpl; [lia|].
  rewrite length_app, IH, Hl. lia.
Qed.

Lemma permute_chunk_length B order values :
  (forall j, (j < length order)%nat -> (nth j order 0 < length order)%nat) ->
  length values = (B * length order)%nat ->
  length (permute_chunk B order values) = length values.
Proof.
  intros Hb Hlen. unfold permute_chunk.
  rewrite (length_concat_uniform B _ (permute_chunk_blocks B order values Hb Hlen)).
  rewrite length_map. lia.
Qed.

(** Block [k] of a permuted chunk is block [order[k]] of the chunk. *)
Lemma block_permute_chunk B order values k :
  (forall j, (j < length order)%nat -> (nth j order 0 < length order)%nat) ->
  length values = (B * length order)%nat ->
  (k < length order)%nat ->
  block B k (permute_chunk B order values) = block B (nth k order 0%nat) values.
Proof.
  intros Hb Hlen Hk. unfold permute_chunk.
  rewrite block_concat with (B := B).
  - rewrite nth_indep with (d' := block B 0 values) by (rewrite length_map; lia).
    apply (map_nth (fun o => block B o values)).
  - apply permute_chunk_blocks; assumption.
  - rewrite length_map. exact Hk.
Qed.

(** Permuting a chunk by [p] and then by [q] restores it as soon as
    [p[q[k]] = k] for every k. *)
Lemma permute_chunk_cancel B (p q : list nat) values :
  length q = length p ->
  (forall j, (j < length p)%nat -> (nth j p 0 < length p)%nat) ->
  (forall k, (k < length p)%nat -> (nth k q 0 < length p)%nat) ->
  (forall k, (k < length p)%nat -> nth (nth k q 0%nat) p 0%nat = k) ->
  length values = (B * length p)%nat ->
  permute_chunk B q (permute_chunk B p values) = values.
Proof.
  intros Hlq Hp Hq Hpq Hlen.
  unfold permute_chunk at 1.
  rewrite (map_ext_in _ (fun o => block B (nth o p 0%nat) values)).
  - rewrite <- (map_map (fun o => nth o p 0%nat) (fun o => block B o values)).
    replace (map (fun o => nth o p 0%nat) q) with (seq 0 (length p)).
    + apply concat_all_blocks. exact Hlen.
    + apply nth_ext with (d := 0%nat) (d' := nth 0 p 0%nat).
      * rewrite length_seq, length_map. auto.
      * intros k Hk. rewrite length_seq in Hk.
        rewrite seq_nth by exact Hk. simpl.
        rewrite (map_nth (fun o => nth o p 0%nat) q 0%nat).
        symmetry. apply Hpq. exact Hk.
  - intros o Ho. apply In_nth with (d := 0%nat) in Ho.
    destruct Ho as [k [Hk <-]]. rewrite Hlq in Hk.
    apply block_permute_chunk; auto.
Qed.

Lemma permute_chunks_cancel count B (p q : list nat) data :
  length q = length p ->
  (forall j, (j < length p)%nat -> (nth j p 0 < length p)%nat) ->
  (forall k, (k < length p)%nat -> (nth k q 0 < length p)%nat) ->
  (forall k, (k < length p)%nat -> nth (nth k q 0%nat) p 0%nat = k) ->
  length data = (count * (B * length p))%nat ->
  permute_chunks count B q (permute_chunks count B p data) = data.
Proof.
  intros Hlq Hp Hq Hpq. revert data.
  induction count as [|count IH]; intros data Hlen; [reflexivity|].
  cbn [permute_chunks]. rewrite Hlq.
  set (P := (B * length p)%nat) in *.
  assert (length (firstn P data) = P) as Hf
      by (rewrite length_firstn; lia).
  assert (length (permute_chunk B p (firstn P data)) = P) as Hc
      by (rewrite permute_chunk_length; auto).
  rewrite (firstn_app_len _ _ _ Hc), (skipn_app_len _ _ _ Hc).
  rewrite permute_chunk_cancel by auto.
  rewrite IH by (rewrite length_skipn; lia).
  apply firstn_skipn.
Qed.

Lemma permute_chunks_length count B (p : list nat) data :
  (forall j, (j < length p)%nat -> (nth j p 0 < length p)%nat) ->
  length data = (count * (B * length p))%nat ->
  length (permute_chunks count B p data) = length data.
Proof.
  intros Hp. revert data.
  induction count as [|count IH]; intros data Hlen; [reflexivity|].
  cbn [permute_chunks].
  set (P := (B * length p)%nat) in *.
  assert (length (firstn P data) = P) as Hf
      by (rewrite length_firstn; lia).
  rewrite length_app, permute_chunk_length, IH, Hf, length_skipn; auto; try lia.
  rewrite length_skipn. lia.
Qed.

(** [permute] by [p], then by [q] with [p[q[k]] = k], is the identity on
    any region the chunk size divides (the function's static
    assertion). *)
Lemma permute_cancel B (p q : list nat) data :
  length q = length p ->
  (forall j, (j < length p)%nat -> (nth j p 0 < length p)%nat) ->
  (forall k, (k < length p)%nat -> (nth k q 0 < length p)%nat) ->
  (forall k, (k < length p)%nat -> nth (nth k q 0%nat) p 0%nat = k) ->
  (length data mod (B * length p) = 0)%nat ->
  permute B (permute B data p) q = data.
Proof.
  intros Hlq Hp Hq Hpq Hdiv. unfold permute.
  destruct (Nat.eq_dec (B * length p) 0) as [Hz|Hnz].
  - rewrite Hlq, Hz. reflexivity.
  - assert (length data = (length data / (B * length p)) * (B * length p))%nat
      as Hlen.
    { pose proof (Nat.div_mod_eq (length data) (B * length p)). lia. }
    rewrite permute_chunks_length by auto.
    rewrite Hlq. apply permute_chunks_cancel; auto.
Qed.

Lemma permute_length B (p : list nat) data :
  (forall j, (j < length p)%nat -> (nth j p 0 < length p)%nat) ->
  (length data mod (B * length p) = 0)%nat ->
  length (permute B data p) = length data.
Proof.
  intros Hp Hdiv. unfold permute.
  destruct (Nat.eq_dec (B * length p) 0) as [Hz|Hnz].
  - rewrite Hz. reflexivity.
  - apply permute_chunks_length; auto.
    pose proof (Nat.div_mod_eq (length data) (B * length p)). lia.
Qed.

End Blocks.

(** A permutation followed by its computed inverse, and the inverse
    followed by the permutation, both restore the region. *)
Lemma permute_then_inverse A B (order : list nat) (data : list A) :
  is_permutation order ->
  (length data mod (B * length order) = 0)%nat ->
  permute B (permute B data order) (invert_permutation order) = data.
Proof.
  intros Hp Hdiv. apply permute_cancel; auto.
  - apply invert_permutation_length.
  - intros; apply is_permutation_bound; auto.
  - intros; apply invert_bound; auto.
  - intros; apply invert_right; auto.
Qed.

Lemma inverse_then_permute A B (order : list nat) (data : list A) :
  is_permutation order ->
  (length data mod (B * length order) = 0)%nat ->
  permute B (permute B data (invert_permutation order)) order = data.
Proof.
  intros Hp Hdiv.
  pose proof (invert_permutation_length order) as Hl.
  apply permute_cancel; rewrite ?Hl; auto.
  - intros; apply invert_bound; auto.
  - intros; apply is_permutation_bound; auto.
  - intros; apply invert_left; auto.
Qed.

(** ** Reinterpreting an element array as bytes *)

Section Reinterpret.
Variables (A C : Type) (g : A -> list C) (c : nat).
Hypothesis g_size : forall a, length (g a) = c.

Lemma flat_map_length_uniform (l : list A) :
  length (flat_map g l) = (c * length l)%nat.
Proof.
  induction l as [|a l IH]; simpl; [lia|].
  rewrite length_app, g_size, IH. lia.
Qed.

Lemma firstn_flat_map n (l : list A) :
  firstn (c * n) (flat_map g l) = flat_map g (firstn n l).
Proof.
  revert l; induction n as [|n IH]; intros l.
  - rewrite Nat.mul_0_r. reflexivity.
  - destruct l as [|a l]; [destruct (c * S n)%nat; reflexivity|].
    simpl. rewrite firstn_app, g_size.
    rewrite firstn_all2 by (rewrite g_size; lia).
    replace (c * S n - c)%nat with (c * n)%nat by lia.
    rewrite IH. reflexivity.
Qed.

Lemma skipn_flat_map n (l : list A) :
  skipn (c * n) (flat_map g l) = flat_map g (skipn n l).
Proof.
  revert l; induction n as [|n IH]; intros l.
  - rewrite Nat.mul_0_r. reflexivity.
  - destruct l as [|a l]; [destruct (c * S n)%nat; reflexivity|].
    simpl. rewrite skipn_app, g_size.
    rewrite skipn_all2 by (rewrite g_size; lia).
    replace (c * S n - c)%nat with (c * n)%nat by lia.
    rewrite IH. reflexivity.
Qed.

Lemma block_flat_map B k (l : list A) :
  block (c * B) k (flat_map g l) = flat_map g (block B k l).
Proof.
  unfold block.
  replace (k * (c * B))%nat with (c * (k * B))%nat by lia.
  rewrite skipn_flat_map, firstn_flat_map. reflexivity.
Qed.

Lemma flat_map_concat (ls : list (list A)) :
  flat_map g (concat ls) = concat (map (flat_map g) ls).
Proof.
  induction ls as [|l ls IH]; simpl; [reflexivity|].
  rewrite flat_map_app, IH. reflexivity.
Qed.

Lemma permute_chunk_flat_map B order (l : list A) :
  permute_chunk (c * B) order (flat_map g l)
  = flat_map g (permute_chunk B order l).
Proof.
  unfold permute_chunk. rewrite flat_map_concat, map_map.
  f_equal. apply map_ext. intros o. apply block_flat_map.
Qed.

Lemma permute_chunks_flat_map count B order (l : list A) :
  permute_chunks count (c * B) order (flat_map g l)
  = flat_map g (permute_chunks count B order l).
Proof.
  revert l; induction count as [|count IH]; intros l; [reflexivity|].
  cbn [permute_chunks].
  replace (c * B * length order)%nat with (c * (B * length order))%nat by lia.
  rewrite firstn_flat_map, skipn_flat_map, permute_chunk_flat_map, IH.
  rewrite flat_map_app. reflexivity.
Qed.

(** Permuting byte blocks that hold whole elements is permuting the
    elements. *)
Lemma permute_flat_map B order (l : list A) :
  (0 < c)%nat ->
  permute (c * B) (flat_map g l) order = flat_map g (permute B l order).
Proof.
  intros Hc. unfold permute. rewrite flat_map_length_uniform.
  replace (c * B * length order)%nat with (c * (B * length order))%nat by lia.
  destruct (Nat.eq_dec (B * length order) 0) as [Hz|Hnz].
  - rewrite Hz, Nat.mul_0_r. reflexivity.
  - rewrite Nat.Div0.div_mul_cancel_l by lia.
    apply permute_chunks_flat_map.
Qed.

End Reinterpret.

Section Elementwise.
Variables (A : Type) (f : A -> A).

Lemma block_map B k (l : list A) :
  block B k (map f l) = map f (block B k l).
Proof. unfold block. rewrite skipn_map, firstn_map. reflexivity. Qed.

Lemma permute_chunk_map B order (l : list A) :
  permute_chunk B order (map f l) = map f (permute_chunk B order l).
Proof.
  unfold permute_chunk. rewrite concat_map, map_map.
  f_equal. apply map_ext. intros o. apply block_map.
Qed.

Lemma permute_chunks_map count B order (l : list A) :
  permute_chunks count B order (map f l)
  = map f (permute_chunks count B order l).
Proof.
  revert l; induction count as [|count IH]; intros l; [reflexivity|].
  cbn [permute_chunks].
  rewrite firstn_map, skipn_map, permute_chunk_map, IH, map_app.
  reflexivity.
Qed.

(** [permute] commutes with any element-wise rewrite of the array. *)
Lemma permute_map B order (l : list A) :
  permute B (map f l) order = map f (permute B l order).
Proof.
  unfold permute. rewrite length_map. apply permute_chunks_map.
Qed.

End Elementwise.

Section Members.
Variable A : Type.

Lemma In_firstn n (l : list A) x : In x (firstn n l) -> In x l.
Proof.
  intros H. rewrite <- (firstn_skipn n l). apply in_or_app. left. exact H.
Qed.

Lemma In_skipn n (l : list A) x : In x (skipn n l) -> In x l.
Proof.
  intros H. rewrite <- (firstn_skipn n l). apply in_or_app. right. exact H.
Qed.

Lemma block_incl B k (l : list A) x : In x (block B k l) -> In x l.
Proof.
  unfold block. intros H. apply In_firstn in H. apply In_skipn in H.
  exact H.
Qed.

Lemma permute_chunk_incl B order (l : list A) x :
  In x (permute_chunk B order l) -> In x l.
Proof.
  unfold permute_chunk. intros H. apply in_concat in H.
  destruct H as [b [Hb Hx]]. apply in_map_iff in Hb.
  destruct Hb as [o [<- _]]. eapply block_incl; eauto.
Qed.

Lemma permute_chunks_incl count B order (l : list A) x :
  In x (permute_chunks count B order l) -> In x l.
Proof.
  revert l; induction count as [|count IH]; intros l H; [exact H|].
  cbn [permute_chunks] in H. apply in_app_or in H. destruct H as [H|H].
  - apply permute_chunk_incl in H. apply In_firstn in H. exact H.
  - apply IH in H. apply In_skipn in H. exact H.
Qed.

(** [permute] only moves elements around. *)
Lemma permute_Forall (P : A -> Prop) B order (l : list A) :
  Forall P l -> Forall P (permute B l order).
Proof.
  intros H. apply Forall_forall. intros x Hx.
  apply permute_chunks_incl in Hx. revert x Hx. apply Forall_forall. exact H.
Qed.

End Members.

End Permute.

(* ===================================================================== *)
(** * Feature transformer parameters: permute / scale / read / write       *)
(* ===================================================================== *)

Module Parameters.

Import Permute.
Local Open Scope Z_scope.

(** [std::int16_t] and [std::int32_t] values are integers of the type's
    range; a result that leaves the range wraps around. *)
Definition wrap16 (z : Z) : Z := (z + 32768) mod 65536 - 32768.
Definition wrap32 (z : Z) : Z := (z + 2147483648) mod 4294967296 - 2147483648.

Definition is_int16 (z : Z) : Prop := -32768 <= z < 32768.
Definition is_int32 (z : Z) : Prop := -2147483648 <= z < 2147483648.
Definition is_int16b (z : Z) : bool := (-32768 <=? z) && (z <? 32768).
Definition is_int32b (z : Z) : bool :=
  (-2147483648 <=? z) && (z <? 2147483648).

(** The two bytes of an [int16_t] in memory (two's complement, low byte
    first), and the array read back from its bytes:
    [reinterpret_cast<std::byte*>(data)]. *)
Definition int16_bytes (w : Z) : list Z := [w mod 256; (w / 256) mod 256].

Definition int16s_bytes (ws : list Z) : list Z := flat_map int16_bytes ws.

Fixpoint bytes_int16s (bs : list Z) : list Z :=
  match bs with
  | lo :: hi :: t => wrap16 (lo + 256 * hi) :: bytes_int16s t
  | _ => []
  end.

(** The three bodies of the [PackusEpi16Order] lambda, by build target:
    USE_AVX512 or USE_AVX512F, USE_AVX2, and every other build (SSE2,
    NEON, no vector unit). *)
Inductive simd_target := TargetAVX512 | TargetAVX2 | TargetOther.

Definition PackusEpi16Order (t : simd_target) : list nat :=
  match t with
  | TargetAVX512 => [0; 2; 4; 6; 1; 3; 5; 7]
  | TargetAVX2 => [0; 2; 1; 3; 4; 6; 5; 7]
  | TargetOther => [0; 1; 2; 3; 4; 5; 6; 7]
  end%nat.

Definition InversePackusEpi16Order (t : simd_target) : list nat :=
  invert_permutation (PackusEpi16Order t).

(** [alignas(CacheLineSize) BiasType biases[HalfDimensions]] etc. *)
Record FeatureTransformer := {
  biases : list Z;
  weights : list Z;
  psqtWeights : list Z
}.

(** [permute<16>(array, order)] on an [int16_t] array. *)
Definition permute16 (arr : list Z) (order : list nat) : list Z :=
  bytes_int16s (permute 16 (int16s_bytes arr) order).

Definition permute_weights (t : simd_target) (ft : FeatureTransformer) :=
  {| biases := permute16 (biases ft) (PackusEpi16Order t);
     weights := permute16 (weights ft) (PackusEpi16Order t);
     psqtWeights := psqtWeights ft |}.

Definition unpermute_weights (t : simd_target) (ft : FeatureTransformer) :=
  {| biases := permute16 (biases ft) (InversePackusEpi16Order t);
     weights := permute16 (weights ft) (InversePackusEpi16Order t);
     psqtWeights := psqtWeights ft |}.

(** [w[i] = read ? w[i] * 2 : w[i] / 2]: computed in [int], stored back
    into the [int16_t]; [/] truncates towards zero. *)
Definition scale (read : bool) (w : Z) : Z :=
  wrap16 (if read then w * 2 else Z.quot w 2).

Definition scale_weights (read : bool) (ft : FeatureTransformer) :=
  {| biases := map (scale read) (biases ft);
     weights := map (scale read) (weights ft);
     psqtWeights := psqtWeights ft |}.

(** Modelled from the spec: nnue_common.h, with [read_leb_128] and
    [write_leb_128], is not among the sources; the parameter section of
    the weight file holds "length-prefixed variable-width-encoded integer
    arrays".  The stream is the sequence of integers it encodes, with the
    fail bit of the C++ stream; a read of [count] integers of a type
    yields values of that type, sets the fail bit and leaves the array
    when the stream is short. *)
Record stream := { items : list Z; failbit : bool }.

Definition read_leb_128 (wrap : Z -> Z) (s : stream) (out : list Z)
  (count : nat) : list Z * stream :=
  if failbit s || (length (items s) <? count)%nat
  then (out, {| items := items s; failbit := true |})
  else (map wrap (firstn count (items s)),
        {| items := skipn count (items s); failbit := failbit s |}).

Definition write_leb_128 (s : stream) (values : list Z) (count : nat)
  : stream :=
  {| items := items s ++ firstn count values; failbit := failbit s |}.

Section Net.

(** nnue_architecture.h is not among the sources: the dimensions are
    parameters. *)
Variables HalfDimensions InputDimensions PSQTBuckets : nat.
Variable target : simd_target.

(** [read_parameters]: the transformer after the call, the stream after
    the call, and the returned [!stream.fail()]. *)
Definition read_parameters (ft : FeatureTransformer) (s : stream)
  : FeatureTransformer * stream * bool :=
  let '(b, s1) := read_leb_128 wrap16 s (biases ft) HalfDimensions in
  let '(w, s2) :=
    read_leb_128 wrap16 s1 (weights ft) (HalfDimensions * InputDimensions) in
  let '(p, s3) :=
    read_leb_128 wrap32 s2 (psqtWeights ft) (PSQTBuckets * InputDimensions) in
  let ft1 := {| biases := b; weights := w; psqtWeights := p |} in
  let ft2 := permute_weights target ft1 in
  let ft3 := scale_weights true ft2 in
  (ft3, s3, negb (failbit s3)).

(** [write_parameters]. *)
Definition write_parameters (ft : FeatureTransformer) (s : stream)
  : FeatureTransformer * stream * bool :=
  let ft1 := unpermute_weights target ft in
  let ft2 := scale_weights false ft1 in
  let s1 := write_leb_128 s (biases ft2) HalfDimensions in
  let s2 := write_leb_128 s1 (weights ft2) (HalfDimensions * InputDimensions) in
  let s3 :=
    write_leb_128 s2 (psqtWeights ft2) (PSQTBuckets * InputDimensions) in
  let ft3 := permute_weights target ft2 in
  let ft4 := scale_weights true ft3 in
  (ft4, s3, negb (failbit s3)).

(** The arrays have their declared sizes and element types, and the
    static assertion of [permute] holds for them. *)
Definition well_sized (ft : FeatureTransformer) : bool :=
  (length (biases ft) =? HalfDimensions)%nat
  && (length (weights ft) =? HalfDimensions * InputDimensions)%nat
  && (length (psqtWeights ft) =? PSQTBuckets * InputDimensions)%nat
  && (HalfDimensions mod 64 =? 0)%nat
  && forallb is_int16b (biases ft)
  && forallb is_int16b (weights ft)
  && forallb is_int32b (psqtWeights ft).

(** Every bias and weight is even, as [scale_weights(true)] leaves
    them. *)
Definition doubled (ft : FeatureTransformer) : bool :=
  forallb Z.even (biases ft) && forallb Z.even (weights ft).

End Net.

(** ** Integer types *)

Lemma is_int16b_spec z : is_int16b z = true <-> is_int16 z.
Proof. unfold is_int16b, is_int16. lia. Qed.

Lemma is_int32b_spec z : is_int32b z = true <-> is_int32 z.
Proof. unfold is_int32b, is_int32. lia. Qed.

Lemma wrap16_id z : is_int16 z -> wrap16 z = z.
Proof.
  unfold is_int16, wrap16. intros H. rewrite Z.mod_small; lia.
Qed.

Lemma wrap32_id z : is_int32 z -> wrap32 z = z.
Proof.
  unfold is_int32, wrap32. intros H. rewrite Z.mod_small; lia.
Qed.

Lemma wrap16_range z : is_int16 (wrap16 z).
Proof.
  unfold is_int16, wrap16.
  pose proof (Z.mod_pos_bound (z + 32768) 65536). lia.
Qed.

Lemma wrap16_even z : Z.even z = true -> Z.even (wrap16 z) = true.
Proof.
  intros H. unfold wrap16. rewrite Z.mod_eq by lia.
  replace (z + 32768 - 65536 * ((z + 32768) / 65536) - 32768)
    with (z - 2 * (32768 * ((z + 32768) / 65536))) by lia.
  rewrite Z.even_sub, H, Z.even_mul. reflexivity.
Qed.

Lemma int16_of_its_bytes w :
  is_int16 w -> wrap16 (w mod 256 + 256 * ((w / 256) mod 256)) = w.
Proof.
  unfold is_int16, wrap16. intros H.
  pose proof (Z.div_mod w 256 ltac:(lia)) as H1.
  pose proof (Z.div_mod (w / 256) 256 ltac:(lia)) as H2.
  pose proof (Z.mod_pos_bound w 256 ltac:(lia)) as B1.
  pose proof (Z.mod_pos_bound (w / 256) 256 ltac:(lia)) as B2.
  assert ((w mod 256 + 256 * ((w / 256) mod 256) + 32768) mod 65536
          = w + 32768) as E.
  { symmetry. apply Z.mod_unique with (q := - (w / 256 / 256)); lia. }
  rewrite E. lia.
Qed.

Lemma bytes_of_int16s ws :
  Forall is_int16 ws -> bytes_int16s (int16s_bytes ws) = ws.
Proof.
  induction 1 as [|w ws Hw Hws IH]; [reflexivity|].
  unfold int16s_bytes in *. cbn [flat_map int16_bytes app bytes_int16s].
  rewrite IH, int16_of_its_bytes by exact Hw. reflexivity.
Qed.

(** On an array of [int16_t], [permute<16>] moves blocks of 8 elements. *)
Lemma permute16_elements ws order :
  Forall is_int16 ws -> permute16 ws order = permute 8 ws order.
Proof.
  intros H. unfold permute16, int16s_bytes.
  change 16%nat with (2 * 8)%nat.
  rewrite permute_flat_map by (auto; lia).
  apply bytes_of_int16s. apply permute_Forall. exact H.
Qed.

(** ** Scaling *)

Lemma scale_range read w : is_int16 (scale read w).
Proof. apply wrap16_range. Qed.

Lemma scale_true_even w : Z.even (scale true w) = true.
Proof.
  unfold scale. apply wrap16_even. rewrite Z.even_mul. apply orb_true_r.
Qed.

Lemma scale_halve_double w :
  is_int16 w -> Z.even w = true -> scale true (scale false w) = w.
Proof.
  intros Hr He. apply Z.even_spec in He. destruct He as [k ->].
  unfold scale. rewrite (Z.mul_comm 2 k), Z.quot_mul by lia.
  unfold is_int16 in Hr.
  rewrite (wrap16_id k) by (unfold is_int16; lia).
  apply wrap16_id. unfold is_int16. lia.
Qed.

Lemma map_scale_halve_double ws :
  Forall is_int16 ws -> forallb Z.even ws = true ->
  map (scale true) (map (scale false) ws) = ws.
Proof.
  induction 1 as [|w ws Hw Hws IH]; simpl; [reflexivity|].
  intros He. apply andb_prop in He. destruct He as [He1 He2].
  rewrite scale_halve_double, IH by assumption. reflexivity.
Qed.

Lemma Forall_scale read ws : Forall is_int16 (map (scale read) ws).
Proof.
  apply Forall_forall. intros x Hx. apply in_map_iff in Hx.
  destruct Hx as [w [<- _]]. apply scale_range.
Qed.

Lemma forallb_int16 ws : forallb is_int16b ws = true -> Forall is_int16 ws.
Proof.
  rewrite forallb_forall. intros H. apply Forall_forall. intros x Hx.
  apply is_int16b_spec. auto.
Qed.

Lemma forallb_int32 ws : forallb is_int32b ws = true -> Forall is_int32 ws.
Proof.
  rewrite forallb_forall. intros H. apply Forall_forall. intros x Hx.
  apply is_int32b_spec. auto.
Qed.

Lemma map_wrap16_id ws : Forall is_int16 ws -> map wrap16 ws = ws.
Proof.
  induction 1 as [|w ws Hw Hws IH]; simpl; [reflexivity|].
  rewrite wrap16_id, IH by assumption. reflexivity.
Qed.

Lemma map_wrap32_id ws : Forall is_int32 ws -> map wrap32 ws = ws.
Proof.
  induction 1 as [|w ws Hw Hws IH]; simpl; [reflexivity|].
  rewrite wrap32_id, IH by assumption. reflexivity.
Qed.

(** ** The three orders *)

Lemma PackusEpi16Order_length t : length (PackusEpi16Order t) = 8%nat.
Proof. destruct t; reflexivity. Qed.

Lemma PackusEpi16Order_permutation t : is_permutation (PackusEpi16Order t).
Proof.
  unfold is_permutation. rewrite PackusEpi16Order_length.
  apply NoDup_Permutation.
  - destruct t; cbn; repeat constructor; cbn; intuition discriminate.
  - apply seq_NoDup.
  - intros x. destruct t; cbn; intuition.
Qed.

Lemma InversePackusEpi16Order_values :
  InversePackusEpi16Order TargetAVX512 = [0; 4; 1; 5; 2; 6; 3; 7]%nat /\
  InversePackusEpi16Order TargetAVX2 = [0; 2; 1; 3; 4; 6; 5; 7]%nat /\
  InversePackusEpi16Order TargetOther = [0; 1; 2; 3; 4; 5; 6; 7]%nat.
Proof. repeat split. Qed.

Lemma inverse_order_bound t j :
  (j < length (InversePackusEpi16Order t))%nat ->
  (nth j (InversePackusEpi16Order t) 0 < length (InversePackusEpi16Order t))%nat.
Proof.
  unfold InversePackusEpi16Order. rewrite invert_permutation_length.
  apply invert_bound. apply PackusEpi16Order_permutation.
Qed.

(** Unpermute, rewrite every element, permute again: the rewrite alone
    remains. *)
Lemma permute16_sandwich t (f : Z -> Z) ws :
  (forall w, is_int16 (f w)) ->
  Forall is_int16 ws -> (length ws mod 64 = 0)%nat ->
  permute16 (map f (permute16 ws (InversePackusEpi16Order t)))
    (PackusEpi16Order t) = map f ws.
Proof.
  intros Hf Hws Hlen.
  rewrite (permute16_elements ws) by exact Hws.
  rewrite permute16_elements.
  - rewrite permute_map. f_equal.
    apply inverse_then_permute.
    + apply PackusEpi16Order_permutation.
    + rewrite PackusEpi16Order_length. exact Hlen.
  - apply Forall_forall. intros x Hx. apply in_map_iff in Hx.
    destruct Hx as [w [<- _]]. apply Hf.
Qed.

Lemma permute16_inverse_length t ws :
  Forall is_int16 ws -> (length ws mod 64 = 0)%nat ->
  length (permute16 ws (InversePackusEpi16Order t)) = length ws.
Proof.
  intros Hws Hlen. rewrite permute16_elements by exact Hws.
  apply permute_length.
  - apply inverse_order_bound.
  - unfold InversePackusEpi16Order.
    rewrite invert_permutation_length, PackusEpi16Order_length. exact Hlen.
Qed.

(** ** write_parameters, read_parameters *)

Lemma read_leb_128_exact wrap vals rest out n :
  length vals = n ->
  read_leb_128 wrap {| items := vals ++ rest; failbit := false |} out n
  = (map wrap vals, {| items := rest; failbit := false |}).
Proof.
  intros <-. unfold read_leb_128. cbn [items failbit orb].
  assert ((length (vals ++ rest) <? length vals)%nat = false) as E.
  { apply Nat.ltb_ge. rewrite length_app. lia. }
  rewrite E, (firstn_app_len _ vals rest _ eq_refl),
    (skipn_app_len _ vals rest _ eq_refl).
  reflexivity.
Qed.

Lemma mod64_mul H I : (H mod 64 = 0 -> (H * I) mod 64 = 0)%nat.
Proof.
  intros E. apply Nat.Div0.div_exact in E. rewrite E.
  replace (64 * (H / 64) * I)%nat with ((H / 64) * I * 64)%nat by lia.
  apply Nat.Div0.mod_mul.
Qed.

(** What [write_parameters] appends to the stream. *)
Definition saved_image (t : simd_target) (ft : FeatureTransformer) : list Z :=
  map (scale false) (permute16 (biases ft) (InversePackusEpi16Order t))
  ++ map (scale false) (permute16 (weights ft) (InversePackusEpi16Order t))
  ++ psqtWeights ft.

Lemma well_sized_facts H I P ft :
  well_sized H I P ft = true ->
  length (biases ft) = H /\ length (weights ft) = (H * I)%nat /\
  length (psqtWeights ft) = (P * I)%nat /\ (H mod 64 = 0)%nat /\
  Forall is_int16 (biases ft) /\ Forall is_int16 (weights ft) /\
  Forall is_int32 (psqtWeights ft) /\
  (length (biases ft) mod 64 = 0)%nat /\
  (length (weights ft) mod 64 = 0)%nat.
Proof.
  unfold well_sized. intros E.
  apply andb_prop in E; destruct E as [E Rp].
  apply andb_prop in E; destruct E as [E Rw].
  apply andb_prop in E; destruct E as [E Rb].
  apply andb_prop in E; destruct E as [E Hm].
  apply andb_prop in E; destruct E as [E Lp].
  apply andb_prop in E; destruct E as [Lb Lw].
  apply Nat.eqb_eq in Lb, Lw, Lp, Hm.
  assert (length (biases ft) mod 64 = 0)%nat by congruence.
  assert (length (weights ft) mod 64 = 0)%nat
    by (rewrite Lw; apply mod64_mul; assumption).
  auto 12 using forallb_int16, forallb_int32.
Qed.

Lemma write_parameters_keeps H I P t ft s :
  well_sized H I P ft = true -> doubled ft = true -> failbit s = false ->
  write_parameters H I P t ft s
  = (ft, {| items := items s ++ saved_image t ft; failbit := false |}, true).
Proof.
  intros Hwf Hd Hs.
  destruct (well_sized_facts H I P ft Hwf)
    as (Lb & Lw & Lp & Hm & Rb & Rw & Rp & Mb & Mw).
  apply andb_prop in Hd. destruct Hd as [Eb Ew].
  destruct ft as [b w p]. cbn [biases weights psqtWeights] in *.
  unfold write_parameters, unpermute_weights, scale_weights, permute_weights,
    write_leb_128, saved_image.
  cbn [biases weights psqtWeights items failbit].
  rewrite !permute16_sandwich
    by auto using scale_range.
  rewrite !map_scale_halve_double by assumption.
  rewrite Hs. cbn [negb].
  rewrite (firstn_all2 (n := H)), (firstn_all2 (n := (H * I)%nat)),
    (firstn_all2 (n := (P * I)%nat) p).
  - rewrite <- !app_assoc. reflexivity.
  - lia.
  - rewrite length_map, permute16_inverse_length by auto. lia.
  - rewrite length_map, permute16_inverse_length by auto. lia.
Qed.

Lemma read_parameters_restores H I P t ft ft0 :
  well_sized H I P ft = true -> doubled ft = true ->
  read_parameters H I P t ft0
    {| items := saved_image t ft; failbit := false |}
  = (ft, {| items := []; failbit := false |}, true).
Proof.
  intros Hwf Hd.
  destruct (well_sized_facts H I P ft Hwf)
    as (Lb & Lw & Lp & Hm & Rb & Rw & Rp & Mb & Mw).
  apply andb_prop in Hd. destruct Hd as [Eb Ew].
  destruct ft as [b w p]. cbn [biases weights psqtWeights] in *.
  unfold read_parameters, saved_image. cbn [biases weights psqtWeights].
  rewrite read_leb_128_exact
    by (rewrite length_map, permute16_inverse_length; auto).
  rewrite read_leb_128_exact
    by (rewrite length_map, permute16_inverse_length; auto).
  rewrite <- (app_nil_r p) at 1.
  rewrite read_leb_128_exact by assumption.
  unfold scale_weights, permute_weights.
  cbn [biases weights psqtWeights failbit negb].
  rewrite !map_wrap16_id by apply Forall_scale.
  rewrite map_wrap32_id by assumption.
  rewrite !permute16_sandwich
    by auto using scale_range.
  rewrite !map_scale_halve_double by assumption.
  reflexivity.
Qed.

(** Whatever [read_parameters] leaves in memory is even and in range. *)
Lemma read_parameters_doubled H I P t ft0 s :
  let ft := fst (fst (read_parameters H I P t ft0 s)) in
  Forall is_int16 (biases ft) /\ Forall is_int16 (weights ft) /\
  doubled ft = true.
Proof.
  unfold read_parameters.
  destruct (read_leb_128 wrap16 s (biases ft0) H) as [b s1].
  destruct (read_leb_128 wrap16 s1 (weights ft0) (H * I)) as [w s2].
  destruct (read_leb_128 wrap32 s2 (psqtWeights ft0) (P * I)) as [p s3].
  cbn [fst scale_weights permute_weights biases weights psqtWeights].
  unfold doubled. cbn [biases weights].
  repeat split; auto using Forall_scale.
  apply andb_true_intro. split; apply forallb_forall; intros x Hx;
    apply in_map_iff in Hx; destruct Hx as [y [<- _]]; apply scale_true_even.
Qed.

(** A transformer of 64 outputs over one input feature and 8 psqt
    buckets, with even parameters. *)
Definition ft_sample : FeatureTransformer :=
  {| biases := map (fun i => 2 * Z.of_nat i - 60) (seq 0 64);
     weights := map (fun i => 500 * Z.of_nat i - 16000) (seq 0 64);
     psqtWeights := [1; -2; 3; -4; 5; -6; 7; -8] |}.

(** The same with one odd bias. *)
Definition ft_odd : FeatureTransformer :=
  {| biases := 1 :: repeat 0 63;
     weights := repeat 0 64;
     psqtWeights := repeat 0 8 |}.

Definition empty_stream : stream := {| items := []; failbit := false |}.

(** [write_parameters] followed by [read_parameters] on what was
    written: the transformer in memory at the end. *)
Definition save_then_load (H I P : nat) (t : simd_target)
  (ft : FeatureTransformer) : FeatureTransformer :=
  let '(ft1, s1, _) := write_parameters H I P t ft empty_stream in
  fst (fst (read_parameters H I P t ft1 s1)).

(** C7, as stated, fails twice: the AVX-512 order is not its own inverse
    (slot 1 takes block 2, slot 2 takes block 4), and a transformer with
    an odd bias in memory does not come back from a save and a load (the
    halving on save truncates). *)
Lemma packing_round_trip_counterexample :
  InversePackusEpi16Order TargetAVX512 <> PackusEpi16Order TargetAVX512 /\
  permute 1 (permute 1 [0; 1; 2; 3; 4; 5; 6; 7]
               (PackusEpi16Order TargetAVX512))
    (PackusEpi16Order TargetAVX512) <> [0; 1; 2; 3; 4; 5; 6; 7] /\
  well_sized 64 1 8 ft_odd = true /\
  save_then_load 64 1 8 TargetOther ft_odd <> ft_odd.
Proof.
  repeat split; vm_compute; discriminate.
Qed.

(** C7.  For each of the three build targets, [permute] with
    [PackusEpi16Order] and then with [InversePackusEpi16Order] (and the
    other way round) restores any array whose size the chunk size
    divides; the table is its own inverse on the AVX2 and the default
    targets, while on AVX-512 the inverse is the distinct table
    0,4,1,5,2,6,3,7; and for a transformer whose biases and weights are
    even, as [read_parameters] always leaves them, [write_parameters]
    leaves the memory as it was, reports success, and [read_parameters]
    on what it wrote reproduces the same memory. *)
Theorem packing_round_trip :
  (forall (A : Type) (B : nat) (t : simd_target) (data : list A),
      (length data mod (B * 8) = 0)%nat ->
      permute B (permute B data (PackusEpi16Order t))
        (InversePackusEpi16Order t) = data /\
      permute B (permute B data (InversePackusEpi16Order t))
        (PackusEpi16Order t) = data) /\
  InversePackusEpi16Order TargetAVX2 = PackusEpi16Order TargetAVX2 /\
  InversePackusEpi16Order TargetOther = PackusEpi16Order TargetOther /\
  InversePackusEpi16Order TargetAVX512 = [0; 4; 1; 5; 2; 6; 3; 7]%nat /\
  (forall H I P t ft0 s,
      doubled (fst (fst (read_parameters H I P t ft0 s))) = true) /\
  (forall H I P t ft s ft0,
      well_sized H I P ft = true -> doubled ft = true ->
      failbit s = false ->
      exists image,
        write_parameters H I P t ft s
        = (ft, {| items := items s ++ image; failbit := false |}, true) /\
        read_parameters H I P t ft0 {| items := image; failbit := false |}
        = (ft, {| items := []; failbit := false |}, true)).
Proof.
  split; [|split; [|split; [|split; [|split]]]]; try reflexivity.
  - intros A B t data Hdiv.
    pose proof (PackusEpi16Order_permutation t) as Hp.
    split; [apply permute_then_inverse | apply inverse_then_permute];
      rewrite ?PackusEpi16Order_length; assumption.
  - intros. apply read_parameters_doubled.
  - intros H I P t ft s ft0 Hwf Hd Hs. exists (saved_image t ft). split.
    + apply write_parameters_keeps; assumption.
    + apply read_parameters_restores; assumption.
Qed.

(** The sample transformer survives a save and a load on the AVX-512
    target. *)
Lemma packing_round_trip_witness :
  well_sized 64 1 8 ft_sample = true /\
  doubled ft_sample = true /\
  save_then_load 64 1 8 TargetAVX512 ft_sample = ft_sample.
Proof.
  split; [reflexivity|]. split; [reflexivity|].
  destruct (proj2 (proj2 (proj2 (proj2 (proj2 packing_round_trip))))
              64%nat 1%nat 8%nat TargetAVX512 ft_sample empty_stream ft_sample
              eq_refl eq_refl eq_refl) as [image [Hw Hr]].
  unfold save_then_load. rewrite Hw. cbn [items empty_stream app].
  rewrite Hr. reflexivity.
Defined.

End Parameters.

(* ===================================================================== *)
(** * Bitboards and the board query interface                              *)
(* ===================================================================== *)

Module Board.

Local Open Scope N_scope.

(** Modelled from the spec: types.h and bitboard.h are not among the
    sources.  A Bitboard is "an unsigned fixed-width integer where each
    bit addresses one square"; the 90 squares of the board take a
    128-bit word. *)
Definition Bitboard := N.
Definition Square := N.

Definition BB_BITS : N := 128.

(** [~b] on the fixed-width word. *)
Definition bb_not (b : Bitboard) : Bitboard := N.ldiff (N.ones BB_BITS) b.

(** The bitboard with the single square [s]. *)
Definition square_bb (s : Square) : Bitboard := N.shiftl 1 s.

(** The squares a [while (b) ... pop_lsb(b)] loop visits, in the order it
    visits them: the set bits of [b], lowest first. *)
Fixpoint pos_squares (p : positive) (i : Square) : list Square :=
  match p with
  | xH => [i]
  | xO q => pos_squares q (N.succ i)
  | xI q => i :: pos_squares q (N.succ i)
  end.

Definition squares (b : Bitboard) : list Square :=
  match b with
  | N0 => []
  | Npos p => pos_squares p 0
  end.

(** [lsb(b)]: the lowest set square; the source requires [b != 0]. *)
Definition lsb (b : Bitboard) : Square := hd 0 (squares b).

(** [more_than_one(b)]: [b & (b - 1)]. *)
Definition more_than_one (b : Bitboard) : bool :=
  negb (N.land b (N.pred b) =? 0).

Inductive Color := WHITE | BLACK.

(** [~c] *)
Definition flip (c : Color) : Color :=
  match c with WHITE => BLACK | BLACK => WHITE end.

(** The piece types in the order of the enumeration, from [ROOK] to
    [KING], after [NO_PIECE_TYPE]. *)
Inductive PieceType :=
| NO_PIECE_TYPE | ROOK | ADVISOR | CANNON | PAWN | KNIGHT | BISHOP | KING.

Definition PieceType_eqb (a b : PieceType) : bool :=
  match a, b with
  | NO_PIECE_TYPE, NO_PIECE_TYPE | ROOK, ROOK | ADVISOR, ADVISOR
  | CANNON, CANNON | PAWN, PAWN | KNIGHT, KNIGHT | BISHOP, BISHOP
  | KING, KING => true
  | _, _ => false
  end.

(** [for (PieceType pt = ROOK; pt <= KING; ++pt)] *)
Definition piece_types : list PieceType :=
  [ROOK; ADVISOR; CANNON; PAWN; KNIGHT; BISHOP; KING].

(** Modelled from the spec: position.h is not among the sources.  The
    "board query interface" gives "piece bitboards by color and type,
    combined occupancy, side to move, king square per color, set of
    checking pieces"; [type_on s] is [type_of(pos.piece_on(s))]. *)
Record Position := {
  pieces : Bitboard;
  pieces_c : Color -> Bitboard;
  pieces_pt : PieceType -> Bitboard;
  side_to_move : Color;
  king_square : Color -> Square;
  checkers : Bitboard;
  type_on : Square -> PieceType
}.

(** [pos.pieces(c, pt)] *)
Definition pieces_cp (pos : Position) (c : Color) (pt : PieceType)
  : Bitboard :=
  N.land (pieces_c pos c) (pieces_pt pos pt).

(** Modelled from the spec: the attack and line tables of bitboard.h,
    which the move generator consults, are not among the sources.
    [attacks_bb pt s occ] is [attacks_bb<pt>(s, occ)], [pseudo_attacks pt s]
    the overload without occupancy. *)
Record Tables := {
  attacks_bb : PieceType -> Square -> Bitboard -> Bitboard;
  pseudo_attacks : PieceType -> Square -> Bitboard;
  pawn_attacks_bb : Color -> Square -> Bitboard;
  between_bb : Square -> Square -> Bitboard;
  line_bb : Square -> Square -> Bitboard
}.

(** Pairwise disjoint bitboards. *)
Fixpoint disjoint_all (l : list Bitboard) : bool :=
  match l with
  | [] => true
  | b :: t => forallb (fun b' => N.land b b' =? 0) t && disjoint_all t
  end.

(** A well-formed board: the occupancy is the union of the two colours,
    which share no square and fit the word; a square is set for at most
    one piece type; each king stands on its side's king square. *)
Definition well_formed (pos : Position) : bool :=
  (pieces pos =? N.lor (pieces_c pos WHITE) (pieces_c pos BLACK))
  && (N.land (pieces_c pos WHITE) (pieces_c pos BLACK) =? 0)
  && (pieces_c pos WHITE <? 2 ^ BB_BITS)
  && (pieces_c pos BLACK <? 2 ^ BB_BITS)
  && disjoint_all (map (pieces_pt pos) piece_types)
  && N.testbit (pieces_cp pos WHITE KING) (king_square pos WHITE)
  && N.testbit (pieces_cp pos BLACK KING) (king_square pos BLACK).

(** ** Bits *)

Lemma pos_squares_spec p i s :
  In s (pos_squares p i) <-> i <= s /\ Pos.testbit p (s - i) = true.
Proof.
  revert i; induction p as [p IH|p IH|]; intros i; cbn [pos_squares In].
  - rewrite IH. split.
    + intros [<-|[Hle Hb]].
      * rewrite N.sub_diag. split; [lia | reflexivity].
      * split; [lia|]. destruct (s - i) as [|d] eqn:E; [reflexivity|].
        cbn. replace (Pos.pred_N d) with (s - N.succ i) by lia. exact Hb.
    + intros [Hle Hb]. destruct (N.eq_dec i s) as [->|Hne]; [left; reflexivity|].
      right. split; [lia|].
      destruct (s - i) as [|d] eqn:E; [lia|].
      cbn in Hb. replace (s - N.succ i) with (Pos.pred_N d) by lia. exact Hb.
  - rewrite IH. split.
    + intros [Hle Hb]. split; [lia|].
      destruct (s - i) as [|d] eqn:E; [lia|].
      cbn. replace (Pos.pred_N d) with (s - N.succ i) by lia. exact Hb.
    + intros [Hle Hb]. destruct (s - i) as [|d] eqn:E; [discriminate|].
      split; [lia|].
      cbn in Hb. replace (s - N.succ i) with (Pos.pred_N d) by lia. exact Hb.
  - split.
    + intros [<-|[]]. rewrite N.sub_diag. split; [lia | reflexivity].
    + intros [Hle Hb]. left. destruct (s - i) as [|d] eqn:E; [lia|].
      discriminate.
Qed.

(** The loop visits exactly the set squares. *)
Lemma squares_spec b s : In s (squares b) <-> N.testbit b s = true.
Proof.
  destruct b as [|p]; cbn [squares].
  - split; [intros [] | discriminate].
  - rewrite pos_squares_spec, N.sub_0_r. cbn [N.testbit].
    split; [tauto | intros H; split; [lia | exact H]].
Qed.

Lemma pos_squares_NoDup p i : NoDup (pos_squares p i).
Proof.
  revert i; induction p as [p IH|p IH|]; intros i; cbn [pos_squares].
  - constructor; [|apply IH]. rewrite pos_squares_spec. lia.
  - apply IH.
  - constructor; [intros [] | constructor].
Qed.

(** It visits no square twice. *)
Lemma squares_NoDup b : NoDup (squares b).
Proof.
  destruct b; [constructor | apply pos_squares_NoDup].
Qed.

Lemma land_zero_disjoint a b s :
  N.land a b = 0 -> N.testbit a s = true -> N.testbit b s = true -> False.
Proof.
  intros H Ha Hb.
  assert (N.testbit (N.land a b) s = true) as E
      by (rewrite N.land_spec, Ha, Hb; reflexivity).
  rewrite H in E. discriminate.
Qed.

Lemma bb_not_spec b s :
  N.testbit (bb_not b) s = (s <? BB_BITS) && negb (N.testbit b s).
Proof.
  unfold bb_not. rewrite N.ldiff_spec. f_equal.
  destruct (s <? BB_BITS) eqn:E.
  - apply N.ones_spec_low. apply N.ltb_lt. exact E.
  - apply N.ones_spec_high. apply N.ltb_ge. exact E.
Qed.

Lemma testbit_below b s :
  b < 2 ^ BB_BITS -> N.testbit b s = true -> s < BB_BITS.
Proof.
  intros Hb Hs. destruct (N.lt_ge_cases s BB_BITS) as [|Hge]; [assumption|].
  exfalso. destruct (N.eq_dec b 0) as [->|Hnz]; [discriminate|].
  assert (N.log2 b < BB_BITS) as Hl by (apply N.log2_lt_pow2; lia).
  rewrite N.bits_above_log2 in Hs by lia. discriminate.
Qed.

End Board.

(* ===================================================================== *)
(** * Move generation: movegen.cpp                                         *)
(* ===================================================================== *)

Module MoveGen.

Import Board.
Local Open Scope N_scope.

(** Modelled from the spec: a Move is "an ordered pair (from-square,
    to-square) packed into a fixed-width integer"; the packing of types.h
    is not among the sources and two moves are equal when both squares
    are. *)
Record Move := mk_move { from_sq : Square; to_sq : Square }.

Definition Move_eqb (a b : Move) : bool :=
  (from_sq a =? from_sq b) && (to_sq a =? to_sq b).

Inductive GenType := CAPTURES | QUIETS | EVASIONS | PSEUDO_LEGAL | LEGAL.

Definition GenType_eqb (a b : GenType) : bool :=
  match a, b with
  | CAPTURES, CAPTURES | QUIETS, QUIETS | EVASIONS, EVASIONS
  | PSEUDO_LEGAL, PSEUDO_LEGAL | LEGAL, LEGAL => true
  | _, _ => false
  end.

(** [while (b) *moveList++ = Move(from, pop_lsb(b));] : the moves
    written. *)
Definition moves_from (from : Square) (b : Bitboard) : list Move :=
  map (mk_move from) (squares b).

Section Generators.

Variable T : Tables.

(** Modelled from the spec: the "legality predicate (consumed)",
    [pos.legal(m)] of position.h. *)
Variable legal : Position -> Move -> bool.

(** The destination bitboard [b] that [generate_moves<Us, Pt, Type>]
    computes for the piece on [from]. *)
Definition destinations (Us : Color) (Pt : PieceType) (Type' : GenType)
  (pos : Position) (target : Bitboard) (from : Square) : Bitboard :=
  let b := 0 in
  if negb (PieceType_eqb Pt CANNON) then
    N.land (if negb (PieceType_eqb Pt PAWN)
            then attacks_bb T Pt from (pieces pos)
            else pawn_attacks_bb T Us from)
           target
  else
    (* Generate cannon capture moves. *)
    let b := if negb (GenType_eqb Type' QUIETS)
             then N.lor b (N.land (attacks_bb T CANNON from (pieces pos))
                                  (pieces_c pos (flip Us)))
             else b in
    (* Generate cannon quiet moves. *)
    let b := if negb (GenType_eqb Type' CAPTURES)
             then N.lor b (N.land (attacks_bb T ROOK from (pieces pos))
                                  (bb_not (pieces pos)))
             else b in
    (* Restrict to target if in evasion generation *)
    if GenType_eqb Type' EVASIONS then N.land b target else b.

(** [generate_moves<Us, Pt, Type>(pos, moveList, target)] : the moves
    written from [moveList] on. *)
Definition generate_moves_pt (Us : Color) (Pt : PieceType) (Type' : GenType)
  (pos : Position) (target : Bitboard) : list Move :=
  flat_map (fun from =>
              moves_from from (destinations Us Pt Type' pos target from))
           (squares (pieces_cp pos Us Pt)).

(** [generate_moves<Us, Type>(pos, moveList, target)] *)
Definition generate_moves (Us : Color) (Type' : GenType) (pos : Position)
  (target : Bitboard) : list Move :=
  generate_moves_pt Us PAWN Type' pos target
  ++ generate_moves_pt Us BISHOP Type' pos target
  ++ generate_moves_pt Us ADVISOR Type' pos target
  ++ generate_moves_pt Us KNIGHT Type' pos target
  ++ generate_moves_pt Us CANNON Type' pos target
  ++ generate_moves_pt Us ROOK Type' pos target.

(** The target of [generate_all<Us, Type>]. *)
Definition all_target (Us : Color) (Type' : GenType) (pos : Position)
  : Bitboard :=
  if GenType_eqb Type' PSEUDO_LEGAL then bb_not (pieces_c pos Us)
  else if GenType_eqb Type' CAPTURES then pieces_c pos (flip Us)
  else bb_not (pieces pos).

(** [generate_all<Us, Type>(pos, moveList)] *)
Definition generate_all (Us : Color) (Type' : GenType) (pos : Position)
  : list Move :=
  let ksq := king_square pos Us in
  let target := all_target Us Type' pos in
  generate_moves Us Type' pos target
  ++ (if negb (GenType_eqb Type' EVASIONS)
      then moves_from ksq (N.land (pseudo_attacks T KING ksq) target)
      else []).

(** [generate<Type>(pos, moveList)] for CAPTURES, QUIETS and
    PSEUDO_LEGAL. *)
Definition generate_plain (Type' : GenType) (pos : Position) : list Move :=
  match side_to_move pos with
  | WHITE => generate_all WHITE Type' pos
  | BLACK => generate_all BLACK Type' pos
  end.

(** The three stretches of moves [generate<EVASIONS>] writes when there
    is one checker. *)
Definition evasion_target (pos : Position) : Bitboard :=
  let us := side_to_move pos in
  let ksq := king_square pos us in
  let checksq := lsb (checkers pos) in
  N.land (between_bb T ksq checksq) (bb_not (pieces_c pos us)).

Definition evasion_piece_moves (pos : Position) : list Move :=
  let us := side_to_move pos in
  match us with
  | WHITE => generate_moves WHITE EVASIONS pos (evasion_target pos)
  | BLACK => generate_moves BLACK EVASIONS pos (evasion_target pos)
  end.

Definition evasion_king_bb (pos : Position) : Bitboard :=
  let us := side_to_move pos in
  let ksq := king_square pos us in
  let checksq := lsb (checkers pos) in
  let pt := type_on pos checksq in
  let b := N.land (pseudo_attacks T KING ksq) (bb_not (pieces_c pos us)) in
  if PieceType_eqb pt ROOK || PieceType_eqb pt CANNON
  then N.land b (N.lor (bb_not (line_bb T checksq ksq))
                       (pieces_c pos (flip us)))
  else b.

Definition evasion_king_moves (pos : Position) : list Move :=
  moves_from (king_square pos (side_to_move pos)) (evasion_king_bb pos).

(** The destinations [b] of the hurdle piece on [hurdleSq], by its
    type. *)
Definition evasion_hurdle_bb (pos : Position) (hurdleSq : Square)
  : Bitboard :=
  let us := side_to_move pos in
  let checksq := lsb (checkers pos) in
  let pt := type_on pos hurdleSq in
  if PieceType_eqb pt PAWN then
    N.land (N.land (pawn_attacks_bb T us hurdleSq)
                   (bb_not (line_bb T checksq hurdleSq)))
           (bb_not (pieces_c pos us))
  else if PieceType_eqb pt CANNON then
    N.lor (N.land (N.land (attacks_bb T ROOK hurdleSq (pieces pos))
                          (bb_not (line_bb T checksq hurdleSq)))
                  (bb_not (pieces pos)))
          (N.land (attacks_bb T CANNON hurdleSq (pieces pos))
                  (pieces_c pos (flip us)))
  else
    N.land (N.land (attacks_bb T pt hurdleSq (pieces pos))
                   (bb_not (line_bb T checksq hurdleSq)))
           (bb_not (pieces_c pos us)).

(** [Bitboard hurdle = between_bb(ksq, checksq) & pos.pieces(us)] *)
Definition evasion_hurdle (pos : Position) : Bitboard :=
  let us := side_to_move pos in
  N.land (between_bb T (king_square pos us) (lsb (checkers pos)))
         (pieces_c pos us).

Definition evasion_hurdle_moves (pos : Position) : list Move :=
  let pt := type_on pos (lsb (checkers pos)) in
  if PieceType_eqb pt CANNON then
    let hurdle := evasion_hurdle pos in
    if negb (hurdle =? 0) then
      let hurdleSq := lsb hurdle in
      moves_from hurdleSq (evasion_hurdle_bb pos hurdleSq)
    else []
  else [].

(** [generate<EVASIONS>(pos, moveList)]; the source asserts
    [pos.checkers()]. *)
Definition generate_EVASIONS (pos : Position) : list Move :=
  (* If there are more than one checker, use slow version *)
  if more_than_one (checkers pos) then generate_plain PSEUDO_LEGAL pos
  else
    evasion_piece_moves pos ++ evasion_king_moves pos
    ++ evasion_hurdle_moves pos.

(** [*cur = *(--moveList)] on the stretch [cur .. moveList) = m :: rest :
    the last move takes the place of [m]; when [m] is itself the last,
    the stretch becomes empty. *)
Definition overwrite_with_last (m : Move) (rest : list Move) : list Move :=
  match rest with
  | [] => []
  | _ :: _ => last rest m :: removelast rest
  end.

Lemma overwrite_with_last_length m rest :
  length (overwrite_with_last m rest) = length rest.
Proof.
  destruct rest as [|x rest]; [reflexivity|].
  unfold overwrite_with_last.
  assert (x :: rest <> []) as Hne by discriminate.
  pose proof (f_equal (@length Move) (app_removelast_last m Hne)) as E.
  rewrite length_app in E. cbn [length] in *. lia.
Qed.

(** The loop of [generate<LEGAL>] on the stretch [cur .. moveList): the
    moves that stay in the buffer. *)
Equations? legal_loop (pos : Position) (stretch : list Move) : list Move
  by wf (length stretch) lt :=
  legal_loop pos [] := [];
  legal_loop pos (m :: rest) with legal pos m => {
    | true := m :: legal_loop pos rest;
    | false := legal_loop pos (overwrite_with_last m rest) }.
Proof.
  all: try rewrite overwrite_with_last_length; cbn [length]; apply Nat.lt_succ_diag_r.
Qed.

(** [generate<LEGAL>(pos, moveList)] *)
Definition generate_LEGAL (pos : Position) : list Move :=
  legal_loop pos
    (if negb (checkers pos =? 0) then generate_EVASIONS pos
     else generate_plain PSEUDO_LEGAL pos).

(** [generate<Type>] for every type. *)
Definition generate (Type' : GenType) (pos : Position) : list Move :=
  match Type' with
  | EVASIONS => generate_EVASIONS pos
  | LEGAL => generate_LEGAL pos
  | _ => generate_plain Type' pos
  end.

End Generators.

(** ** A board to run the generators on

    The tables of bitboard.h for the 9 x 10 board, square = rank * 9 +
    file, used by the closed examples below.  Rook-like pieces slide to
    the first piece, cannons attack from behind one screen up to the
    next piece, kings step inside the palace. *)
Module Xiangqi.

Local Open Scope Z_scope.

Definition file_of (s : Square) : Z := Z.of_N s mod 9.
Definition rank_of (s : Square) : Z := Z.of_N s / 9.
Definition make_square (f r : Z) : Square := Z.to_N (r * 9 + f).

Definition on_board (f r : Z) : bool :=
  (0 <=? f) && (f <? 9) && (0 <=? r) && (r <? 10).

Definition in_palace (s : Square) : bool :=
  (3 <=? file_of s) && (file_of s <=? 5)
  && ((rank_of s <=? 2) || (7 <=? rank_of s)).

Definition all_squares : list Square := map N.of_nat (seq 0 90).

Definition bb_of (l : list Square) : Bitboard :=
  fold_right (fun s b => N.lor (square_bb s) b) 0%N l.

(** The squares met when leaving (f, r) in direction (df, dr). *)
Fixpoint ray (n : nat) (f r df dr : Z) : list Square :=
  match n with
  | O => []
  | S n' =>
      if on_board (f + df) (r + dr)
      then make_square (f + df) (r + dr) :: ray n' (f + df) (r + dr) df dr
      else []
  end.

Definition rays (n : nat) (s : Square) : list (list Square) :=
  map (fun d => ray n (file_of s) (rank_of s) (fst d) (snd d))
      [(1, 0); (-1, 0); (0, 1); (0, -1)].

Fixpoint slide (occ : Bitboard) (l : list Square) : list Square :=
  match l with
  | [] => []
  | s :: t => if N.testbit occ s then [s] else s :: slide occ t
  end.

Fixpoint behind_screen (occ : Bitboard) (l : list Square) : list Square :=
  match l with
  | [] => []
  | s :: t => if N.testbit occ s then slide occ t else behind_screen occ t
  end.

Definition step (s : Square) (df dr : Z) : list Square :=
  ray 1 (file_of s) (rank_of s) df dr.

Definition free (occ : Bitboard) (l : list Square) : bool :=
  forallb (fun s => negb (N.testbit occ s)) l && negb (Nat.eqb (length l) 0).

Definition same_side (a b : Square) : bool :=
  Bool.eqb (rank_of a <=? 4) (rank_of b <=? 4).

Definition diagonals : list (Z * Z) := [(1, 1); (1, -1); (-1, 1); (-1, -1)].

Definition attacks (pt : PieceType) (s : Square) (occ : Bitboard)
  : Bitboard :=
  match pt with
  | ROOK => bb_of (flat_map (slide occ) (rays 10 s))
  | CANNON => bb_of (flat_map (behind_screen occ) (rays 10 s))
  | KING => bb_of (filter in_palace (concat (rays 1 s)))
  | ADVISOR =>
      bb_of (filter in_palace
               (flat_map (fun d => step s (fst d) (snd d)) diagonals))
  | BISHOP =>
      bb_of (filter (same_side s)
               (flat_map (fun d =>
                            if free occ (step s (fst d) (snd d))
                            then step s (2 * fst d) (2 * snd d) else [])
                         diagonals))
  | KNIGHT =>
      bb_of (flat_map (fun d =>
                         (if free occ (step s (fst d) 0)
                          then step s (2 * fst d) (snd d) else [])
                         ++ (if free occ (step s 0 (snd d))
                             then step s (fst d) (2 * snd d) else []))
                      diagonals)
  | _ => 0%N
  end.

Definition pawn_attacks (c : Color) (s : Square) : Bitboard :=
  let forward := match c with WHITE => 1 | BLACK => -1 end in
  let crossed := match c with
                 | WHITE => 5 <=? rank_of s
                 | BLACK => rank_of s <=? 4
                 end in
  bb_of (step s 0 forward
         ++ (if crossed then step s 1 0 ++ step s (-1) 0 else [])).

Definition aligned (a b : Square) : bool :=
  negb (N.eqb a b)
  && ((file_of a =? file_of b) || (rank_of a =? rank_of b)).

(** The whole rank or file through two aligned squares. *)
Definition line (a b : Square) : Bitboard :=
  if aligned a b then
    bb_of (filter (fun s => if file_of a =? file_of b
                            then file_of s =? file_of a
                            else rank_of s =? rank_of a) all_squares)
  else 0%N.

Definition strictly_between (x a b : Z) : bool :=
  ((a <? x) && (x <? b)) || ((b <? x) && (x <? a)).

(** The squares strictly between two aligned squares, and the second
    square itself (the checker, when the first is the king). *)
Definition between (a b : Square) : Bitboard :=
  N.lor (square_bb b)
    (if aligned a b then
       bb_of (filter (fun s =>
                        if file_of a =? file_of b
                        then (file_of s =? file_of a)
                             && strictly_between (rank_of s) (rank_of a)
                                  (rank_of b)
                        else (rank_of s =? rank_of a)
                             && strictly_between (file_of s) (file_of a)
                                  (file_of b))
                     all_squares)
     else 0%N).

Definition tables : Tables :=
  {| attacks_bb := attacks;
     pseudo_attacks := fun pt s => attacks pt s 0%N;
     pawn_attacks_bb := pawn_attacks;
     between_bb := between;
     line_bb := line |}.

(** A position from the list of its pieces. *)
Definition Placement := (Color * PieceType * Square)%type.

Definition Color_eqb (a b : Color) : bool :=
  match a, b with
  | WHITE, WHITE | BLACK, BLACK => true
  | _, _ => false
  end.

Definition place (stm : Color) (l : list Placement) (chk : Bitboard)
  : Position :=
  {| pieces := bb_of (map snd l);
     pieces_c := fun c =>
       bb_of (map snd (filter (fun x => Color_eqb (fst (fst x)) c) l));
     pieces_pt := fun pt =>
       bb_of (map snd (filter (fun x => PieceType_eqb (snd (fst x)) pt) l));
     side_to_move := stm;
     king_square := fun c =>
       hd 0%N (map snd (filter (fun x => Color_eqb (fst (fst x)) c
                                         && PieceType_eqb (snd (fst x)) KING)
                               l));
     checkers := chk;
     type_on := fun s =>
       hd NO_PIECE_TYPE
          (map (fun x => snd (fst x)) (filter (fun x => N.eqb (snd x) s) l))
  |}.

(** Squares by name. *)
Definition SQ_D0 : Square := 3%N.
Definition SQ_E0 : Square := 4%N.
Definition SQ_F0 : Square := 5%N.
Definition SQ_A1 : Square := 9%N.
Definition SQ_D1 : Square := 12%N.
Definition SQ_E1 : Square := 13%N.
Definition SQ_E2 : Square := 22%N.
Definition SQ_F1 : Square := 14%N.
Definition SQ_E3 : Square := 31%N.
Definition SQ_A3 : Square := 27%N.
Definition SQ_C3 : Square := 29%N.
Definition SQ_D9 : Square := 84%N.

(** White to move, king e0 and rook e1; black cannon e3 gives check over
    the rook; black king d9. *)
Definition cannon_check_own_screen : Position :=
  place WHITE
    [(WHITE, KING, SQ_E0); (WHITE, ROOK, SQ_E1);
     (BLACK, CANNON, SQ_E3); (BLACK, KING, SQ_D9)]
    (square_bb SQ_E3).

(** White to move, king e0; black cannon e3 gives check over the black
    cannon e1; black king d9. *)
Definition cannon_check_enemy_screen : Position :=
  place WHITE
    [(WHITE, KING, SQ_E0);
     (BLACK, CANNON, SQ_E1); (BLACK, CANNON, SQ_E3); (BLACK, KING, SQ_D9)]
    (square_bb SQ_E3).

(** White to move, king e0 and cannon e1; black cannon e3 gives check
    over the white cannon; black king d9. *)
Definition cannon_check_cannon_screen : Position :=
  place WHITE
    [(WHITE, KING, SQ_E0); (WHITE, CANNON, SQ_E1);
     (BLACK, CANNON, SQ_E3); (BLACK, KING, SQ_D9)]
    (square_bb SQ_E3).

(** White to move and not in check: king e0, rook c3, cannon a3; black
    cannon e3, which both the rook and, over the rook, the cannon can
    take; black king d9. *)
Definition open_position : Position :=
  place WHITE
    [(WHITE, KING, SQ_E0); (WHITE, ROOK, SQ_C3); (WHITE, CANNON, SQ_A3);
     (BLACK, CANNON, SQ_E3); (BLACK, KING, SQ_D9)]
    0%N.

(** White to move, king e0; black rook e3 gives check; black king d9. *)
Definition rook_check : Position :=
  place WHITE
    [(WHITE, KING, SQ_E0); (WHITE, ROOK, SQ_A1);
     (BLACK, ROOK, SQ_E3); (BLACK, KING, SQ_D9)]
    (square_bb SQ_E3).

End Xiangqi.

(** ** Which moves a stretch holds *)

Lemma Move_eta m : mk_move (from_sq m) (to_sq m) = m.
Proof. destruct m; reflexivity. Qed.

Lemma In_moves_from from b m :
  In m (moves_from from b) <->
  from_sq m = from /\ N.testbit b (to_sq m) = true.
Proof.
  unfold moves_from. rewrite in_map_iff. split.
  - intros [s [<- Hs]]. apply squares_spec in Hs. auto.
  - intros [<- Hb]. exists (to_sq m). split; [apply Move_eta|].
    apply squares_spec. exact Hb.
Qed.

Lemma NoDup_moves_from from b : NoDup (moves_from from b).
Proof.
  unfold moves_from. generalize (squares_NoDup b).
  induction 1 as [|s l Hs Hl IH]; cbn; constructor; [|exact IH].
  rewrite in_map_iff. intros [s' [E Hin]]. injection E as ->. auto.
Qed.

Lemma NoDup_app_intro (A : Type) (l1 l2 : list A) :
  NoDup l1 -> NoDup l2 -> (forall x, In x l1 -> In x l2 -> False) ->
  NoDup (l1 ++ l2).
Proof.
  intros H1 H2 Hd. induction H1 as [|a l1 Ha H1 IH]; [exact H2|].
  cbn. constructor.
  - rewrite in_app_iff. intros [H|H]; [auto|]. apply (Hd a); cbn; auto.
  - apply IH. intros x Hx Hx2. apply (Hd x); cbn; auto.
Qed.

Lemma NoDup_by_origin (f : Square -> Bitboard) (froms : list Square) :
  NoDup froms ->
  NoDup (flat_map (fun from => moves_from from (f from)) froms).
Proof.
  induction 1 as [|a l Ha Hl IH]; cbn; [constructor|].
  apply NoDup_app_intro; [apply NoDup_moves_from | exact IH |].
  intros m H1 H2. apply In_moves_from in H1. destruct H1 as [H1 _].
  apply in_flat_map in H2. destruct H2 as [from [Hin Hm]].
  apply In_moves_from in Hm. destruct Hm as [Hm _]. congruence.
Qed.

Section Membership.

Variable T : Tables.

Lemma In_generate_moves_pt Us Pt Ty pos target m :
  In m (generate_moves_pt T Us Pt Ty pos target) <->
  N.testbit (pieces_cp pos Us Pt) (from_sq m) = true /\
  N.testbit (destinations T Us Pt Ty pos target (from_sq m)) (to_sq m) = true.
Proof.
  unfold generate_moves_pt. rewrite in_flat_map. split.
  - intros [from [Hf Hm]]. apply squares_spec in Hf.
    apply In_moves_from in Hm. destruct Hm as [<- Hb]. auto.
  - intros [Hf Hb]. exists (from_sq m). split; [apply squares_spec; exact Hf|].
    apply In_moves_from. auto.
Qed.

Lemma NoDup_generate_moves_pt Us Pt Ty pos target :
  NoDup (generate_moves_pt T Us Pt Ty pos target).
Proof.
  unfold generate_moves_pt.
  apply (NoDup_by_origin (destinations T Us Pt Ty pos target)).
  apply squares_NoDup.
Qed.

(** The piece types [generate_moves<Us, Type>] runs through. *)
Definition generated_types : list PieceType :=
  [PAWN; BISHOP; ADVISOR; KNIGHT; CANNON; ROOK].

Lemma generate_moves_flat Us Ty pos target :
  generate_moves T Us Ty pos target
  = flat_map (fun Pt => generate_moves_pt T Us Pt Ty pos target)
             generated_types.
Proof.
  unfold generate_moves. cbn [generated_types flat_map].
  rewrite app_nil_r. reflexivity.
Qed.

Lemma In_generate_moves Us Ty pos target m :
  In m (generate_moves T Us Ty pos target) <->
  exists Pt, In Pt generated_types /\
    N.testbit (pieces_cp pos Us Pt) (from_sq m) = true /\
    N.testbit (destinations T Us Pt Ty pos target (from_sq m)) (to_sq m)
    = true.
Proof.
  rewrite generate_moves_flat, in_flat_map.
  split; intros [Pt [HPt H]]; exists Pt; split; auto;
    apply In_generate_moves_pt; exact H.
Qed.

Lemma In_generate_all Us Ty pos m :
  In m (generate_all T Us Ty pos) <->
  (exists Pt, In Pt generated_types /\
     N.testbit (pieces_cp pos Us Pt) (from_sq m) = true /\
     N.testbit (destinations T Us Pt Ty pos (all_target Us Ty pos)
                  (from_sq m)) (to_sq m) = true)
  \/ (GenType_eqb Ty EVASIONS = false /\
      from_sq m = king_square pos Us /\
      N.testbit (N.land (pseudo_attacks T KING (king_square pos Us))
                   (all_target Us Ty pos)) (to_sq m) = true).
Proof.
  unfold generate_all. rewrite in_app_iff, In_generate_moves.
  destruct (GenType_eqb Ty EVASIONS); cbn [negb].
  - split; [intros [H|[]]; auto | intros [H|[H _]]; [auto | discriminate]].
  - rewrite In_moves_from. split; (intros [H|H]; [left; exact H | right]);
      tauto.
Qed.

Lemma generate_plain_side Ty pos :
  generate_plain T Ty pos = generate_all T (side_to_move pos) Ty pos.
Proof. unfold generate_plain. destruct (side_to_move pos); reflexivity. Qed.

(** ** Well-formed boards *)

Lemma well_formed_facts pos :
  well_formed pos = true ->
  pieces pos = N.lor (pieces_c pos WHITE) (pieces_c pos BLACK) /\
  N.land (pieces_c pos WHITE) (pieces_c pos BLACK) = 0 /\
  pieces_c pos WHITE < 2 ^ BB_BITS /\
  pieces_c pos BLACK < 2 ^ BB_BITS /\
  disjoint_all (map (pieces_pt pos) piece_types) = true /\
  N.testbit (pieces_cp pos WHITE KING) (king_square pos WHITE) = true /\
  N.testbit (pieces_cp pos BLACK KING) (king_square pos BLACK) = true.
Proof.
  unfold well_formed. intros E.
  apply andb_prop in E; destruct E as [E KB].
  apply andb_prop in E; destruct E as [E KW].
  apply andb_prop in E; destruct E as [E D].
  apply andb_prop in E; destruct E as [E LB].
  apply andb_prop in E; destruct E as [E LW].
  apply andb_prop in E; destruct E as [U I].
  apply N.eqb_eq in U, I. apply N.ltb_lt in LW, LB. auto 10.
Qed.

Lemma colour_below pos c s :
  well_formed pos = true -> N.testbit (pieces_c pos c) s = true ->
  (s <? BB_BITS) = true.
Proof.
  intros Hwf Hs. destruct (well_formed_facts pos Hwf) as (_ & _ & LW & LB & _).
  apply N.ltb_lt.
  destruct c; [apply (testbit_below _ _ LW Hs) | apply (testbit_below _ _ LB Hs)].
Qed.

Lemma colours_apart pos c s :
  well_formed pos = true -> N.testbit (pieces_c pos c) s = true ->
  N.testbit (pieces_c pos (flip c)) s = false.
Proof.
  intros Hwf Hs. destruct (well_formed_facts pos Hwf) as (_ & I & _).
  destruct (N.testbit (pieces_c pos (flip c)) s) eqn:E; [|reflexivity].
  exfalso. destruct c; cbn [flip] in E;
    [apply (land_zero_disjoint _ _ s I Hs E)
    | apply (land_zero_disjoint _ _ s I E Hs)].
Qed.

Lemma occupancy_bit pos c s :
  well_formed pos = true ->
  N.testbit (pieces pos) s
  = N.testbit (pieces_c pos c) s || N.testbit (pieces_c pos (flip c)) s.
Proof.
  intros Hwf. destruct (well_formed_facts pos Hwf) as (U & _).
  rewrite U, N.lor_spec. destruct c; cbn [flip]; [reflexivity|].
  apply orb_comm.
Qed.

(** The PSEUDO_LEGAL target is the CAPTURES target and the QUIETS target
    together, and the latter two share no square. *)
Lemma target_split Us pos s :
  well_formed pos = true ->
  N.testbit (all_target Us PSEUDO_LEGAL pos) s
  = N.testbit (all_target Us CAPTURES pos) s
    || N.testbit (all_target Us QUIETS pos) s.
Proof.
  intros Hwf. unfold all_target. cbn [GenType_eqb].
  rewrite !bb_not_spec, (occupancy_bit pos Us s Hwf).
  pose proof (colour_below pos (flip Us) s Hwf) as Hb.
  pose proof (colours_apart pos Us s Hwf) as Ha.
  destruct (N.testbit (pieces_c pos Us) s),
    (N.testbit (pieces_c pos (flip Us)) s), (s <? BB_BITS);
    cbn in *; auto; try (specialize (Hb eq_refl)); try (specialize (Ha eq_refl));
    congruence.
Qed.

Lemma lor_0_l_bit b s : N.testbit (N.lor 0 b) s = N.testbit b s.
Proof. reflexivity. Qed.

Lemma destinations_capture Us Pt pos from s :
  N.testbit (destinations T Us Pt CAPTURES pos
               (all_target Us CAPTURES pos) from) s = true ->
  N.testbit (pieces_c pos (flip Us)) s = true.
Proof.
  unfold destinations, all_target.
  destruct Pt; cbn [PieceType_eqb GenType_eqb negb N.lor];
    rewrite N.land_spec; intros H; apply andb_prop in H; tauto.
Qed.

Lemma destinations_quiet Us Pt pos from s :
  N.testbit (destinations T Us Pt QUIETS pos
               (all_target Us QUIETS pos) from) s = true ->
  N.testbit (pieces pos) s = false.
Proof.
  unfold destinations, all_target.
  destruct Pt; cbn [PieceType_eqb GenType_eqb negb N.lor];
    rewrite N.land_spec, bb_not_spec; intros H;
    repeat (apply andb_prop in H; destruct H as [? H]);
    apply negb_true_iff; assumption.
Qed.

Lemma destinations_split Us Pt pos from s :
  well_formed pos = true ->
  N.testbit (destinations T Us Pt PSEUDO_LEGAL pos
               (all_target Us PSEUDO_LEGAL pos) from) s
  = N.testbit (destinations T Us Pt CAPTURES pos
                 (all_target Us CAPTURES pos) from) s
    || N.testbit (destinations T Us Pt QUIETS pos
                    (all_target Us QUIETS pos) from) s.
Proof.
  intros Hwf. unfold destinations.
  pose proof (target_split Us pos s Hwf) as Ht.
  destruct Pt; cbn [PieceType_eqb GenType_eqb negb];
    rewrite ?N.lor_spec, ?N.land_spec; rewrite ?Ht;
    try apply andb_orb_distrib_r.
  reflexivity.
Qed.

End Membership.

(** The two move shapes of a cannon on [from]. *)
Definition cannon_captures (T : Tables) (Us : Color) (pos : Position)
  (from : Square) : Bitboard :=
  N.land (attacks_bb T CANNON from (pieces pos)) (pieces_c pos (flip Us)).

Definition cannon_quiets (T : Tables) (pos : Position) (from : Square)
  : Bitboard :=
  N.land (attacks_bb T ROOK from (pieces pos)) (bb_not (pieces pos)).

Section Shapes.

Variable T : Tables.
Variable legal : Position -> Move -> bool.

(** C9. On a well-formed board no move is generated both by CAPTURES and
    by QUIETS, and a move is generated by PSEUDO_LEGAL exactly when one
    of the two generates it. *)
Theorem captures_quiets_partition (pos : Position) :
  well_formed pos = true ->
  (forall m, In m (generate T legal CAPTURES pos) ->
             In m (generate T legal QUIETS pos) -> False) /\
  (forall m, In m (generate T legal PSEUDO_LEGAL pos) <->
             In m (generate T legal CAPTURES pos)
             \/ In m (generate T legal QUIETS pos)).
Proof.
  intros Hwf. cbn [generate]. rewrite !generate_plain_side.
  set (Us := side_to_move pos). split.
  - intros m Hc Hq.
    assert (N.testbit (pieces_c pos (flip Us)) (to_sq m) = true) as He.
    { apply In_generate_all in Hc. destruct Hc as [[Pt [_ [_ Hd]]]|[_ [_ Hd]]].
      - eapply destinations_capture; eauto.
      - rewrite N.land_spec in Hd. apply andb_prop in Hd. apply Hd. }
    assert (N.testbit (pieces pos) (to_sq m) = false) as Hn.
    { apply In_generate_all in Hq. destruct Hq as [[Pt [_ [_ Hd]]]|[_ [_ Hd]]].
      - eapply destinations_quiet; eauto.
      - rewrite N.land_spec in Hd. apply andb_prop in Hd. destruct Hd as [_ Hd].
        unfold all_target in Hd. cbn [GenType_eqb] in Hd.
        rewrite bb_not_spec in Hd. apply andb_prop in Hd.
        apply negb_true_iff. apply Hd. }
    rewrite (occupancy_bit pos (flip Us) _ Hwf), He in Hn. discriminate.
  - intros m. rewrite !In_generate_all. cbn [GenType_eqb]. split.
    + intros [[Pt [HPt [Hf Hd]]]|[_ [Hk Hd]]].
      * rewrite (destinations_split T Us Pt pos _ _ Hwf) in Hd.
        apply orb_prop in Hd. destruct Hd as [Hd|Hd];
          [left | right]; left; exists Pt; auto.
      * rewrite N.land_spec, (target_split Us pos _ Hwf) in Hd.
        rewrite andb_orb_distrib_r in Hd. apply orb_prop in Hd.
        destruct Hd as [Hd|Hd]; [left | right]; right;
          rewrite N.land_spec; auto.
    + intros [[[Pt [HPt [Hf Hd]]]|[_ [Hk Hd]]]|[[Pt [HPt [Hf Hd]]]|[_ [Hk Hd]]]].
      * left. exists Pt. repeat split; auto.
        rewrite (destinations_split T Us Pt pos _ _ Hwf), Hd. reflexivity.
      * right. repeat split; auto.
        rewrite N.land_spec in *. rewrite (target_split Us pos _ Hwf).
        rewrite andb_orb_distrib_r, Hd. reflexivity.
      * left. exists Pt. repeat split; auto.
        rewrite (destinations_split T Us Pt pos _ _ Hwf), Hd.
        apply orb_true_r.
      * right. repeat split; auto.
        rewrite N.land_spec in *. rewrite (target_split Us pos _ Hwf).
        rewrite andb_orb_distrib_r, Hd. apply orb_true_r.
Qed.

End Shapes.

(** The cannon a3 of the open position takes on e3 and nowhere else. *)
Example cannon_a3_captures :
  squares (cannon_captures Xiangqi.tables WHITE Xiangqi.open_position
             Xiangqi.SQ_A3) = [Xiangqi.SQ_E3].
Proof. vm_compute. reflexivity. Qed.

(** In the open position the rook's capture on e3 is a PSEUDO_LEGAL
    move. *)
Lemma captures_quiets_partition_witness :
  well_formed Xiangqi.open_position = true /\
  In (mk_move Xiangqi.SQ_C3 Xiangqi.SQ_E3)
     (generate Xiangqi.tables (fun _ _ => true) PSEUDO_LEGAL
        Xiangqi.open_position).
Proof.
  assert (well_formed Xiangqi.open_position = true) as Hwf
      by (vm_compute; reflexivity).
  split; [exact Hwf|].
  assert (In (mk_move Xiangqi.SQ_C3 Xiangqi.SQ_E3)
            (generate Xiangqi.tables (fun _ _ => true) CAPTURES
               Xiangqi.open_position)) as Hc by (vm_compute; tauto).
  exact (proj2 (proj2 (captures_quiets_partition Xiangqi.tables
                         (fun _ _ => true) Xiangqi.open_position Hwf)
                  (mk_move Xiangqi.SQ_C3 Xiangqi.SQ_E3))
               (or_introl Hc)).
Defined.

(** ** Check evasions *)

Lemma pos_squares_nonempty p i : pos_squares p i <> [].
Proof.
  revert i; induction p as [p IH|p IH|]; intros i; cbn;
    [discriminate | apply IH | discriminate].
Qed.

Lemma lsb_set b : b <> 0 -> N.testbit b (lsb b) = true.
Proof.
  intros Hb. apply squares_spec. unfold lsb.
  destruct (squares b) as [|s l] eqn:E; [|left; reflexivity].
  exfalso. destruct b as [|p]; [congruence|].
  exact (pos_squares_nonempty p 0 E).
Qed.

Lemma types_apart pos P Q s :
  well_formed pos = true ->
  P <> NO_PIECE_TYPE -> Q <> NO_PIECE_TYPE -> P <> Q ->
  N.testbit (pieces_pt pos P) s = true ->
  N.testbit (pieces_pt pos Q) s = true -> False.
Proof.
  intros Hwf HP HQ Hne Hp Hq.
  destruct (well_formed_facts pos Hwf) as (_ & _ & _ & _ & D & _).
  cbn [piece_types map disjoint_all forallb] in D.
  repeat match goal with
         | H : _ && _ = true |- _ => apply andb_prop in H; destruct H
         end.
  repeat match goal with
         | H : (_ =? _) = true |- _ => apply N.eqb_eq in H
         end.
  destruct P, Q; try congruence;
    match goal with
    | H : N.land (pieces_pt pos ?X) (pieces_pt pos ?Y) = 0,
      HX : N.testbit (pieces_pt pos ?X) s = true,
      HY : N.testbit (pieces_pt pos ?Y) s = true |- _ =>
        exact (land_zero_disjoint _ _ s H HX HY)
    end.
Qed.

Lemma pieces_cp_bits pos c pt s :
  N.testbit (pieces_cp pos c pt) s = true ->
  N.testbit (pieces_c pos c) s = true /\
  N.testbit (pieces_pt pos pt) s = true.
Proof.
  unfold pieces_cp. rewrite N.land_spec. apply andb_prop.
Qed.

Lemma generated_type_not_king Pt :
  In Pt generated_types -> Pt <> KING /\ Pt <> NO_PIECE_TYPE.
Proof.
  cbn. intros H. split; intros ->; intuition discriminate.
Qed.

(** No piece other than the king stands on the king square. *)
Lemma king_square_is_kings pos Pt :
  well_formed pos = true -> In Pt generated_types ->
  N.testbit (pieces_cp pos (side_to_move pos) Pt)
    (king_square pos (side_to_move pos)) = false.
Proof.
  intros Hwf HPt.
  destruct (N.testbit (pieces_cp pos (side_to_move pos) Pt)
              (king_square pos (side_to_move pos))) eqn:E; [|reflexivity].
  exfalso. apply pieces_cp_bits in E. destruct E as [_ E].
  destruct (generated_type_not_king Pt HPt) as [H1 H2].
  destruct (well_formed_facts pos Hwf) as (_ & _ & _ & _ & _ & KW & KB).
  apply pieces_cp_bits in KW, KB.
  apply (types_apart pos Pt KING (king_square pos (side_to_move pos)) Hwf H2);
    [discriminate | assumption | exact E |].
  destruct (side_to_move pos); tauto.
Qed.

Section Stretches.

Variable T : Tables.

Lemma destinations_evasions Us Pt pos target from s :
  N.testbit (destinations T Us Pt EVASIONS pos target from) s = true ->
  N.testbit target s = true.
Proof.
  unfold destinations.
  destruct Pt; cbn [PieceType_eqb GenType_eqb negb];
    rewrite N.land_spec; intros H; apply andb_prop in H; tauto.
Qed.

Lemma evasion_piece_moves_eq pos :
  evasion_piece_moves T pos
  = generate_moves T (side_to_move pos) EVASIONS pos (evasion_target T pos).
Proof.
  unfold evasion_piece_moves. destruct (side_to_move pos); reflexivity.
Qed.

Lemma In_evasion_hurdle_moves pos m :
  In m (evasion_hurdle_moves T pos) <->
  type_on pos (lsb (checkers pos)) = CANNON /\
  evasion_hurdle T pos <> 0 /\
  from_sq m = lsb (evasion_hurdle T pos) /\
  N.testbit (evasion_hurdle_bb T pos (lsb (evasion_hurdle T pos))) (to_sq m)
  = true.
Proof.
  unfold evasion_hurdle_moves.
  destruct (type_on pos (lsb (checkers pos))); cbn [PieceType_eqb];
    try (split; [intros [] | intros [? _]; discriminate]).
  destruct (evasion_hurdle T pos =? 0) eqn:E; cbn [negb].
  - apply N.eqb_eq in E. split; [intros [] | tauto].
  - apply N.eqb_neq in E. rewrite In_moves_from. tauto.
Qed.

(** The squares a piece of type [Pt] on [from] goes to: a pawn its
    attack squares, a cannon its two shapes, any other piece its attack
    squares on the occupied board. *)
Definition piece_reach (Us : Color) (Pt : PieceType) (pos : Position)
  (from : Square) : Bitboard :=
  match Pt with
  | PAWN => pawn_attacks_bb T Us from
  | CANNON => N.lor (cannon_captures T Us pos from) (cannon_quiets T pos from)
  | _ => attacks_bb T Pt from (pieces pos)
  end.

(** The squares the screen piece on [s] of a checking cannon goes to
    besides: off the line through checker and screen and not onto an own
    piece; a screening cannon to its empty squares off that line and to
    every opponent piece it attacks. *)
Definition screen_reach (pos : Position) (s : Square) : Bitboard :=
  let us := side_to_move pos in
  let off_line := bb_not (line_bb T (lsb (checkers pos)) s) in
  match type_on pos s with
  | CANNON =>
      N.lor (N.land (cannon_quiets T pos s) off_line)
            (cannon_captures T us pos s)
  | pt =>
      N.land (N.land (piece_reach us pt pos s) off_line)
             (bb_not (pieces_c pos us))
  end.

(** A move of a piece other than the king against the target, and a
    further move of the screen piece. *)
Definition evasion_piece_move (pos : Position) (m : Move) : Prop :=
  let us := side_to_move pos in
  exists Pt, In Pt generated_types /\
    N.testbit (pieces_cp pos us Pt) (from_sq m) = true /\
    N.testbit (piece_reach us Pt pos (from_sq m)) (to_sq m) = true /\
    N.testbit (N.land (between_bb T (king_square pos us) (lsb (checkers pos)))
                      (bb_not (pieces_c pos us))) (to_sq m) = true.

Definition evasion_screen_move (pos : Position) (m : Move) : Prop :=
  let us := side_to_move pos in
  let screens := N.land (between_bb T (king_square pos us)
                                    (lsb (checkers pos)))
                        (pieces_c pos us) in
  type_on pos (lsb (checkers pos)) = CANNON /\
  screens <> 0 /\
  from_sq m = lsb screens /\
  N.testbit (screen_reach pos (lsb screens)) (to_sq m) = true.

(** Modelled from the spec: what a check by one piece needs of the
    tables of bitboard.h and of [pos.checkers()], neither among the
    sources.  [between_bb(ksq, checksq)] holds "the squares strictly
    between the king and the sole checker" and the checker's square, so
    not the king's; for an own piece [s] in it, which is there only as
    the screen of a checking cannon, these squares lie on the line
    through the checker and [s]; and a cannon on [s] attacks no opponent
    piece among them, the checker standing next in line and no other
    piece between. *)
Definition single_check_geometry (pos : Position) : bool :=
  let us := side_to_move pos in
  let ksq := king_square pos us in
  let checksq := lsb (checkers pos) in
  let between := between_bb T ksq checksq in
  negb (N.testbit between ksq)
  && forallb (fun s =>
                (N.ldiff between (line_bb T checksq s) =? 0)
                && (N.land (N.land (attacks_bb T CANNON s (pieces pos))
                                   (pieces_c pos (flip us)))
                           between =? 0))
             (squares (N.land between (pieces_c pos us))).

Lemma destinations_evasions_reach Us Pt pos target from s :
  N.testbit (destinations T Us Pt EVASIONS pos target from) s
  = N.testbit (piece_reach Us Pt pos from) s && N.testbit target s.
Proof.
  unfold destinations, piece_reach, cannon_captures, cannon_quiets.
  destruct Pt; cbn [PieceType_eqb GenType_eqb negb N.lor];
    rewrite N.land_spec; reflexivity.
Qed.

Lemma In_evasion_piece_moves pos m :
  In m (evasion_piece_moves T pos) <-> evasion_piece_move pos m.
Proof.
  rewrite evasion_piece_moves_eq, In_generate_moves.
  unfold evasion_piece_move, evasion_target. cbv zeta.
  split; intros [Pt [HPt [Hf Hd]]]; exists Pt; split; try exact HPt;
    split; try exact Hf.
  - rewrite destinations_evasions_reach in Hd. apply andb_prop in Hd.
    exact Hd.
  - rewrite destinations_evasions_reach. apply andb_true_intro. exact Hd.
Qed.

Lemma evasion_hurdle_bb_reach pos s t :
  N.testbit (evasion_hurdle_bb T pos s) t
  = N.testbit (screen_reach pos s) t.
Proof.
  unfold evasion_hurdle_bb, screen_reach, piece_reach, cannon_quiets,
    cannon_captures. cbv zeta.
  destruct (type_on pos s); cbn [PieceType_eqb]; try reflexivity.
  rewrite !N.lor_spec, !N.land_spec. f_equal.
  rewrite !bb_not_spec.
  generalize (N.testbit (attacks_bb T ROOK s (pieces pos)) t).
  generalize (N.testbit (line_bb T (lsb (checkers pos)) s) t).
  generalize (N.testbit (pieces pos) t). generalize (t <? BB_BITS).
  intros [] [] [] []; reflexivity.
Qed.

Lemma In_evasion_screen_moves pos m :
  In m (evasion_hurdle_moves T pos) <-> evasion_screen_move pos m.
Proof.
  rewrite In_evasion_hurdle_moves. unfold evasion_screen_move, evasion_hurdle.
  cbv zeta. rewrite evasion_hurdle_bb_reach. reflexivity.
Qed.

(** With these tables the screen piece is not the king and none of its
    further squares lies in the target. *)
Lemma screen_moves_apart pos m :
  single_check_geometry pos = true ->
  In m (evasion_hurdle_moves T pos) ->
  from_sq m <> king_square pos (side_to_move pos) /\
  N.testbit (evasion_target T pos) (to_sq m) = false.
Proof.
  intros Hg Hin. apply In_evasion_hurdle_moves in Hin.
  destruct Hin as (Hc & Hh & Hf & Hb).
  unfold single_check_geometry in Hg. cbv zeta in Hg.
  apply andb_prop in Hg. destruct Hg as [Hk Hall].
  apply negb_true_iff in Hk. rewrite forallb_forall in Hall.
  pose proof (lsb_set _ Hh) as Hset.
  remember (lsb (evasion_hurdle T pos)) as h eqn:Eh.
  unfold evasion_hurdle in Hset. cbv zeta in Hset.
  specialize (Hall h). rewrite squares_spec in Hall.
  specialize (Hall Hset). apply andb_prop in Hall.
  destruct Hall as [Hline Hcan]. apply N.eqb_eq in Hline, Hcan.
  rewrite N.land_spec in Hset. apply andb_prop in Hset.
  destruct Hset as [Hbet Hown].
  split.
  - rewrite Hf. intros E. rewrite E in Hbet. congruence.
  - destruct (N.testbit (evasion_target T pos) (to_sq m)) eqn:Et;
      [exfalso | reflexivity].
    unfold evasion_target in Et. cbv zeta in Et.
    rewrite N.land_spec in Et. apply andb_prop in Et. destruct Et as [Eb _].
    assert (N.testbit (line_bb T (lsb (checkers pos)) h) (to_sq m) = true)
      as El.
    { pose proof (f_equal (fun b => N.testbit b (to_sq m)) Hline) as E.
      cbv beta in E. rewrite N.ldiff_spec, N.bits_0, Eb in E.
      destruct (N.testbit (line_bb T (lsb (checkers pos)) h) (to_sq m));
        [reflexivity | discriminate E]. }
    assert (N.testbit (attacks_bb T CANNON h (pieces pos)) (to_sq m) = true ->
            N.testbit (pieces_c pos (flip (side_to_move pos))) (to_sq m)
            = true -> False) as Hno.
    { intros H1 H2.
      pose proof (f_equal (fun b => N.testbit b (to_sq m)) Hcan) as E.
      cbv beta in E. rewrite !N.land_spec, N.bits_0, H1, H2, Eb in E.
      discriminate E. }
    revert Hb. unfold evasion_hurdle_bb. cbv zeta.
    destruct (type_on pos h); cbn [PieceType_eqb];
      rewrite ?N.lor_spec, !N.land_spec, ?bb_not_spec, ?El, ?andb_false_r;
      cbn [negb andb orb];
      rewrite ?andb_false_r; cbn [andb orb]; try discriminate.
    intros Hb. apply andb_prop in Hb. destruct Hb as [H1 H2].
    exact (Hno H1 H2).
Qed.

End Stretches.

(** C5, as stated, fails: with the white rook e1 as the screen of the
    checking cannon e3, [generate<EVASIONS>] also writes the rook's move
    e1-d1, a move of a piece other than the king to a square outside the
    target, which [generate_moves] against the target does not write. *)
Lemma evasion_target_counterexample :
  let pos := Xiangqi.cannon_check_own_screen in
  let m := mk_move Xiangqi.SQ_E1 Xiangqi.SQ_D1 in
  well_formed pos = true /\
  more_than_one (checkers pos) = false /\
  In m (generate Xiangqi.tables (fun _ _ => true) EVASIONS pos) /\
  from_sq m <> king_square pos (side_to_move pos) /\
  N.testbit (evasion_target Xiangqi.tables pos) (to_sq m) = false /\
  ~ In m (generate_moves Xiangqi.tables (side_to_move pos) EVASIONS pos
            (evasion_target Xiangqi.tables pos)).
Proof.
  cbv zeta. split; [vm_compute; reflexivity|].
  split; [vm_compute; reflexivity|].
  split; [vm_compute; tauto|].
  split; [vm_compute; discriminate|].
  split; [vm_compute; reflexivity|].
  vm_compute. intros H.
  repeat (destruct H as [H|H]; [discriminate|]). exact H.
Qed.

Section Evasions.

Variable T : Tables.
Variable legal : Position -> Move -> bool.

(** C5.  With more than one checker [generate<EVASIONS>] returns
    exactly the output of [generate<PSEUDO_LEGAL>].  With one checker
    the moves it writes for the pieces other than the king are exactly:
    the moves of a pawn, bishop, advisor, knight, cannon or rook of the
    side to move to a square it reaches inside target =
    between_bb(ksq, checksq) & ~own; and, when the checker is a cannon
    and an own piece stands in between_bb(ksq, checksq), the moves of
    the lowest such screen piece to the squares it reaches off the line
    through checker and screen that hold no own piece (for a screening
    cannon: its empty squares off that line and every opponent piece it
    attacks).  The moves of the first kind start off the king square on
    a well-formed board; with tables of the geometry of a check, the
    moves of the second kind start off the king square too, end outside
    the target and are none of the first kind. *)
Theorem evasion_stretches (pos : Position) :
  let us := side_to_move pos in
  let ksq := king_square pos us in
  let target :=
    N.land (between_bb T ksq (lsb (checkers pos))) (bb_not (pieces_c pos us)) in
  (more_than_one (checkers pos) = true ->
     generate T legal EVASIONS pos = generate T legal PSEUDO_LEGAL pos) /\
  (more_than_one (checkers pos) = false ->
     (forall m, from_sq m <> ksq ->
        (In m (generate T legal EVASIONS pos) <->
         evasion_piece_move T pos m \/ evasion_screen_move T pos m)) /\
     (well_formed pos = true ->
      forall m, evasion_piece_move T pos m -> from_sq m <> ksq) /\
     (single_check_geometry T pos = true ->
      forall m, evasion_screen_move T pos m ->
        from_sq m <> ksq /\
        N.testbit target (to_sq m) = false /\
        ~ evasion_piece_move T pos m)).
Proof.
  cbv zeta.
  split; intros Hm; cbn [generate]; unfold generate_EVASIONS; rewrite Hm;
    [reflexivity|].
  split; [|split].
  - intros m Hk. rewrite !in_app_iff, In_evasion_piece_moves,
      In_evasion_screen_moves.
    split; [|tauto]. intros [H|[H|H]]; auto.
    exfalso. apply In_moves_from in H. tauto.
  - intros Hwf m [Pt [HPt [Hf _]]] E. rewrite E in Hf.
    rewrite (king_square_is_kings pos Pt Hwf HPt) in Hf. discriminate.
  - intros Hg m Hs. apply In_evasion_screen_moves in Hs.
    destruct (screen_moves_apart T pos m Hg Hs) as [H1 H2].
    split; [exact H1|]. split; [exact H2|].
    intros [Pt [_ [_ [_ Ht]]]]. unfold evasion_target in H2.
    cbv zeta in H2. congruence.
Qed.

(** The king destinations as the specification words them: off the line
    through checker and king, or the checker's own square. *)
Definition evasion_king_bb_spec (pos : Position) : Bitboard :=
  let us := side_to_move pos in
  let ksq := king_square pos us in
  let checksq := lsb (checkers pos) in
  let pt := type_on pos checksq in
  let b := N.land (pseudo_attacks T KING ksq) (bb_not (pieces_c pos us)) in
  if PieceType_eqb pt ROOK || PieceType_eqb pt CANNON
  then N.land b (N.lor (bb_not (line_bb T checksq ksq)) (square_bb checksq))
  else b.

(** C3.  On a well-formed board in check by one rook or cannon,
    whose king square the table does not count among the squares between
    king and checker, the moves of the king that [generate<EVASIONS>]
    writes are those to a square of the king's attack pattern that holds
    no own piece and is either off the line through checker and king or
    holds an opponent piece, be it the checker or any other (a cannon's
    screen, a piece behind the king). *)
Theorem king_evasions (pos : Position) :
  let us := side_to_move pos in
  let ksq := king_square pos us in
  let checksq := lsb (checkers pos) in
  well_formed pos = true ->
  more_than_one (checkers pos) = false ->
  type_on pos checksq = ROOK \/ type_on pos checksq = CANNON ->
  N.testbit (between_bb T ksq checksq) ksq = false ->
  forall m,
    In m (generate T legal EVASIONS pos) /\ from_sq m = ksq <->
    from_sq m = ksq /\
    N.testbit (pseudo_attacks T KING ksq) (to_sq m) = true /\
    (to_sq m <? BB_BITS) = true /\
    N.testbit (pieces_c pos us) (to_sq m) = false /\
    (N.testbit (line_bb T checksq ksq) (to_sq m) = false
     \/ N.testbit (pieces_c pos (flip us)) (to_sq m) = true).
Proof.
  cbv zeta. intros Hwf Hone Hpt Hbtw m.
  assert (N.testbit (evasion_king_bb T pos) (to_sq m) = true <->
          N.testbit (pseudo_attacks T KING
                       (king_square pos (side_to_move pos))) (to_sq m) = true /\
          (to_sq m <? BB_BITS) = true /\
          N.testbit (pieces_c pos (side_to_move pos)) (to_sq m) = false /\
          (N.testbit (line_bb T (lsb (checkers pos))
                        (king_square pos (side_to_move pos))) (to_sq m) = false
           \/ N.testbit (pieces_c pos (flip (side_to_move pos))) (to_sq m)
              = true)) as Hbits.
  { unfold evasion_king_bb.
    assert (PieceType_eqb (type_on pos (lsb (checkers pos))) ROOK
            || PieceType_eqb (type_on pos (lsb (checkers pos))) CANNON = true)
      as -> by (destruct Hpt as [-> | ->]; reflexivity).
    rewrite !N.land_spec, N.lor_spec, !bb_not_spec.
    destruct (N.testbit (pseudo_attacks T KING _) (to_sq m)),
      (to_sq m <? BB_BITS), (N.testbit (pieces_c pos (side_to_move pos)) _),
      (N.testbit (line_bb T _ _) (to_sq m)),
      (N.testbit (pieces_c pos (flip (side_to_move pos))) (to_sq m));
      cbn; intuition congruence. }
  cbn [generate]. unfold generate_EVASIONS. rewrite Hone.
  rewrite !in_app_iff, evasion_piece_moves_eq. split.
  - intros [[Hin|[Hin|Hin]] Hf].
    + exfalso. apply In_generate_moves in Hin.
      destruct Hin as [Pt [HPt [Hc _]]]. rewrite Hf in Hc.
      rewrite (king_square_is_kings pos Pt Hwf HPt) in Hc. discriminate.
    + apply In_moves_from in Hin. destruct Hin as [_ Hb].
      split; [exact Hf|]. apply Hbits. exact Hb.
    + exfalso. apply In_evasion_hurdle_moves in Hin.
      destruct Hin as [_ [Hh [Hfrom _]]].
      apply lsb_set in Hh. rewrite <- Hfrom, Hf in Hh.
      unfold evasion_hurdle in Hh. rewrite N.land_spec, Hbtw in Hh.
      discriminate.
  - intros [Hf Hrest]. split; [|exact Hf]. right. left.
    apply In_moves_from. split; [exact Hf|]. apply Hbits. exact Hrest.
Qed.

End Evasions.

(** C3, as stated, fails: the white king e0 is in check by the cannon e3
    over the black cannon e1; the king's move e0-e1 stays on the line
    through checker and king and does not capture the checker, yet
    [generate<EVASIONS>] writes it (it takes the screen). *)
Lemma king_evasions_counterexample :
  let pos := Xiangqi.cannon_check_enemy_screen in
  let m := mk_move Xiangqi.SQ_E0 Xiangqi.SQ_E1 in
  well_formed pos = true /\
  more_than_one (checkers pos) = false /\
  type_on pos (lsb (checkers pos)) = CANNON /\
  from_sq m = king_square pos (side_to_move pos) /\
  N.testbit (line_bb Xiangqi.tables (lsb (checkers pos))
               (king_square pos (side_to_move pos))) (to_sq m) = true /\
  to_sq m <> lsb (checkers pos) /\
  N.testbit (evasion_king_bb_spec Xiangqi.tables pos) (to_sq m) = false /\
  In m (generate Xiangqi.tables (fun _ _ => true) EVASIONS pos).
Proof.
  cbv zeta.
  repeat (split; [vm_compute; try reflexivity; discriminate|]).
  vm_compute. tauto.
Qed.

(** The rook check of the sample position: the king leaves the file, the
    squares e1 on the rook's file stays out. *)
Lemma king_evasions_witness :
  well_formed Xiangqi.rook_check = true /\
  In (mk_move Xiangqi.SQ_E0 Xiangqi.SQ_D0)
     (generate Xiangqi.tables (fun _ _ => true) EVASIONS Xiangqi.rook_check).
Proof.
  assert (well_formed Xiangqi.rook_check = true) as Hwf
      by (vm_compute; reflexivity).
  split; [exact Hwf|].
  pose proof (king_evasions Xiangqi.tables (fun _ _ => true)
                Xiangqi.rook_check) as H.
  cbv zeta in H.
  assert (more_than_one (checkers Xiangqi.rook_check) = false) as H1
      by (vm_compute; reflexivity).
  assert (type_on Xiangqi.rook_check (lsb (checkers Xiangqi.rook_check))
          = ROOK) as H2 by (vm_compute; reflexivity).
  assert (N.testbit
            (between_bb Xiangqi.tables
               (king_square Xiangqi.rook_check
                  (side_to_move Xiangqi.rook_check))
               (lsb (checkers Xiangqi.rook_check)))
            (king_square Xiangqi.rook_check (side_to_move Xiangqi.rook_check))
          = false) as H3 by (vm_compute; reflexivity).
  specialize (H Hwf H1 (or_introl H2) H3
                (mk_move Xiangqi.SQ_E0 Xiangqi.SQ_D0)).
  refine (proj1 (proj2 H _)).
  split; [vm_compute; reflexivity|].
  split; [vm_compute; reflexivity|].
  split; [vm_compute; reflexivity|].
  split; [vm_compute; reflexivity|].
  left. vm_compute. reflexivity.
Defined.

(** One checker, the cannon e3 over the own rook e1: the rook's move
    e1-d1 is a move of the screen piece, written by
    [generate<EVASIONS>], and d1 is outside the target. *)
Lemma evasion_stretches_witness :
  let pos := Xiangqi.cannon_check_own_screen in
  let m := mk_move Xiangqi.SQ_E1 Xiangqi.SQ_D1 in
  more_than_one (checkers pos) = false /\
  single_check_geometry Xiangqi.tables pos = true /\
  evasion_screen_move Xiangqi.tables pos m /\
  In m (generate Xiangqi.tables (fun _ _ => true) EVASIONS pos) /\
  N.testbit (evasion_target Xiangqi.tables pos) (to_sq m) = false.
Proof.
  cbv zeta.
  assert (more_than_one (checkers Xiangqi.cannon_check_own_screen) = false)
    as H1 by (vm_compute; reflexivity).
  assert (single_check_geometry Xiangqi.tables
            Xiangqi.cannon_check_own_screen = true) as Hg
      by (vm_compute; reflexivity).
  assert (evasion_screen_move Xiangqi.tables Xiangqi.cannon_check_own_screen
            (mk_move Xiangqi.SQ_E1 Xiangqi.SQ_D1)) as Hs.
  { split; [vm_compute; reflexivity|].
    split; [vm_compute; discriminate|].
    split; vm_compute; reflexivity. }
  pose proof (proj2 (evasion_stretches Xiangqi.tables (fun _ _ => true)
                       Xiangqi.cannon_check_own_screen) H1) as H.
  cbv zeta in H. destruct H as (Hiff & _ & Hout).
  split; [exact H1|]. split; [exact Hg|]. split; [exact Hs|]. split.
  - refine (proj2 (Hiff _ _) (or_intror Hs)). vm_compute. discriminate.
  - exact (proj1 (proj2 (Hout Hg _ Hs))).
Defined.

(** ** The legality filter *)

Lemma Permutation_filter_compat (A : Type) (f : A -> bool) (l l' : list A) :
  Permutation l l' -> Permutation (filter f l) (filter f l').
Proof.
  induction 1 as [|x l l' H IH|x y l|l l' l'' H1 IH1 H2 IH2]; cbn.
  - constructor.
  - destruct (f x); [constructor|]; exact IH.
  - destruct (f x), (f y); try apply Permutation_refl. apply perm_swap.
  - eapply Permutation_trans; eauto.
Qed.

Lemma overwrite_with_last_perm m rest :
  Permutation (overwrite_with_last m rest) rest.
Proof.
  destruct rest as [|x rest]; [constructor|].
  unfold overwrite_with_last.
  assert (x :: rest <> []) as Hne by discriminate.
  rewrite (app_removelast_last m Hne) at 3.
  apply Permutation_cons_append.
Qed.

Lemma NoDup_flat_map_apart (A B : Type) (f : A -> list B) (l : list A) :
  NoDup l -> (forall x, NoDup (f x)) ->
  (forall x y b, In x l -> In y l -> x <> y -> In b (f x) -> In b (f y) ->
                 False) ->
  NoDup (flat_map f l).
Proof.
  intros Hl Hf Hd. induction Hl as [|a l Ha Hl IH]; cbn; [constructor|].
  apply NoDup_app_intro.
  - apply Hf.
  - apply IH. intros x y b Hx Hy. apply Hd; cbn; auto.
  - intros b Hb Hb'. apply in_flat_map in Hb'. destruct Hb' as [y [Hy Hb']].
    apply (Hd a y b); cbn; auto. intros ->. auto.
Qed.

Section Legal.

Variable T : Tables.
Variable legal : Position -> Move -> bool.

(** The loop keeps the legal moves of the stretch, each as often as the
    stretch has it. *)
Lemma legal_loop_filter pos stretch :
  Permutation (legal_loop legal pos stretch) (filter (legal pos) stretch).
Proof.
  funelim (legal_loop legal pos stretch); cbn [filter].
  - constructor.
  - rewrite Heq. constructor. assumption.
  - rewrite Heq. eapply Permutation_trans; [eassumption|].
    apply Permutation_filter_compat, overwrite_with_last_perm.
Qed.

Lemma NoDup_generate_moves Us Ty pos target :
  well_formed pos = true ->
  NoDup (generate_moves T Us Ty pos target).
Proof.
  intros Hwf. rewrite generate_moves_flat. apply NoDup_flat_map_apart.
  - unfold generated_types. repeat constructor; cbn; intuition discriminate.
  - intros Pt. apply NoDup_generate_moves_pt.
  - intros P Q m HP HQ Hne H1 H2.
    apply In_generate_moves_pt in H1, H2.
    destruct H1 as [H1 _], H2 as [H2 _].
    apply pieces_cp_bits in H1, H2.
    apply (types_apart pos P Q (from_sq m) Hwf); try tauto;
      apply generated_type_not_king; assumption.
Qed.

Lemma NoDup_generate_PSEUDO_LEGAL pos :
  well_formed pos = true -> NoDup (generate T legal PSEUDO_LEGAL pos).
Proof.
  intros Hwf. cbn [generate]. rewrite generate_plain_side.
  unfold generate_all. cbn [GenType_eqb negb].
  apply NoDup_app_intro.
  - apply NoDup_generate_moves. exact Hwf.
  - apply NoDup_moves_from.
  - intros m H1 H2. apply In_generate_moves in H1.
    destruct H1 as [Pt [HPt [Hc _]]].
    apply In_moves_from in H2. destruct H2 as [Hf _]. rewrite Hf in Hc.
    rewrite (king_square_is_kings pos Pt Hwf HPt) in Hc. discriminate.
Qed.

Lemma NoDup_generate_EVASIONS pos :
  well_formed pos = true ->
  (more_than_one (checkers pos) = false ->
   single_check_geometry T pos = true) ->
  NoDup (generate T legal EVASIONS pos).
Proof.
  intros Hwf Hs. cbn [generate]. unfold generate_EVASIONS.
  destruct (more_than_one (checkers pos));
    [apply (NoDup_generate_PSEUDO_LEGAL pos Hwf)|].
  specialize (Hs eq_refl).
  rewrite evasion_piece_moves_eq.
  apply NoDup_app_intro; [apply NoDup_generate_moves; exact Hwf| |].
  - apply NoDup_app_intro; [apply NoDup_moves_from| |].
    + unfold evasion_hurdle_moves.
      destruct (PieceType_eqb _ CANNON); [|constructor].
      destruct (negb _); [apply NoDup_moves_from | constructor].
    + intros m H1 H2.
      destruct (screen_moves_apart T pos m Hs H2) as [Hk _].
      apply In_moves_from in H1. tauto.
  - intros m H1 H2. apply In_generate_moves in H1.
    destruct H1 as [Pt [HPt [Hc Hd]]].
    apply in_app_or in H2. destruct H2 as [H2|H2].
    + apply In_moves_from in H2. destruct H2 as [Hf _]. rewrite Hf in Hc.
      rewrite (king_square_is_kings pos Pt Hwf HPt) in Hc. discriminate.
    + destruct (screen_moves_apart T pos m Hs H2) as [_ Ht].
      apply destinations_evasions in Hd. congruence.
Qed.

(** C2. On a well-formed board [generate<LEGAL>] returns, in some order,
    the moves of [generate<EVASIONS>] (in check) or of
    [generate<PSEUDO_LEGAL>] (otherwise) that [pos.legal] accepts: it is a
    permutation of the filtered candidate list, so every legal candidate
    is there, once, no other move is, and no move occurs twice.  For a
    check by one piece the tables of bitboard.h must have the geometry
    of a check; nothing is asked of what the generators write. *)
Theorem generate_LEGAL_filters (pos : Position) :
  let candidates :=
    if negb (checkers pos =? 0) then generate T legal EVASIONS pos
    else generate T legal PSEUDO_LEGAL pos in
  well_formed pos = true ->
  (negb (checkers pos =? 0) = true -> more_than_one (checkers pos) = false ->
   single_check_geometry T pos = true) ->
  Permutation (generate T legal LEGAL pos) (filter (legal pos) candidates) /\
  NoDup (generate T legal LEGAL pos) /\
  (forall m, In m (generate T legal LEGAL pos) <->
             In m candidates /\ legal pos m = true) /\
  (forall m, In m (generate T legal LEGAL pos) -> legal pos m = true).
Proof.
  cbv zeta. intros Hwf Hs.
  assert (Permutation (generate T legal LEGAL pos)
            (filter (legal pos)
               (if negb (checkers pos =? 0) then generate T legal EVASIONS pos
                else generate T legal PSEUDO_LEGAL pos))) as Hperm.
  { cbn [generate]. unfold generate_LEGAL. apply legal_loop_filter. }
  assert (forall m, In m (generate T legal LEGAL pos) <->
             In m (if negb (checkers pos =? 0)
                   then generate T legal EVASIONS pos
                   else generate T legal PSEUDO_LEGAL pos)
             /\ legal pos m = true) as Hin.
  { intros m. rewrite <- filter_In. split; apply Permutation_in;
      [exact Hperm | symmetry; exact Hperm]. }
  split; [exact Hperm|]. split; [|split; [exact Hin|]].
  - eapply Permutation_NoDup; [symmetry; exact Hperm|].
    apply NoDup_filter. destruct (negb (checkers pos =? 0)).
    + apply NoDup_generate_EVASIONS; auto.
    + apply NoDup_generate_PSEUDO_LEGAL; assumption.
  - intros m Hm. apply Hin in Hm. tauto.
Qed.

End Legal.

(** A predicate for the examples: the king may not stay on the file of
    the checking piece of [rook_check]. *)
Definition off_file_e (pos : Position) (m : Move) : bool :=
  negb (N.eqb (from_sq m) Xiangqi.SQ_E0)
  || negb (Xiangqi.file_of (to_sq m) =? 4)%Z.

(** A predicate for the cannon check over the own rook e1: the rook may
    not stay on the file between king and cannon. *)
Definition screen_leaves (pos : Position) (m : Move) : bool :=
  negb (N.eqb (from_sq m) Xiangqi.SQ_E1 && N.eqb (to_sq m) Xiangqi.SQ_E2).

(** In check by the cannon e3 over the own rook e1: the rook's move
    e1-e2 is a candidate and is filtered out, its move e1-d1, written
    for the screen piece, stays, and no move is there twice. *)
Lemma generate_LEGAL_filters_witness :
  let pos := Xiangqi.cannon_check_own_screen in
  well_formed pos = true /\
  single_check_geometry Xiangqi.tables pos = true /\
  In (mk_move Xiangqi.SQ_E1 Xiangqi.SQ_E2)
     (generate Xiangqi.tables screen_leaves EVASIONS pos) /\
  ~ In (mk_move Xiangqi.SQ_E1 Xiangqi.SQ_E2)
       (generate Xiangqi.tables screen_leaves LEGAL pos) /\
  In (mk_move Xiangqi.SQ_E1 Xiangqi.SQ_D1)
     (generate Xiangqi.tables screen_leaves LEGAL pos) /\
  NoDup (generate Xiangqi.tables screen_leaves LEGAL pos).
Proof.
  cbv zeta.
  assert (well_formed Xiangqi.cannon_check_own_screen = true) as Hwf
      by (vm_compute; reflexivity).
  assert (single_check_geometry Xiangqi.tables
            Xiangqi.cannon_check_own_screen = true) as Hg
      by (vm_compute; reflexivity).
  destruct (generate_LEGAL_filters Xiangqi.tables screen_leaves
              Xiangqi.cannon_check_own_screen Hwf (fun _ _ => Hg))
    as (_ & Hnd & Hin & _).
  split; [exact Hwf|]. split; [exact Hg|].
  split; [vm_compute; tauto|]. split; [|split; [|exact Hnd]].
  - intros H. pose proof (proj2 (proj1 (Hin _) H)) as Hl.
    vm_compute in Hl. discriminate Hl.
  - refine (proj2 (Hin _) (conj _ _)); [vm_compute; tauto | reflexivity].
Defined.

(** The order of the survivors is not that of the candidates: an illegal
    first candidate is overwritten by the last one. *)
Example legal_loop_reorders :
  let a := mk_move 4 13 in
  let b := mk_move 4 3 in
  let c := mk_move 4 5 in
  legal_loop off_file_e Xiangqi.rook_check [a; b; c] = [c; b].
Proof. vm_compute. reflexivity. Qed.

(** ** The moves of a cannon *)

Section Cannons.

Variable T : Tables.
Variable legal : Position -> Move -> bool.

Lemma cannon_off_king pos from :
  well_formed pos = true ->
  N.testbit (pieces_cp pos (side_to_move pos) CANNON) from = true ->
  from <> king_square pos (side_to_move pos).
Proof.
  intros Hwf Hc E. rewrite E in Hc.
  rewrite (king_square_is_kings pos CANNON Hwf) in Hc; [discriminate|].
  cbn. tauto.
Qed.

(** Of the pieces [generate_moves] runs through, only the cannons move
    from a cannon's square. *)
Lemma In_generate_moves_cannon Ty pos target from to :
  well_formed pos = true ->
  N.testbit (pieces_cp pos (side_to_move pos) CANNON) from = true ->
  In (mk_move from to) (generate_moves T (side_to_move pos) Ty pos target) <->
  N.testbit (destinations T (side_to_move pos) CANNON Ty pos target from) to
  = true.
Proof.
  intros Hwf Hc. rewrite In_generate_moves. cbn [from_sq to_sq]. split.
  - intros [Pt [HPt [Hf Hd]]].
    assert (Pt = CANNON) as ->; [|exact Hd].
    destruct (generated_type_not_king Pt HPt) as [_ Hn].
    apply pieces_cp_bits in Hf. apply pieces_cp_bits in Hc.
    destruct Hf as [_ Hf]. destruct Hc as [_ Hc].
    destruct Pt; try reflexivity; try congruence; exfalso;
      refine (types_apart pos CANNON _ from Hwf _ _ _ Hc Hf); discriminate.
  - intros Hd. exists CANNON. split; [cbn; tauto|]. auto.
Qed.

Lemma In_generate_plain_cannon Ty pos from to :
  well_formed pos = true ->
  N.testbit (pieces_cp pos (side_to_move pos) CANNON) from = true ->
  In (mk_move from to) (generate_plain T Ty pos) <->
  N.testbit (destinations T (side_to_move pos) CANNON Ty pos
               (all_target (side_to_move pos) Ty pos) from) to = true.
Proof.
  intros Hwf Hc. rewrite generate_plain_side. unfold generate_all.
  rewrite in_app_iff, In_generate_moves_cannon by assumption.
  split; [|tauto]. intros [H|H]; [exact H|]. exfalso.
  destruct (negb (GenType_eqb Ty EVASIONS)); [|exact H].
  apply In_moves_from in H. cbn [from_sq] in H.
  apply (cannon_off_king pos from Hwf Hc). tauto.
Qed.

(** C4. On a well-formed board, for a cannon of the side to move on
    [from]: the capture shape (cannon attacks on opponent pieces) and
    the quiet shape (rook attacks on empty squares) share no square;
    QUIETS writes for it exactly the moves to the quiet shape, CAPTURES
    exactly those to the capture shape, PSEUDO_LEGAL exactly those to
    either.  EVASIONS with more than one checker writes both shapes in
    full; with one checker it writes both shapes cut down to the target,
    and besides, when the cannon is the screen of a checking cannon (the
    lowest own piece in between_bb(ksq, checksq)), every square of the
    capture shape and the squares of the quiet shape off the line
    through checker and screen, target or not. *)
Theorem cannon_move_shapes (pos : Position) (from : Square) :
  let us := side_to_move pos in
  let checksq := lsb (checkers pos) in
  let between := between_bb T (king_square pos us) checksq in
  let target := N.land between (bb_not (pieces_c pos us)) in
  let screens := N.land between (pieces_c pos us) in
  let captures := cannon_captures T us pos from in
  let quiets := cannon_quiets T pos from in
  well_formed pos = true ->
  N.testbit (pieces_cp pos us CANNON) from = true ->
  type_on pos from = CANNON ->
  N.land captures quiets = 0 /\
  (forall to, In (mk_move from to) (generate T legal QUIETS pos) <->
              N.testbit quiets to = true) /\
  (forall to, In (mk_move from to) (generate T legal CAPTURES pos) <->
              N.testbit captures to = true) /\
  (forall to, In (mk_move from to) (generate T legal PSEUDO_LEGAL pos) <->
              N.testbit captures to = true \/ N.testbit quiets to = true) /\
  (more_than_one (checkers pos) = true ->
   forall to, In (mk_move from to) (generate T legal EVASIONS pos) <->
              N.testbit captures to = true \/ N.testbit quiets to = true) /\
  (more_than_one (checkers pos) = false ->
   forall to, In (mk_move from to) (generate T legal EVASIONS pos) <->
     ((N.testbit captures to = true \/ N.testbit quiets to = true) /\
      N.testbit target to = true)
     \/ (type_on pos checksq = CANNON /\ screens <> 0 /\ from = lsb screens /\
         (N.testbit captures to = true
          \/ (N.testbit quiets to = true /\
              N.testbit (line_bb T checksq from) to = false)))).
Proof.
  cbv zeta. intros Hwf Hc Hty.
  assert (forall to,
            In (mk_move from to) (generate T legal PSEUDO_LEGAL pos) <->
            N.testbit (cannon_captures T (side_to_move pos) pos from) to = true
            \/ N.testbit (cannon_quiets T pos from) to = true) as Hpseudo.
  { intros to. cbn [generate].
    rewrite In_generate_plain_cannon by assumption.
    unfold destinations. cbn [PieceType_eqb GenType_eqb negb N.lor].
    fold (cannon_captures T (side_to_move pos) pos from).
    fold (cannon_quiets T pos from).
    rewrite N.lor_spec. apply orb_true_iff. }
  split; [|split; [|split; [|split; [exact Hpseudo|split]]]].
  - apply N.bits_inj. intros s. rewrite N.bits_0.
    unfold cannon_captures, cannon_quiets.
    rewrite !N.land_spec, bb_not_spec,
      (occupancy_bit pos (flip (side_to_move pos)) s Hwf).
    destruct (N.testbit (pieces_c pos (flip (side_to_move pos))) s);
      rewrite ?andb_false_r; cbn; rewrite ?andb_false_r; reflexivity.
  - intros to. cbn [generate].
    rewrite In_generate_plain_cannon by assumption. reflexivity.
  - intros to. cbn [generate].
    rewrite In_generate_plain_cannon by assumption. reflexivity.
  - intros Hm to. cbn [generate]. unfold generate_EVASIONS. rewrite Hm.
    apply Hpseudo.
  - intros Hm to. cbn [generate]. unfold generate_EVASIONS. rewrite Hm.
    rewrite !in_app_iff, evasion_piece_moves_eq,
      In_generate_moves_cannon, In_evasion_screen_moves by assumption.
    rewrite destinations_evasions_reach. cbn [piece_reach].
    rewrite N.lor_spec, andb_true_iff, orb_true_iff.
    unfold evasion_target, evasion_screen_move. cbv zeta. cbn [from_sq to_sq].
    assert (forall s,
              from = s ->
              (N.testbit (screen_reach T pos s) to = true <->
               N.testbit (cannon_captures T (side_to_move pos) pos from) to
               = true
               \/ (N.testbit (cannon_quiets T pos from) to = true /\
                   N.testbit (line_bb T (lsb (checkers pos)) from) to = false)))
      as Hreach.
    { intros s <-. unfold screen_reach. cbv zeta. rewrite Hty.
      rewrite N.lor_spec, N.land_spec, bb_not_spec, orb_true_iff,
        andb_true_iff.
      assert (N.testbit (cannon_quiets T pos from) to = true ->
              (to <? BB_BITS) = true) as Hb.
      { unfold cannon_quiets. rewrite N.land_spec, bb_not_spec.
        intros H. apply andb_prop in H. destruct H as [_ H].
        apply andb_prop in H. tauto. }
      destruct (N.testbit (line_bb T (lsb (checkers pos)) from) to);
        destruct (to <? BB_BITS); cbn [negb andb]; intuition congruence. }
    split.
    + intros [H|[H|H]].
      * left. exact H.
      * exfalso. apply In_moves_from in H. cbn [from_sq] in H.
        apply (cannon_off_king pos from Hwf Hc). tauto.
      * right. destruct H as (H1 & H2 & H3 & H4).
        split; [exact H1|]. split; [exact H2|]. split; [exact H3|].
        apply (Hreach _ H3). exact H4.
    + intros [H|(H1 & H2 & H3 & H4)].
      * left. exact H.
      * right. right. split; [exact H1|]. split; [exact H2|].
        split; [exact H3|]. apply (Hreach _ H3). exact H4.
Qed.

End Cannons.

(** The cannon a3 of the open position: CAPTURES writes its move to e3,
    where it takes over the rook c3. *)
Lemma cannon_move_shapes_witness :
  let pos := Xiangqi.open_position in
  well_formed pos = true /\
  N.testbit (pieces_cp pos (side_to_move pos) CANNON) Xiangqi.SQ_A3 = true /\
  type_on pos Xiangqi.SQ_A3 = CANNON /\
  In (mk_move Xiangqi.SQ_A3 Xiangqi.SQ_E3)
     (generate Xiangqi.tables (fun _ _ => true) CAPTURES pos) /\
  ~ In (mk_move Xiangqi.SQ_A3 Xiangqi.SQ_E3)
       (generate Xiangqi.tables (fun _ _ => true) QUIETS pos).
Proof.
  cbv zeta.
  assert (well_formed Xiangqi.open_position = true) as Hwf
      by (vm_compute; reflexivity).
  assert (N.testbit (pieces_cp Xiangqi.open_position
                       (side_to_move Xiangqi.open_position) CANNON)
            Xiangqi.SQ_A3 = true) as Hc by (vm_compute; reflexivity).
  assert (type_on Xiangqi.open_position Xiangqi.SQ_A3 = CANNON) as Hty
      by (vm_compute; reflexivity).
  pose proof (cannon_move_shapes Xiangqi.tables (fun _ _ => true)
                Xiangqi.open_position Xiangqi.SQ_A3) as H.
  cbv zeta in H. destruct (H Hwf Hc Hty) as (_ & Hq & Hcap & _).
  split; [exact Hwf|]. split; [exact Hc|]. split; [exact Hty|]. split.
  - refine (proj2 (Hcap _) _). vm_compute. reflexivity.
  - intros Hin. pose proof (proj1 (Hq _) Hin) as Hb.
    vm_compute in Hb. discriminate Hb.
Defined.

(** C4, as stated, fails: the white cannon e1 is the screen of the
    checking cannon e3; there is one checker; [generate<EVASIONS>]
    writes the cannon's move e1-d1, which is of the quiet shape, and d1
    is not in the evasion target: the shapes are not "intersected with
    the evasion target" for this cannon. *)
Lemma cannon_move_shapes_counterexample :
  let pos := Xiangqi.cannon_check_cannon_screen in
  let us := side_to_move pos in
  let from := Xiangqi.SQ_E1 in
  let to := Xiangqi.SQ_D1 in
  let target :=
    N.land (between_bb Xiangqi.tables (king_square pos us)
              (lsb (checkers pos)))
           (bb_not (pieces_c pos us)) in
  well_formed pos = true /\
  more_than_one (checkers pos) = false /\
  N.testbit (pieces_cp pos us CANNON) from = true /\
  type_on pos from = CANNON /\
  In (mk_move from to)
     (generate Xiangqi.tables (fun _ _ => true) EVASIONS pos) /\
  N.testbit (cannon_quiets Xiangqi.tables pos from) to = true /\
  N.testbit target to = false /\
  squares target = [Xiangqi.SQ_E2; Xiangqi.SQ_E3].
Proof.
  cbv zeta.
  repeat (split; [vm_compute; try reflexivity; tauto|]).
  vm_compute. reflexivity.
Qed.

End MoveGen.

(* ===================================================================== *)
(** * Accumulator maintenance: nnue_feature_transformer.h                  *)
(* ===================================================================== *)

Module NNUE.

Import Board.
Import Parameters.
Local Open Scope Z_scope.

(** [IndexType]: a feature index. *)
Definition IndexType := nat.

(** [make_piece(c, pt)] *)
Definition Piece := (Color * PieceType)%type.
Definition make_piece (c : Color) (pt : PieceType) : Piece := (c, pt).

(** Modelled from the spec: nnue_accumulator.h is not among the sources.
    An Accumulator is "two fixed-length numeric vectors (one per
    perspective/color) of transformed feature activations, two
    fixed-length arrays of per-bucket scalar contributions, and two
    booleans marking whether each perspective's vector is already
    computed". *)
Record Accumulator := {
  accumulation : Color -> list Z;
  psqtAccumulation : Color -> list Z;
  computed : Color -> bool
}.

(** Modelled from the spec: the "dirty piece" delta of position.h, "which
    piece left which square, which piece arrived, and any captured
    piece": per changed piece its square before and after the move,
    [None] for SQ_NONE. *)
Record DirtyEntry := {
  dp_piece : Piece;
  dp_from : option Square;
  dp_to : option Square
}.

Definition DirtyPiece := list DirtyEntry.

(** A history record.  The records of a position form the list of the
    chain from its root to [pos.state()]: [previous] of the record at
    index i+1 is the record at index i, [next] the other way round; the
    root has no [previous]. *)
Record StateInfo := {
  dirtyPiece : DirtyPiece;
  accumulator : Accumulator
}.

(** Modelled from the spec: the feature set of nnue_architecture.h is not
    among the sources.  Its tables and cost functions are parameters. *)
Record FeatureSet := {
  KingBuckets : Square -> Square -> nat * bool;
  make_attack_bucket : Position -> Color -> nat;
  make_index : Color -> Square -> Piece -> nat -> bool -> IndexType;
  requires_refresh : StateInfo -> Color -> bool;
  update_cost : StateInfo -> Z;
  refresh_cost : Position -> Z
}.

Definition empty_accumulator : Accumulator :=
  {| accumulation := fun _ => [];
     psqtAccumulation := fun _ => [];
     computed := fun _ => false |}.

Definition empty_state : StateInfo :=
  {| dirtyPiece := []; accumulator := empty_accumulator |}.

(** The record at index [i] of the chain. *)
Definition record (chain : list StateInfo) (i : nat) : StateInfo :=
  nth i chain empty_state.

(** The index of [pos.state()]. *)
Definition current (chain : list StateInfo) : nat := (length chain - 1)%nat.

Definition is_computed (chain : list StateInfo) (i : nat) (P : Color) : bool :=
  computed (accumulator (record chain i)) P.

Section Search.

Variable FS : FeatureSet.
Variable Perspective : Color.

(** The loop of [try_find_computed_accumulator], entered with [st] the
    record at index [i] and the running [gain]; the index of the record
    it ends on. *)
Fixpoint walk_back (chain : list StateInfo) (i : nat) (gain : Z) : nat :=
  match i with
  | O => O
  | S j =>
      let st := record chain i in
      if negb (computed (accumulator st) Perspective) then
        if requires_refresh FS st Perspective
           || (gain - (update_cost FS st + 1) <? 0)
        then i
        else walk_back chain j (gain - (update_cost FS st + 1))
      else i
  end.

(** [try_find_computed_accumulator<Perspective>(pos)] *)
Definition try_find_computed_accumulator (pos : Position)
  (chain : list StateInfo) : nat :=
  walk_back chain (current chain) (refresh_cost FS pos).

(** The branch [update_accumulator<Perspective>] takes. *)
Inductive Path := AlreadyComputed | Incremental (oldest : nat) | Refresh.

Definition update_path (pos : Position) (chain : list StateInfo) : Path :=
  if is_computed chain (current chain) Perspective then AlreadyComputed
  else
    let oldest := try_find_computed_accumulator pos chain in
    if is_computed chain oldest Perspective
       && negb (Nat.eqb oldest (current chain))
    then Incremental oldest
    else Refresh.

(** The walk as the specification words it: the budget "is decremented
    by each visited record's update cost". *)
Fixpoint walk_back_spec (chain : list StateInfo) (i : nat) (gain : Z) : nat :=
  match i with
  | O => O
  | S j =>
      let st := record chain i in
      if negb (computed (accumulator st) Perspective) then
        if requires_refresh FS st Perspective
           || (gain - update_cost FS st <? 0)
        then i
        else walk_back_spec chain j (gain - update_cost FS st)
      else i
  end.

(** What the records at indices [i .. last] are charged together: for
    each its update cost plus one. *)
Fixpoint charged (chain : list StateInfo) (i last : nat) {struct last} : Z :=
  if (last <? i)%nat then 0
  else (update_cost FS (record chain last) + 1)
       + match last with
         | O => 0
         | S l => charged chain i l
         end.

Lemma charged_top chain i last :
  (i <= S last)%nat ->
  charged chain i (S last)
  = update_cost FS (record chain (S last)) + 1 + charged chain i last.
Proof.
  intros H. cbn [charged].
  assert ((S last <? i)%nat = false) as -> by (apply Nat.ltb_ge; lia).
  reflexivity.
Qed.

Lemma charged_none chain i last : (last < i)%nat -> charged chain i last = 0.
Proof.
  intros H. destruct last; cbn [charged];
    assert ((_ <? i)%nat = true) as -> by (apply Nat.ltb_lt; lia);
    reflexivity.
Qed.

(** Where the walk entered at index [i] with budget [gain] ends: every
    record above the end was uncomputed, did not require a refresh and
    left the budget non-negative; the end record is the root, or is
    computed, or requires a refresh, or overdraws the budget. *)
Lemma walk_back_spec_of_code chain i gain :
  let k := walk_back chain i gain in
  (k <= i)%nat /\
  (forall j, (k < j <= i)%nat ->
     is_computed chain j Perspective = false /\
     requires_refresh FS (record chain j) Perspective = false /\
     0 <= gain - charged chain j i) /\
  (k = O \/
   is_computed chain k Perspective = true \/
   (is_computed chain k Perspective = false /\
    (requires_refresh FS (record chain k) Perspective = true \/
     gain - charged chain k i < 0))).
Proof.
  revert gain. induction i as [|i IH]; intros gain; cbn [walk_back].
  - cbv zeta. split; [lia|]. split; [intros j Hj; lia | left; reflexivity].
  - cbv zeta. unfold is_computed.
    destruct (computed (accumulator (record chain (S i))) Perspective) eqn:Ec;
      cbn [negb].
    + split; [lia|]. split; [intros j Hj; lia|]. right. left. exact Ec.
    + destruct (requires_refresh FS (record chain (S i)) Perspective) eqn:Er;
        cbn [orb].
      * split; [lia|]. split; [intros j Hj; lia|]. right. right. auto.
      * destruct (gain - (update_cost FS (record chain (S i)) + 1) <? 0) eqn:Eg.
        -- split; [lia|]. split; [intros j Hj; lia|]. right. right.
           split; [exact Ec|]. right.
           rewrite charged_top, charged_none by lia.
           apply Z.ltb_lt in Eg. lia.
        -- apply Z.ltb_ge in Eg.
           destruct (IH (gain - (update_cost FS (record chain (S i)) + 1)))
             as (Hle & Habove & Hend).
           split; [lia|]. split.
           ++ intros j Hj. destruct (Nat.eq_dec j (S i)) as [->|Hne].
              ** split; [exact Ec|]. split; [exact Er|].
                 rewrite charged_top, charged_none by lia. lia.
              ** destruct (Habove j ltac:(lia)) as (H1 & H2 & H3).
                 split; [exact H1|]. split; [exact H2|].
                 rewrite charged_top by lia. lia.
           ++ destruct Hend as [H0|[Hc|[Hc [Hr|Hg]]]]; auto.
              right. right. split; [exact Hc|]. right.
              destruct (Nat.eq_dec (walk_back chain i
                          (gain - (update_cost FS (record chain (S i)) + 1)))
                          (S i)) as [E|E]; [lia|].
              rewrite charged_top by lia. lia.
Qed.

(** C6.  [try_find_computed_accumulator] walks the chain back
    from the current record with a budget that starts at
    [refresh_cost(pos)] and is decremented, for each record it leaves,
    by that record's update cost plus one.  Every record it leaves was
    uncomputed, did not require a refresh and kept the budget
    non-negative.  It ends on the first record that is computed, or
    requires a refresh, or would make the budget negative, or on the
    root of the chain.  [update_accumulator] then takes the incremental
    path from that record when it is computed and falls back to refresh
    exactly when it is not: the walk was cut short by a mandatory
    refresh or the budget, or it reached an uncomputed root. *)
Theorem try_find_computed_accumulator_spec (pos : Position)
  (chain : list StateInfo) :
  let n := current chain in
  let k := try_find_computed_accumulator pos chain in
  let gain := refresh_cost FS pos in
  (k <= n)%nat /\
  (forall j, (k < j <= n)%nat ->
     is_computed chain j Perspective = false /\
     requires_refresh FS (record chain j) Perspective = false /\
     0 <= gain - charged chain j n) /\
  (k = O \/
   is_computed chain k Perspective = true \/
   (is_computed chain k Perspective = false /\
    (requires_refresh FS (record chain k) Perspective = true \/
     gain - charged chain k n < 0))) /\
  (is_computed chain n Perspective = false ->
   (update_path pos chain = Incremental k <->
      is_computed chain k Perspective = true) /\
   (update_path pos chain = Refresh <->
      is_computed chain k Perspective = false)).
Proof.
  cbv zeta. unfold try_find_computed_accumulator.
  destruct (walk_back_spec_of_code chain (current chain) (refresh_cost FS pos))
    as (Hle & Habove & Hend).
  split; [exact Hle|]. split; [exact Habove|]. split; [exact Hend|].
  intros Hn. unfold update_path, try_find_computed_accumulator. rewrite Hn.
  set (k := walk_back chain (current chain) (refresh_cost FS pos)) in *.
  destruct (is_computed chain k Perspective) eqn:Ek; cbn [andb].
  - assert (k <> current chain) as Hne by (intros E; congruence).
    apply Nat.eqb_neq in Hne. rewrite Hne. cbn [negb].
    split; split; intros H; try reflexivity; discriminate.
  - split; split; intros H; try reflexivity; discriminate.
Qed.

End Search.

(** Modelled from the spec: a Refresh Cache Entry is "one Accumulator
    plus a snapshot of the by-color and by-type bitboards it was computed
    from, indexed by (king-bucket, secondary-attack-bucket,
    perspective)"; the cache is an array of them, indexed by slot and
    perspective. *)
Record CacheEntry := {
  entry_accumulation : list Z;
  entry_psqtAccumulation : list Z;
  byColorBB : Color -> Bitboard;
  byTypeBB : PieceType -> Bitboard
}.

Definition Cache := nat -> Color -> CacheEntry.

Definition Color_eqb (a b : Color) : bool :=
  match a, b with
  | WHITE, WHITE | BLACK, BLACK => true
  | _, _ => false
  end.

(** [array[Perspective] = v] on a two-element array indexed by colour. *)
Definition set_color {A : Type} (f : Color -> A) (P : Color) (v : A)
  : Color -> A :=
  fun c => if Color_eqb c P then v else f c.

(** The cache with the entry of slot [index] and [Perspective]
    replaced. *)
Definition set_entry (cache : Cache) (index : nat) (P : Color)
  (e : CacheEntry) : Cache :=
  fun i c => if Nat.eqb i index && Color_eqb c P then e else cache i c.

(** The lanes 0 .. n-1 of an array written by a loop
    [for (i = 0; i < n; ++i) out[i] = f(i)]; the vector loops write the
    same lanes, several per iteration. *)
Definition lanes (n : nat) (f : nat -> Z) : list Z := map f (seq 0 n).

(** [vec_add_16], [vec_sub_16], [vec_add_psqt_32], [vec_sub_psqt_32] on
    one lane, which are also [+=] and [-=] on an [int16_t] or [int32_t]
    array element. *)
Definition add16 (a b : Z) : Z := wrap16 (a + b).
Definition sub16 (a b : Z) : Z := wrap16 (a - b).
Definition add32 (a b : Z) : Z := wrap32 (a + b).
Definition sub32 (a b : Z) : Z := wrap32 (a - b).

(** The pairs (c, pt) in the order of the two nested loops
    [for (Color c : {WHITE, BLACK}) for (pt = ROOK; pt <= KING; ++pt)]. *)
Definition color_types : list Piece :=
  flat_map (fun c => map (make_piece c) piece_types) [WHITE; BLACK].

Section Transformer.

(** [HalfDimensions], [PSQTBuckets]; the weights; the feature set; the
    table [AccumulatorCaches::KingCacheMaps] of the absent
    nnue_accumulator.h; and whether VECTOR is defined. *)
Variables HalfDimensions PSQTBuckets : nat.
Variable ft : FeatureTransformer.
Variable FS : FeatureSet.
Variable KingCacheMaps : Square -> nat.
Variable VECTOR : bool.

(** [weights[offset + i]], [psqtWeights[offset + i]] *)
Definition weight (offset i : nat) : Z := nth (offset + i) (weights ft) 0.
Definition psqt_weight (offset i : nat) : Z :=
  nth (offset + i) (psqtWeights ft) 0.

(** [auto [king_bucket, mirror] = KingBuckets[ksq][oksq]; ... ;
    bucket = king_bucket * 6 + attack_bucket] *)
Definition feature_bucket (pos : Position) (Perspective : Color)
  : nat * bool :=
  let ksq := king_square pos Perspective in
  let oksq := king_square pos (flip Perspective) in
  let '(king_bucket, mirror) := KingBuckets FS ksq oksq in
  let attack_bucket := make_attack_bucket FS pos Perspective in
  ((king_bucket * 6 + attack_bucket)%nat, mirror).

(** Modelled from the spec: [FeatureSet::append_changed_indices] is not
    among the sources.  "For each piece that left the board, subtract its
    feature-weight column ...; for each piece that appeared, add the
    corresponding columns": the squares left give [removed], the squares
    reached give [added], in the order of the dirty piece. *)
Definition append_changed_indices (Perspective : Color) (bucket : nat)
  (mirror : bool) (dp : DirtyPiece) : list IndexType * list IndexType :=
  (flat_map (fun e => match dp_from e with
                      | Some s => [make_index FS Perspective s (dp_piece e)
                                     bucket mirror]
                      | None => []
                      end) dp,
   flat_map (fun e => match dp_to e with
                      | Some s => [make_index FS Perspective s (dp_piece e)
                                     bucket mirror]
                      | None => []
                      end) dp).

(** ** update_accumulator_incremental *)

(** The lanes of the next accumulator when VECTOR is defined, by the
    sizes of [removed] and [added]. *)
Definition incremental_vector (add sub : Z -> Z -> Z) (n : nat)
  (accIn : list Z) (column : IndexType -> nat -> Z)
  (removed added : list IndexType) : list Z :=
  match removed, added with
  | [r0], a0 :: _ =>
      lanes n (fun i => add (sub (nth i accIn 0) (column r0 i)) (column a0 i))
  | r0 :: r1 :: _, [a0] =>
      lanes n (fun i => sub (add (nth i accIn 0) (column a0 i))
                            (add (column r0 i) (column r1 i)))
  | r0 :: r1 :: _, a0 :: a1 :: _ =>
      lanes n (fun i => add (nth i accIn 0)
                            (sub (add (column a0 i) (column a1 i))
                                 (add (column r0 i) (column r1 i))))
  | _, _ => accIn
  end.

(** The same lanes without VECTOR: a copy, then [-=] for every removed
    index and [+=] for every added one. *)
Definition incremental_scalar (add sub : Z -> Z -> Z) (n : nat)
  (accIn : list Z) (column : IndexType -> nat -> Z)
  (removed added : list IndexType) : list Z :=
  lanes n (fun i =>
             fold_left (fun x index => add x (column index i)) added
               (fold_left (fun x index => sub x (column index i)) removed
                  (nth i accIn 0))).

(** The three assertions on the sizes of [removed] and [added]. *)
Definition sizes_asserted (removed added : list IndexType) : bool :=
  ((length added =? 1) || (length added =? 2))%nat
  && ((length removed =? 1) || (length removed =? 2))%nat
  && (length added <=? length removed)%nat.

(** The accumulation and the psqt accumulation of [next]: a
    [std::memcpy] when nothing changes, else the vector or the scalar
    update. *)
Definition next_accumulation (accIn : list Z)
  (removed added : list IndexType) : list Z :=
  if (length removed =? 0)%nat && (length added =? 0)%nat
  then lanes HalfDimensions (fun i => nth i accIn 0)
  else if VECTOR
  then incremental_vector add16 sub16 HalfDimensions accIn
         (fun index i => weight (HalfDimensions * index) i) removed added
  else incremental_scalar add16 sub16 HalfDimensions accIn
         (fun index i => weight (HalfDimensions * index) i) removed added.

Definition next_psqt (psqtIn : list Z) (removed added : list IndexType)
  : list Z :=
  if (length removed =? 0)%nat && (length added =? 0)%nat
  then lanes PSQTBuckets (fun i => nth i psqtIn 0)
  else if VECTOR
  then incremental_vector add32 sub32 PSQTBuckets psqtIn
         (fun index i => psqt_weight (PSQTBuckets * index) i) removed added
  else incremental_scalar add32 sub32 PSQTBuckets psqtIn
         (fun index i => psqt_weight (index * PSQTBuckets) i) removed added.

(** The record [next] with the accumulator of [Perspective] written and
    marked computed. *)
Definition with_accumulator (Perspective : Color) (st : StateInfo)
  (acc psqt : list Z) : StateInfo :=
  {| dirtyPiece := dirtyPiece st;
     accumulator :=
       {| accumulation :=
            set_color (accumulation (accumulator st)) Perspective acc;
          psqtAccumulation :=
            set_color (psqtAccumulation (accumulator st)) Perspective psqt;
          computed :=
            set_color (computed (accumulator st)) Perspective true |} |}.

(** One call of [update_accumulator_incremental] up to the recursive
    call: the record [next] with its accumulator for [Perspective]
    computed from that of [computed]; [None] when an assertion fails
    (the two on the flags, or, when something changes, the three on the
    sizes). *)
Definition incremental_step (Perspective : Color) (pos : Position)
  (computed_st next : StateInfo) : option StateInfo :=
  let '(bucket, mirror) := feature_bucket pos Perspective in
  let '(removed, added) :=
    append_changed_indices Perspective bucket mirror (dirtyPiece next) in
  let accIn := accumulation (accumulator computed_st) Perspective in
  let psqtIn := psqtAccumulation (accumulator computed_st) Perspective in
  if negb (computed (accumulator computed_st) Perspective)
     || computed (accumulator next) Perspective
  then None
  else if negb ((length removed =? 0)%nat && (length added =? 0)%nat)
          && negb (sizes_asserted removed added)
  then None
  else Some (with_accumulator Perspective next
               (next_accumulation accIn removed added)
               (next_psqt psqtIn removed added)).

(** The recursion of [update_accumulator_incremental]: [steps] records
    remain up to [pos.state()]. *)
Fixpoint incremental_from (steps : nat) (Perspective : Color)
  (pos : Position) (chain : list StateInfo) (computed_i : nat)
  : option (list StateInfo) :=
  match steps with
  | O => Some chain
  | S steps' =>
      match incremental_step Perspective pos (record chain computed_i)
              (record chain (S computed_i)) with
      | None => None
      | Some next =>
          incremental_from steps' Perspective pos
            (Permute.array_set chain (S computed_i) next) (S computed_i)
      end
  end.

(** [update_accumulator_incremental<Perspective>(pos, computed)]; the
    source asserts [computed->next != nullptr]. *)
Definition update_accumulator_incremental (Perspective : Color)
  (pos : Position) (chain : list StateInfo) (computed_i : nat)
  : option (list StateInfo) :=
  if (current chain <=? computed_i)%nat then None
  else incremental_from (current chain - computed_i) Perspective pos chain
         computed_i.

(** ** update_accumulator_refresh *)

(** The slot of the cache: [cache_index = KingCacheMaps[ksq]], moved by 9
    when it is below 3 and the half is mirrored, times 6, plus the attack
    bucket. *)
Definition cache_slot (pos : Position) (Perspective : Color) : nat :=
  let ksq := king_square pos Perspective in
  let oksq := king_square pos (flip Perspective) in
  let '(king_bucket, mirror) := KingBuckets FS ksq oksq in
  let attack_bucket := make_attack_bucket FS pos Perspective in
  let cache_index := KingCacheMaps ksq in
  let cache_index :=
    if (cache_index <? 3)%nat && mirror then (cache_index + 9)%nat
    else cache_index in
  (cache_index * 6 + attack_bucket)%nat.

(** The bitboards [toRemove] and [toAdd] of one pair (c, pt). *)
Definition to_remove (pos : Position) (entry : CacheEntry) (cp : Piece)
  : Bitboard :=
  let oldBB := N.land (byColorBB entry (fst cp)) (byTypeBB entry (snd cp)) in
  let newBB := pieces_cp pos (fst cp) (snd cp) in
  N.land oldBB (bb_not newBB).

Definition to_add (pos : Position) (entry : CacheEntry) (cp : Piece)
  : Bitboard :=
  let oldBB := N.land (byColorBB entry (fst cp)) (byTypeBB entry (snd cp)) in
  let newBB := pieces_cp pos (fst cp) (snd cp) in
  N.land newBB (bb_not oldBB).

(** The lists [removed] and [added] after the two nested loops. *)
Definition refresh_indices (Perspective : Color) (pos : Position)
  (entry : CacheEntry) (bucket : nat) (mirror : bool)
  : list IndexType * list IndexType :=
  (flat_map (fun cp =>
               map (fun sq => make_index FS Perspective sq cp bucket mirror)
                   (squares (to_remove pos entry cp))) color_types,
   flat_map (fun cp =>
               map (fun sq => make_index FS Perspective sq cp bucket mirror)
                   (squares (to_add pos entry cp))) color_types).

(** One lane of a tile when VECTOR is defined: pairs of a removed and an
    added column first, then what is left of either list. *)
Fixpoint fused_lane (column : IndexType -> Z) (acc : Z)
  (removed added : list IndexType) : Z :=
  match removed, added with
  | r :: removed', a :: added' =>
      fused_lane column (add16 acc (sub16 (column a) (column r)))
        removed' added'
  | _, [] => fold_left (fun x index => sub16 x (column index)) removed acc
  | [], _ => fold_left (fun x index => add16 x (column index)) added acc
  end.

(** One lane updated by all removals, then all additions. *)
Definition serial_lane (add sub : Z -> Z -> Z) (column : IndexType -> Z)
  (acc : Z) (removed added : list IndexType) : Z :=
  fold_left (fun x index => add x (column index)) added
    (fold_left (fun x index => sub x (column index)) removed acc).

(** [update_accumulator_refresh<Perspective>(pos, cache)]: the cache and
    the accumulator of [pos.state()] after the call. *)
Definition update_accumulator_refresh (Perspective : Color) (pos : Position)
  (cache : Cache) (acc : Accumulator) : Cache * Accumulator :=
  let '(bucket, mirror) := feature_bucket pos Perspective in
  let slot := cache_slot pos Perspective in
  let entry := cache slot Perspective in
  let '(removed, added) :=
    refresh_indices Perspective pos entry bucket mirror in
  let new_accumulation :=
    lanes HalfDimensions
      (fun j =>
         if VECTOR
         then fused_lane (fun index => weight (HalfDimensions * index) j)
                (nth j (entry_accumulation entry) 0) removed added
         else serial_lane add16 sub16
                (fun index => weight (HalfDimensions * index) j)
                (nth j (entry_accumulation entry) 0) removed added) in
  let new_psqt :=
    lanes PSQTBuckets
      (fun k =>
         serial_lane add32 sub32
           (fun index => if VECTOR
                         then psqt_weight (PSQTBuckets * index) k
                         else psqt_weight (index * PSQTBuckets) k)
           (nth k (entry_psqtAccumulation entry) 0) removed added) in
  let entry' :=
    {| entry_accumulation := new_accumulation;
       entry_psqtAccumulation := new_psqt;
       byColorBB := pieces_c pos;
       byTypeBB := fun pt => match pt with
                             | NO_PIECE_TYPE => byTypeBB entry pt
                             | _ => pieces_pt pos pt
                             end |} in
  (set_entry cache slot Perspective entry',
   {| accumulation := set_color (accumulation acc) Perspective new_accumulation;
      psqtAccumulation :=
        set_color (psqtAccumulation acc) Perspective new_psqt;
      computed := set_color (computed acc) Perspective true |}).

(** ** update_accumulator *)

(** [update_accumulator<Perspective>(pos, cache)]: the cache and the
    chain after the call; [None] when an assertion of the incremental
    path fails. *)
Definition update_accumulator (Perspective : Color) (pos : Position)
  (cache : Cache) (chain : list StateInfo)
  : option (Cache * list StateInfo) :=
  match update_path FS Perspective pos chain with
  | AlreadyComputed => Some (cache, chain)
  | Incremental oldest =>
      match update_accumulator_incremental Perspective pos chain oldest with
      | Some chain' => Some (cache, chain')
      | None => None
      end
  | Refresh =>
      let st := record chain (current chain) in
      let '(cache', acc') :=
        update_accumulator_refresh Perspective pos cache (accumulator st) in
      Some (cache',
            Permute.array_set chain (current chain)
              {| dirtyPiece := dirtyPiece st; accumulator := acc' |})
  end.

(** ** What an accumulator has to hold *)

(** The pieces on a board with their squares, by the bitboards per
    colour and per type. *)
Definition placements (by_color : Color -> Bitboard)
  (by_type : PieceType -> Bitboard) : list (Piece * Square) :=
  flat_map (fun cp =>
              map (fun sq => (cp, sq))
                  (squares (N.land (by_color (fst cp)) (by_type (snd cp)))))
           color_types.

Definition feature_of (Perspective : Color) (bucket : nat) (mirror : bool)
  (pl : Piece * Square) : IndexType :=
  make_index FS Perspective (snd pl) (fst pl) bucket mirror.

(** The sum, over a list of features, of one lane of their columns. *)
Definition column_sum (column : IndexType -> Z) (features : list IndexType)
  : Z :=
  fold_right (fun index s => column index + s) 0 features.

(** The accumulation and the psqt accumulation of a set of features:
    lane by lane the bias, respectively zero, plus the columns of the
    features, in the lane's integer type. *)
Definition feature_accumulation (features : list IndexType) : list Z :=
  lanes HalfDimensions
    (fun j => wrap16 (nth j (biases ft) 0
                      + column_sum (fun index =>
                                      weight (HalfDimensions * index) j)
                                   features)).

Definition feature_psqt (features : list IndexType) : list Z :=
  lanes PSQTBuckets
    (fun k => wrap32 (column_sum (fun index =>
                                    psqt_weight (PSQTBuckets * index) k)
                                 features)).

(** The features of a board for a perspective. *)
Definition active_features (Perspective : Color) (pos : Position)
  : list IndexType :=
  let '(bucket, mirror) := feature_bucket pos Perspective in
  map (feature_of Perspective bucket mirror)
      (placements (pieces_c pos) (pieces_pt pos)).

(** The accumulator "reflects the exact feature set implied by this
    record's board state". *)
Definition reflects (Perspective : Color) (pos : Position)
  (acc : Accumulator) : Prop :=
  accumulation acc Perspective
  = feature_accumulation (active_features Perspective pos) /\
  psqtAccumulation acc Perspective
  = feature_psqt (active_features Perspective pos).

(** The squares a dirty piece vacates and fills. *)
Definition vacated (dp : DirtyPiece) : list (Piece * Square) :=
  flat_map (fun e => match dp_from e with
                     | Some s => [(dp_piece e, s)]
                     | None => []
                     end) dp.

Definition filled (dp : DirtyPiece) : list (Piece * Square) :=
  flat_map (fun e => match dp_to e with
                     | Some s => [(dp_piece e, s)]
                     | None => []
                     end) dp.

(** ** Lane arithmetic *)

Lemma lanes_ext n f g :
  (forall i, (i < n)%nat -> f i = g i) -> lanes n f = lanes n g.
Proof.
  intros H. unfold lanes. apply map_ext_in. intros i Hi.
  apply in_seq in Hi. apply H. lia.
Qed.

Lemma nth_lanes n f i : (i < n)%nat -> nth i (lanes n f) 0 = f i.
Proof.
  intros Hi. unfold lanes.
  rewrite nth_indep with (d' := f O) by (rewrite length_map, length_seq; lia).
  rewrite map_nth, seq_nth by lia. reflexivity.
Qed.

Lemma lanes_length n f : length (lanes n f) = n.
Proof. unfold lanes. rewrite length_map, length_seq. reflexivity. Qed.

Lemma column_sum_app column l1 l2 :
  column_sum column (l1 ++ l2) = column_sum column l1 + column_sum column l2.
Proof.
  unfold column_sum.
  induction l1 as [|a l1 IH]; cbn; [reflexivity|]. rewrite IH. lia.
Qed.

Lemma column_sum_perm column l1 l2 :
  Permutation l1 l2 -> column_sum column l1 = column_sum column l2.
Proof.
  unfold column_sum. induction 1; cbn; lia.
Qed.

(** An integer type that wraps around: what is computed on wrapped
    operands is what is computed on the operands, wrapped. *)
Record Wraps (wrap : Z -> Z) : Prop := {
  wrap_add_l : forall a b, wrap (wrap a + b) = wrap (a + b);
  wrap_add_r : forall a b, wrap (a + wrap b) = wrap (a + b);
  wrap_sub_l : forall a b, wrap (wrap a - b) = wrap (a - b);
  wrap_sub_r : forall a b, wrap (a - wrap b) = wrap (a - b)
}.

Lemma wrap_mod_Wraps (h : Z) :
  0 < h -> Wraps (fun z => (z + h) mod (2 * h) - h).
Proof.
  intros Hh. split; intros a b.
  - f_equal.
    replace ((a + h) mod (2 * h) - h + b + h)
      with ((a + h) mod (2 * h) + b) by lia.
    rewrite Zplus_mod_idemp_l. f_equal. lia.
  - f_equal.
    replace (a + ((b + h) mod (2 * h) - h) + h)
      with (a + (b + h) mod (2 * h)) by lia.
    rewrite Zplus_mod_idemp_r. f_equal. lia.
  - f_equal.
    replace ((a + h) mod (2 * h) - h - b + h)
      with ((a + h) mod (2 * h) + (- b)) by lia.
    rewrite Zplus_mod_idemp_l. f_equal. lia.
  - f_equal.
    replace (a - ((b + h) mod (2 * h) - h) + h)
      with ((a + 2 * h) - (b + h) mod (2 * h)) by lia.
    rewrite Zminus_mod_idemp_r. f_equal. lia.
Qed.

Lemma wrap16_Wraps : Wraps wrap16.
Proof. exact (wrap_mod_Wraps 32768 ltac:(lia)). Qed.

Lemma wrap32_Wraps : Wraps wrap32.
Proof. exact (wrap_mod_Wraps 2147483648 ltac:(lia)). Qed.

Section Lanes.

Variable wrap : Z -> Z.
Hypothesis W : Wraps wrap.

Let add (a b : Z) : Z := wrap (a + b).
Let sub (a b : Z) : Z := wrap (a - b).

Lemma fold_sub_sum (column : IndexType -> Z) l x :
  fold_left (fun y index => sub y (column index)) l (wrap x)
  = wrap (x - column_sum column l).
Proof.
  revert x. induction l as [|a l IH]; intros x; cbn [fold_left].
  - cbn. f_equal. lia.
  - change (column_sum column (a :: l))
      with (column a + column_sum column l).
    unfold sub at 2. rewrite (wrap_sub_l _ W), IH. f_equal. lia.
Qed.

Lemma fold_add_sum (column : IndexType -> Z) l x :
  fold_left (fun y index => add y (column index)) l (wrap x)
  = wrap (x + column_sum column l).
Proof.
  revert x. induction l as [|a l IH]; intros x; cbn [fold_left].
  - cbn. f_equal. lia.
  - change (column_sum column (a :: l))
      with (column a + column_sum column l).
    unfold add at 2. rewrite (wrap_add_l _ W), IH. f_equal. lia.
Qed.

(** Removals and additions one after the other. *)
Lemma serial_lane_sum (column : IndexType -> Z) x removed added :
  serial_lane add sub column (wrap x) removed added
  = wrap (x - column_sum column removed + column_sum column added).
Proof.
  unfold serial_lane. rewrite fold_sub_sum, fold_add_sum. reflexivity.
Qed.

(** The three fused forms of the incremental path. *)
Lemma fused_1_1 x r a : add (sub (wrap x) r) a = wrap (x - r + a).
Proof.
  unfold add, sub. rewrite (wrap_sub_l _ W), (wrap_add_l _ W). reflexivity.
Qed.

Lemma fused_2_1 x r0 r1 a :
  sub (add (wrap x) a) (add r0 r1) = wrap (x - (r0 + r1) + a).
Proof.
  unfold add, sub.
  rewrite (wrap_sub_r _ W), (wrap_sub_l _ W).
  replace (wrap x + a - (r0 + r1)) with (wrap x + (a - (r0 + r1))) by lia.
  rewrite (wrap_add_l _ W). f_equal. lia.
Qed.

Lemma fused_2_2 x r0 r1 a0 a1 :
  add (wrap x) (sub (add a0 a1) (add r0 r1))
  = wrap (x - (r0 + r1) + (a0 + a1)).
Proof.
  unfold add, sub.
  rewrite (wrap_add_r _ W), (wrap_add_l _ W).
  replace (x + (wrap (a0 + a1) - wrap (r0 + r1)))
    with (x + wrap (a0 + a1) - wrap (r0 + r1)) by lia.
  rewrite (wrap_sub_r _ W).
  replace (x + wrap (a0 + a1) - (r0 + r1))
    with (wrap (a0 + a1) + (x - (r0 + r1))) by lia.
  rewrite (wrap_add_l _ W). f_equal. lia.
Qed.

End Lanes.

Lemma fused_lane_sum (column : IndexType -> Z) x removed added :
  fused_lane column (wrap16 x) removed added
  = wrap16 (x - column_sum column removed + column_sum column added).
Proof.
  revert x added. induction removed as [|r removed IH]; intros x added.
  - destruct added as [|a added]; cbn [fused_lane].
    + cbn. f_equal. lia.
    + change (fun (y : Z) (index : IndexType) => add16 y (column index))
        with (fun (y : Z) (index : IndexType) => wrap16 (y + column index)).
      rewrite (fold_add_sum wrap16 wrap16_Wraps). f_equal. cbn. lia.
  - destruct added as [|a added]; cbn [fused_lane].
    + change (fun (y : Z) (index : IndexType) => sub16 y (column index))
        with (fun (y : Z) (index : IndexType) => wrap16 (y - column index)).
      rewrite (fold_sub_sum wrap16 wrap16_Wraps). f_equal. cbn. lia.
    + unfold add16, sub16.
      rewrite (wrap_add_r _ wrap16_Wraps), (wrap_add_l _ wrap16_Wraps), IH.
      change (column_sum column (r :: removed))
        with (column r + column_sum column removed).
      change (column_sum column (a :: added))
        with (column a + column_sum column added).
      f_equal. lia.
Qed.

Section Updates.

Variable wrap : Z -> Z.
Hypothesis W : Wraps wrap.

(** What every update path leaves in lane [i]: the lane's exact value
    [x i] before, minus the removed columns, plus the added ones,
    wrapped. *)
Definition updated_lanes (n : nat) (x : nat -> Z)
  (column : IndexType -> nat -> Z) (removed added : list IndexType)
  : list Z :=
  lanes n (fun i => wrap (x i
                          - column_sum (fun index => column index i) removed
                          + column_sum (fun index => column index i) added)).

Lemma incremental_vector_lanes n accIn x column removed added :
  (forall i, (i < n)%nat -> nth i accIn 0 = wrap (x i)) ->
  sizes_asserted removed added = true ->
  incremental_vector (fun a b => wrap (a + b)) (fun a b => wrap (a - b))
    n accIn column removed added
  = updated_lanes n x column removed added.
Proof.
  intros Hin Hs. unfold sizes_asserted in Hs.
  destruct removed as [|r0 [|r1 [|r2 removed]]];
    destruct added as [|a0 [|a1 [|a2 added]]]; try discriminate Hs;
    cbn [incremental_vector]; apply lanes_ext; intros i Hi;
    rewrite (Hin i Hi); cbn [column_sum fold_right].
  - rewrite (fused_1_1 wrap W). f_equal. lia.
  - rewrite (fused_2_1 wrap W). f_equal. lia.
  - rewrite (fused_2_2 wrap W). f_equal. lia.
Qed.

Lemma incremental_scalar_lanes n accIn x column removed added :
  (forall i, (i < n)%nat -> nth i accIn 0 = wrap (x i)) ->
  incremental_scalar (fun a b => wrap (a + b)) (fun a b => wrap (a - b))
    n accIn column removed added
  = updated_lanes n x column removed added.
Proof.
  intros Hin. apply lanes_ext. intros i Hi. rewrite (Hin i Hi).
  apply (serial_lane_sum wrap W (fun index => column index i)).
Qed.

Lemma copied_lanes n accIn x column :
  (forall i, (i < n)%nat -> nth i accIn 0 = wrap (x i)) ->
  lanes n (fun i => nth i accIn 0) = updated_lanes n x column [] [].
Proof.
  intros Hin. apply lanes_ext. intros i Hi. rewrite (Hin i Hi).
  cbn. f_equal. lia.
Qed.

(** When the features after the update, together with the removed ones,
    are the features before together with the added ones, the updated
    lanes are the lanes of the features after. *)
Lemma updated_lanes_perm n (bias : nat -> Z) column before after
  removed added :
  Permutation (after ++ removed) (before ++ added) ->
  updated_lanes n
    (fun i => bias i + column_sum (fun index => column index i) before)
    column removed added
  = lanes n (fun i => wrap (bias i
                            + column_sum (fun index => column index i) after)).
Proof.
  intros Hp. apply lanes_ext. intros i Hi. f_equal.
  pose proof (column_sum_perm (fun index => column index i) _ _ Hp) as E.
  rewrite !column_sum_app in E. lia.
Qed.

End Updates.

(** ** The incremental step keeps the accumulator exact *)

Lemma fold_left_ext (A B : Type) (f g : A -> B -> A) l x :
  (forall y b, f y b = g y b) -> fold_left f l x = fold_left g l x.
Proof.
  intros H. revert x. induction l as [|b l IH]; intros x; cbn;
    [reflexivity|]. rewrite H. apply IH.
Qed.

Lemma incremental_scalar_ext add sub n accIn column column' removed added :
  (forall index i, column index i = column' index i) ->
  incremental_scalar add sub n accIn column removed added
  = incremental_scalar add sub n accIn column' removed added.
Proof.
  intros H. apply lanes_ext. intros i Hi.
  rewrite (fold_left_ext _ _ (fun x index => sub x (column index i))
             (fun x index => sub x (column' index i)))
    by (intros; rewrite H; reflexivity).
  apply fold_left_ext. intros; rewrite H; reflexivity.
Qed.

Lemma Color_eqb_refl c : Color_eqb c c = true.
Proof. destruct c; reflexivity. Qed.

Lemma Color_eqb_neq c d : c <> d -> Color_eqb c d = false.
Proof. destruct c, d; intros H; try reflexivity; congruence. Qed.

Lemma set_color_same (A : Type) (f : Color -> A) P v : set_color f P v P = v.
Proof. unfold set_color. rewrite Color_eqb_refl. reflexivity. Qed.

Lemma set_color_other (A : Type) (f : Color -> A) P v c :
  c <> P -> set_color f P v c = f c.
Proof. intros H. unfold set_color. rewrite Color_eqb_neq by exact H. reflexivity. Qed.

Lemma append_changed_indices_map P bucket mirror dp :
  append_changed_indices P bucket mirror dp
  = (map (feature_of P bucket mirror) (vacated dp),
     map (feature_of P bucket mirror) (filled dp)).
Proof.
  unfold append_changed_indices, vacated, filled. f_equal.
  - induction dp as [|e dp IH]; cbn; [reflexivity|].
    rewrite map_app, <- IH. destruct (dp_from e); reflexivity.
  - induction dp as [|e dp IH]; cbn; [reflexivity|].
    rewrite map_app, <- IH. destruct (dp_to e); reflexivity.
Qed.

(** A dirty piece for which the assertions of the incremental path hold:
    nothing changes, or one or two squares are vacated and one or two
    filled, no more filled than vacated. *)
Definition dirty_sizes_ok (dp : DirtyPiece) : bool :=
  ((length (vacated dp) =? 0) && (length (filled dp) =? 0))%nat
  || (((length (filled dp) =? 1) || (length (filled dp) =? 2))
      && ((length (vacated dp) =? 1) || (length (vacated dp) =? 2))
      && (length (filled dp) <=? length (vacated dp)))%nat.

Lemma feature_accumulation_lane features i :
  (i < HalfDimensions)%nat ->
  nth i (feature_accumulation features) 0
  = wrap16 (nth i (biases ft) 0
            + column_sum (fun index => weight (HalfDimensions * index) i)
                features).
Proof. intros Hi. unfold feature_accumulation. apply nth_lanes. exact Hi. Qed.

Lemma feature_psqt_lane features k :
  (k < PSQTBuckets)%nat ->
  nth k (feature_psqt features) 0
  = wrap32 (0 + column_sum (fun index => psqt_weight (PSQTBuckets * index) k)
                  features).
Proof. intros Hk. unfold feature_psqt. rewrite nth_lanes by exact Hk. reflexivity. Qed.

Lemma updated_accumulation before after removed added :
  Permutation (after ++ removed) (before ++ added) ->
  updated_lanes wrap16 HalfDimensions
    (fun i => nth i (biases ft) 0
              + column_sum (fun index => weight (HalfDimensions * index) i)
                  before)
    (fun index i => weight (HalfDimensions * index) i) removed added
  = feature_accumulation after.
Proof.
  intros Hp.
  apply (updated_lanes_perm wrap16 HalfDimensions
           (fun i => nth i (biases ft) 0)
           (fun index i => weight (HalfDimensions * index) i)
           before after removed added Hp).
Qed.

Lemma updated_psqt before after removed added :
  Permutation (after ++ removed) (before ++ added) ->
  updated_lanes wrap32 PSQTBuckets
    (fun k => 0 + column_sum (fun index => psqt_weight (PSQTBuckets * index) k)
                    before)
    (fun index k => psqt_weight (PSQTBuckets * index) k) removed added
  = feature_psqt after.
Proof.
  intros Hp.
  rewrite (updated_lanes_perm wrap32 PSQTBuckets (fun _ => 0)
             (fun index k => psqt_weight (PSQTBuckets * index) k)
             before after removed added Hp).
  reflexivity.
Qed.

(** Both incremental paths, on the accumulation and on the psqt
    accumulation of a set of features. *)
Lemma next_accumulation_exact before after removed added :
  Permutation (after ++ removed) (before ++ added) ->
  (length removed =? 0)%nat && (length added =? 0)%nat
  || sizes_asserted removed added = true ->
  next_accumulation (feature_accumulation before) removed added
  = feature_accumulation after.
Proof.
  intros Hp Hs.
  rewrite <- (updated_accumulation before after removed added Hp).
  unfold next_accumulation.
  destruct ((length removed =? 0)%nat && (length added =? 0)%nat) eqn:E0.
  - apply andb_prop in E0. destruct E0 as [Er Ea].
    apply Nat.eqb_eq in Er, Ea. apply length_zero_iff_nil in Er, Ea.
    subst removed added.
    apply (copied_lanes wrap16). intros i Hi.
    apply feature_accumulation_lane. exact Hi.
  - cbn [orb] in Hs. destruct VECTOR.
    + apply (incremental_vector_lanes wrap16 wrap16_Wraps); [|exact Hs].
      intros i Hi. apply feature_accumulation_lane. exact Hi.
    + apply (incremental_scalar_lanes wrap16 wrap16_Wraps).
      intros i Hi. apply feature_accumulation_lane. exact Hi.
Qed.

Lemma next_psqt_exact before after removed added :
  Permutation (after ++ removed) (before ++ added) ->
  (length removed =? 0)%nat && (length added =? 0)%nat
  || sizes_asserted removed added = true ->
  next_psqt (feature_psqt before) removed added = feature_psqt after.
Proof.
  intros Hp Hs. rewrite <- (updated_psqt before after removed added Hp).
  unfold next_psqt.
  destruct ((length removed =? 0)%nat && (length added =? 0)%nat) eqn:E0.
  - apply andb_prop in E0. destruct E0 as [Er Ea].
    apply Nat.eqb_eq in Er, Ea. apply length_zero_iff_nil in Er, Ea.
    subst removed added.
    apply (copied_lanes wrap32). intros i Hi.
    apply feature_psqt_lane. exact Hi.
  - cbn [orb] in Hs. destruct VECTOR.
    + apply (incremental_vector_lanes wrap32 wrap32_Wraps); [|exact Hs].
      intros i Hi. apply feature_psqt_lane. exact Hi.
    + rewrite (incremental_scalar_ext add32 sub32 PSQTBuckets _
                 (fun index i => psqt_weight (index * PSQTBuckets) i)
                 (fun index i => psqt_weight (PSQTBuckets * index) i))
        by (intros; rewrite Nat.mul_comm; reflexivity).
      apply (incremental_scalar_lanes wrap32 wrap32_Wraps).
      intros i Hi. apply feature_psqt_lane. exact Hi.
Qed.

(** The fields of the other perspective stay as they are. *)
Definition same_elsewhere (P : Color) (a b : Accumulator) : Prop :=
  forall c, c <> P ->
    accumulation a c = accumulation b c /\
    psqtAccumulation a c = psqtAccumulation b c /\
    computed a c = computed b c.

Lemma with_accumulator_elsewhere P st acc psqt :
  same_elsewhere P (accumulator (with_accumulator P st acc psqt))
    (accumulator st).
Proof.
  intros c Hne. cbn. rewrite !set_color_other by exact Hne. auto.
Qed.

(** One step of the incremental path: from an exact accumulator of the
    board before, an exact accumulator of the board after. *)
Lemma incremental_step_reflects P pos b_prev b_next prev next :
  computed (accumulator prev) P = true ->
  computed (accumulator next) P = false ->
  reflects P b_prev (accumulator prev) ->
  feature_bucket b_prev P = feature_bucket pos P ->
  feature_bucket b_next P = feature_bucket pos P ->
  Permutation
    (placements (pieces_c b_next) (pieces_pt b_next)
     ++ vacated (dirtyPiece next))
    (placements (pieces_c b_prev) (pieces_pt b_prev)
     ++ filled (dirtyPiece next)) ->
  dirty_sizes_ok (dirtyPiece next) = true ->
  exists next',
    incremental_step P pos prev next = Some next' /\
    reflects P b_next (accumulator next') /\
    computed (accumulator next') P = true /\
    dirtyPiece next' = dirtyPiece next /\
    same_elsewhere P (accumulator next') (accumulator next).
Proof.
  intros Hc Hn [Hacc Hpsqt] Hbp Hbn Hperm Hsz.
  unfold reflects, incremental_step, active_features in *.
  rewrite Hbp in Hacc, Hpsqt. rewrite Hbn.
  destruct (feature_bucket pos P) as [bucket mirror].
  rewrite append_changed_indices_map, Hc, Hn. cbn [negb orb].
  set (f := feature_of P bucket mirror) in *.
  assert (Permutation
            (map f (placements (pieces_c b_next) (pieces_pt b_next))
             ++ map f (vacated (dirtyPiece next)))
            (map f (placements (pieces_c b_prev) (pieces_pt b_prev))
             ++ map f (filled (dirtyPiece next)))) as Hp
      by (rewrite <- !map_app; apply Permutation_map; exact Hperm).
  assert ((length (map f (vacated (dirtyPiece next))) =? 0)%nat
          && (length (map f (filled (dirtyPiece next))) =? 0)%nat
          || sizes_asserted (map f (vacated (dirtyPiece next)))
               (map f (filled (dirtyPiece next))) = true) as Hs
      by (unfold sizes_asserted; rewrite !length_map; exact Hsz).
  assert (negb ((length (map f (vacated (dirtyPiece next))) =? 0)%nat
                && (length (map f (filled (dirtyPiece next))) =? 0)%nat)
          && negb (sizes_asserted (map f (vacated (dirtyPiece next)))
                     (map f (filled (dirtyPiece next)))) = false) as ->.
  { rewrite <- negb_orb, Hs. reflexivity. }
  eexists. split; [reflexivity|].
  rewrite Hacc, Hpsqt.
  rewrite (next_accumulation_exact _ _ _ _ Hp Hs),
    (next_psqt_exact _ _ _ _ Hp Hs).
  split; [|split; [|split]].
  - cbn. rewrite !set_color_same. auto.
  - cbn. apply set_color_same.
  - reflexivity.
  - apply with_accumulator_elsewhere.
Qed.

(** ** Histories *)

Definition empty_position : Position :=
  {| pieces := 0%N; pieces_c := fun _ => 0%N; pieces_pt := fun _ => 0%N;
     side_to_move := WHITE; king_square := fun _ => 0%N; checkers := 0%N;
     type_on := fun _ => NO_PIECE_TYPE |}.

(** The boards the records of a chain were made for, root first. *)
Definition board (boards : list Position) (i : nat) : Position :=
  nth i boards empty_position.

(** The dirty piece [dp] of a record describes the move from [b_prev] to
    [b_next]: the pieces now on the board, together with the ones that
    left their squares, are the pieces that were on the board together
    with the ones that reached their squares; the sizes are those the
    incremental path asserts; and unless a record with this dirty piece
    requires a refresh, the move leaves bucket and mirror of the
    perspective as they were. *)
Definition step_consistent (P : Color) (b_prev b_next : Position)
  (dp : DirtyPiece) : Prop :=
  Permutation
    (placements (pieces_c b_next) (pieces_pt b_next) ++ vacated dp)
    (placements (pieces_c b_prev) (pieces_pt b_prev) ++ filled dp) /\
  dirty_sizes_ok dp = true /\
  (forall st, dirtyPiece st = dp -> requires_refresh FS st P = false ->
              feature_bucket b_next P = feature_bucket b_prev P).

Definition history_consistent (P : Color) (boards : list Position)
  (chain : list StateInfo) : Prop :=
  length boards = length chain /\
  forall i, (S i < length chain)%nat ->
    step_consistent P (board boards i) (board boards (S i))
      (dirtyPiece (record chain (S i))).

(** The invariant of the computed flag. *)
Definition accumulators_exact (P : Color) (boards : list Position)
  (chain : list StateInfo) : Prop :=
  forall i, (i < length chain)%nat -> is_computed chain i P = true ->
    reflects P (board boards i) (accumulator (record chain i)).

Lemma record_set_same chain i st :
  (i < length chain)%nat -> record (Permute.array_set chain i st) i = st.
Proof. intros H. apply Permute.nth_array_set_same. exact H. Qed.

Lemma record_set_other chain i j st :
  i <> j -> record (Permute.array_set chain i st) j = record chain j.
Proof. intros H. apply Permute.nth_array_set_other. exact H. Qed.

(** The forward walk of the incremental path: from the computed record
    at [k], over records that are uncomputed and share bucket and mirror
    with [pos], every record up to [k + steps] becomes computed and
    exact; no other record changes. *)
Lemma incremental_from_exact P pos boards steps :
  forall k chain,
    (k + steps < length chain)%nat ->
    history_consistent P boards chain ->
    is_computed chain k P = true ->
    reflects P (board boards k) (accumulator (record chain k)) ->
    feature_bucket (board boards k) P = feature_bucket pos P ->
    (forall j, (k < j <= k + steps)%nat ->
       is_computed chain j P = false /\
       feature_bucket (board boards j) P = feature_bucket pos P) ->
    exists chain',
      incremental_from steps P pos chain k = Some chain' /\
      length chain' = length chain /\
      (forall j, (k < j <= k + steps)%nat ->
         is_computed chain' j P = true /\
         reflects P (board boards j) (accumulator (record chain' j))) /\
      (forall j, ~ (k < j <= k + steps)%nat ->
         record chain' j = record chain j) /\
      (forall j, dirtyPiece (record chain' j) = dirtyPiece (record chain j)) /\
      (forall j, same_elsewhere P (accumulator (record chain' j))
                   (accumulator (record chain j))).
Proof.
  induction steps as [|steps IH]; intros k chain Hlen Hcons Hk Hrefl Hbk Habove.
  - exists chain. cbn [incremental_from]. split; [reflexivity|].
    split; [reflexivity|]. split; [intros j Hj; lia|].
    split; [reflexivity|]. split; [reflexivity|].
    intros j c Hc. auto.
  - cbn [incremental_from].
    destruct Hcons as [Hbl Hsteps].
    destruct (Hsteps k ltac:(lia)) as (Hperm & Hsz & Hbucket).
    destruct (Habove (S k) ltac:(lia)) as [Hn Hbn].
    destruct (incremental_step_reflects P pos (board boards k)
                (board boards (S k)) (record chain k) (record chain (S k))
                Hk Hn Hrefl Hbk Hbn Hperm Hsz)
      as (next' & Estep & Hrefl' & Hcomp' & Hdp' & Helse').
    rewrite Estep.
    set (chain1 := Permute.array_set chain (S k) next').
    assert (length chain1 = length chain) as Hl1
        by apply Permute.array_set_length.
    assert (record chain1 (S k) = next') as Hr1
        by (apply record_set_same; lia).
    assert (forall j, j <> S k -> record chain1 j = record chain j) as Hr1'
        by (intros j Hj; apply record_set_other; auto).
    assert (forall j, dirtyPiece (record chain1 j) = dirtyPiece (record chain j))
      as Hd1.
    { intros j. destruct (Nat.eq_dec j (S k)) as [->|Hne].
      - rewrite Hr1. exact Hdp'.
      - rewrite Hr1' by exact Hne. reflexivity. }
    destruct (IH (S k) chain1) as (chain' & E & Hl & Hnew & Hold & Hdp & Helse).
    + lia.
    + split; [congruence|]. intros i Hi. rewrite Hd1. apply Hsteps. lia.
    + unfold is_computed. rewrite Hr1. exact Hcomp'.
    + rewrite Hr1. exact Hrefl'.
    + exact Hbn.
    + intros j Hj. unfold is_computed. rewrite Hr1' by lia.
      apply Habove. lia.
    + exists chain'. split; [exact E|]. split; [congruence|].
      split; [|split; [|split]].
      * intros j Hj. destruct (Nat.eq_dec j (S k)) as [->|Hne].
        -- unfold is_computed. rewrite (Hold (S k)) by lia. rewrite Hr1. auto.
        -- apply Hnew. lia.
      * intros j Hj. rewrite Hold by lia. apply Hr1'. lia.
      * intros j. rewrite Hdp. apply Hd1.
      * intros j c Hc. destruct (Helse j c Hc) as (H1 & H2 & H3).
        rewrite H1, H2, H3.
        destruct (Nat.eq_dec j (S k)) as [->|Hne].
        -- rewrite Hr1. apply Helse'. exact Hc.
        -- rewrite Hr1' by exact Hne. auto.
Qed.

(** ** The refresh path *)

Lemma Permutation_app_middle (A : Type) (a b c d : list A) :
  Permutation ((a ++ b) ++ (c ++ d)) ((a ++ c) ++ (b ++ d)).
Proof.
  rewrite <- !app_assoc. apply Permutation_app_head.
  rewrite !app_assoc. apply Permutation_app_tail. apply Permutation_app_comm.
Qed.

Lemma Permutation_flat_map_app (A B : Type) (f g h k : A -> list B) l :
  (forall x, In x l -> Permutation (f x ++ g x) (h x ++ k x)) ->
  Permutation (flat_map f l ++ flat_map g l) (flat_map h l ++ flat_map k l).
Proof.
  induction l as [|a l IH]; intros H; cbn; [constructor|].
  eapply Permutation_trans; [apply Permutation_app_middle|].
  eapply Permutation_trans; [|apply Permutation_app_middle].
  apply Permutation_app; [apply H; left; reflexivity|].
  apply IH. intros x Hx. apply H. right. exact Hx.
Qed.

Lemma land_below a b s :
  (a < 2 ^ BB_BITS)%N -> N.testbit (N.land a b) s = true ->
  (s <? BB_BITS)%N = true.
Proof.
  intros Ha Hs. rewrite N.land_spec in Hs. apply andb_prop in Hs.
  apply N.ltb_lt. apply (testbit_below a s Ha). tauto.
Qed.

(** The squares of the new bitboard with those to remove are the squares
    of the old bitboard with those to add. *)
Lemma bitboard_diff_perm (old new : Bitboard) :
  (forall s, N.testbit old s = true -> (s <? BB_BITS)%N = true) ->
  (forall s, N.testbit new s = true -> (s <? BB_BITS)%N = true) ->
  Permutation (squares new ++ squares (N.land old (bb_not new)))
              (squares old ++ squares (N.land new (bb_not old))).
Proof.
  intros Ho Hn. apply NoDup_Permutation.
  - apply MoveGen.NoDup_app_intro; try apply squares_NoDup.
    intros s H1 H2. apply squares_spec in H1, H2.
    rewrite N.land_spec, bb_not_spec, H1 in H2.
    rewrite !andb_false_r in H2. discriminate.
  - apply MoveGen.NoDup_app_intro; try apply squares_NoDup.
    intros s H1 H2. apply squares_spec in H1, H2.
    rewrite N.land_spec, bb_not_spec, H1 in H2.
    rewrite !andb_false_r in H2. discriminate.
  - intros s. rewrite !in_app_iff, !squares_spec, !N.land_spec, !bb_not_spec.
    specialize (Ho s). specialize (Hn s).
    destruct (N.testbit old s), (N.testbit new s), (s <? BB_BITS)%N;
      cbn in *; intuition congruence.
Qed.

Lemma map_flat_map (A B C : Type) (f : B -> C) (g : A -> list B) l :
  map f (flat_map g l) = flat_map (fun x => map f (g x)) l.
Proof.
  induction l as [|a l IH]; cbn; [reflexivity|].
  rewrite map_app, IH. reflexivity.
Qed.

(** A position whose colour bitboards fit the word. *)
Definition fits (pos : Position) : Prop :=
  forall c, (pieces_c pos c < 2 ^ BB_BITS)%N.

(** The pieces to remove from and to add to a cache entry. *)
Definition stale (pos : Position) (entry : CacheEntry)
  : list (Piece * Square) :=
  flat_map (fun cp => map (fun sq => (cp, sq))
                          (squares (to_remove pos entry cp))) color_types.

Definition missing (pos : Position) (entry : CacheEntry)
  : list (Piece * Square) :=
  flat_map (fun cp => map (fun sq => (cp, sq))
                          (squares (to_add pos entry cp))) color_types.

Lemma refresh_indices_map P pos entry bucket mirror :
  refresh_indices P pos entry bucket mirror
  = (map (feature_of P bucket mirror) (stale pos entry),
     map (feature_of P bucket mirror) (missing pos entry)).
Proof.
  unfold refresh_indices, stale, missing. rewrite !map_flat_map.
  f_equal; apply flat_map_ext; intros cp; rewrite map_map; reflexivity.
Qed.

Lemma refresh_placements_perm pos entry :
  fits pos -> (forall c, (byColorBB entry c < 2 ^ BB_BITS)%N) ->
  Permutation
    (placements (pieces_c pos) (pieces_pt pos) ++ stale pos entry)
    (placements (byColorBB entry) (byTypeBB entry) ++ missing pos entry).
Proof.
  intros Hpos Hentry. unfold placements, stale, missing.
  apply Permutation_flat_map_app. intros cp _.
  rewrite <- !map_app. apply Permutation_map.
  unfold to_remove, to_add, pieces_cp.
  apply bitboard_diff_perm; intros s; apply land_below; auto.
Qed.

Lemma serial_lane_ext add sub column column' x removed added :
  (forall index, column index = column' index) ->
  serial_lane add sub column x removed added
  = serial_lane add sub column' x removed added.
Proof.
  intros H. unfold serial_lane.
  rewrite (fold_left_ext _ _ (fun y index => sub y (column index))
             (fun y index => sub y (column' index)))
    by (intros; rewrite H; reflexivity).
  apply fold_left_ext. intros; rewrite H; reflexivity.
Qed.

(** The lanes the refresh path writes, from an exact cache entry. *)
Lemma refresh_accumulation_exact before after removed added :
  Permutation (after ++ removed) (before ++ added) ->
  lanes HalfDimensions
    (fun j =>
       if VECTOR
       then fused_lane (fun index => weight (HalfDimensions * index) j)
              (nth j (feature_accumulation before) 0) removed added
       else serial_lane add16 sub16
              (fun index => weight (HalfDimensions * index) j)
              (nth j (feature_accumulation before) 0) removed added)
  = feature_accumulation after.
Proof.
  intros Hp. rewrite <- (updated_accumulation before after removed added Hp).
  apply lanes_ext. intros j Hj.
  rewrite feature_accumulation_lane by exact Hj. destruct VECTOR.
  - apply fused_lane_sum.
  - apply (serial_lane_sum wrap16 wrap16_Wraps).
Qed.

Lemma refresh_psqt_exact before after removed added :
  Permutation (after ++ removed) (before ++ added) ->
  lanes PSQTBuckets
    (fun k =>
       serial_lane add32 sub32
         (fun index => if VECTOR
                       then psqt_weight (PSQTBuckets * index) k
                       else psqt_weight (index * PSQTBuckets) k)
         (nth k (feature_psqt before) 0) removed added)
  = feature_psqt after.
Proof.
  intros Hp. rewrite <- (updated_psqt before after removed added Hp).
  apply lanes_ext. intros k Hk.
  rewrite feature_psqt_lane by exact Hk.
  rewrite (serial_lane_ext add32 sub32 _
             (fun index => psqt_weight (PSQTBuckets * index) k))
    by (intros index; destruct VECTOR;
        [reflexivity | rewrite Nat.mul_comm; reflexivity]).
  apply (serial_lane_sum wrap32 wrap32_Wraps).
Qed.

(** ** The cache *)

Section Caches.

(** For the king and attack bucket tables the slot of the cache fixes
    bucket and mirror of the features: [decode] reads them off the
    slot. *)
Variable decode : Color -> nat -> nat * bool.

(** "An entry's stored bitboard snapshot always matches the feature
    state encoded in its Accumulator". *)
Definition entry_exact (P : Color) (slot : nat) (e : CacheEntry) : Prop :=
  let features :=
    map (feature_of P (fst (decode P slot)) (snd (decode P slot)))
        (placements (byColorBB e) (byTypeBB e)) in
  entry_accumulation e = feature_accumulation features /\
  entry_psqtAccumulation e = feature_psqt features /\
  forall c, (byColorBB e c < 2 ^ BB_BITS)%N.

Definition cache_exact (P : Color) (cache : Cache) : Prop :=
  forall slot, entry_exact P slot (cache slot P).

Lemma set_entry_same cache slot P e : set_entry cache slot P e slot P = e.
Proof.
  unfold set_entry. rewrite Nat.eqb_refl, Color_eqb_refl. reflexivity.
Qed.

Lemma set_entry_other_slot cache slot P e slot' c :
  slot' <> slot -> set_entry cache slot P e slot' c = cache slot' c.
Proof.
  intros H. unfold set_entry. apply Nat.eqb_neq in H. rewrite H. reflexivity.
Qed.

Lemma set_entry_other_color cache slot P e slot' c :
  c <> P -> set_entry cache slot P e slot' c = cache slot' c.
Proof.
  intros H. unfold set_entry. rewrite (Color_eqb_neq c P H), andb_false_r.
  reflexivity.
Qed.

Lemma placements_refreshed pos entry :
  placements (pieces_c pos)
    (fun pt => match pt with
               | NO_PIECE_TYPE => byTypeBB entry pt
               | _ => pieces_pt pos pt
               end)
  = placements (pieces_c pos) (pieces_pt pos).
Proof. reflexivity. Qed.

(** The refresh path leaves an exact accumulator and an exact cache. *)
Lemma refresh_exact P pos cache acc :
  decode P (cache_slot pos P) = feature_bucket pos P ->
  cache_exact P cache -> fits pos ->
  let result := update_accumulator_refresh P pos cache acc in
  reflects P pos (snd result) /\
  computed (snd result) P = true /\
  cache_exact P (fst result) /\
  same_elsewhere P (snd result) acc /\
  (forall slot c, c <> P -> fst result slot c = cache slot c).
Proof.
  intros Hdec Hcache Hfits. cbv zeta.
  unfold update_accumulator_refresh, reflects, active_features.
  destruct (Hcache (cache_slot pos P)) as (Hacc & Hpsqt & Hbits).
  cbv zeta in Hacc, Hpsqt. rewrite Hdec in Hacc, Hpsqt.
  destruct (feature_bucket pos P) as [bucket mirror] eqn:Eb.
  cbn [fst snd] in Hacc, Hpsqt.
  rewrite refresh_indices_map.
  set (entry := cache (cache_slot pos P) P) in *.
  set (f := feature_of P bucket mirror) in *.
  assert (Permutation
            (map f (placements (pieces_c pos) (pieces_pt pos))
             ++ map f (stale pos entry))
            (map f (placements (byColorBB entry) (byTypeBB entry))
             ++ map f (missing pos entry))) as Hp.
  { rewrite <- !map_app. apply Permutation_map.
    apply refresh_placements_perm; assumption. }
  rewrite Hacc, Hpsqt.
  rewrite (refresh_accumulation_exact _ _ _ _ Hp),
    (refresh_psqt_exact _ _ _ _ Hp).
  cbn [fst snd accumulation psqtAccumulation computed].
  rewrite !set_color_same.
  split; [auto|]. split; [reflexivity|]. split; [|split].
  - intros slot. destruct (Nat.eq_dec slot (cache_slot pos P)) as [->|Hne].
    + rewrite set_entry_same. unfold entry_exact.
      cbn [entry_accumulation entry_psqtAccumulation byColorBB byTypeBB].
      rewrite placements_refreshed, Hdec. cbn [fst snd]. auto.
    + rewrite set_entry_other_slot by exact Hne. apply Hcache.
  - intros c Hc. cbn. rewrite !set_color_other by exact Hc. auto.
  - intros slot c Hc. apply set_entry_other_color. exact Hc.
Qed.

(** While no record requires a refresh, the boards share bucket and
    mirror. *)
Lemma buckets_along P boards chain k n :
  history_consistent P boards chain ->
  (n < length chain)%nat ->
  (forall j, (k < j <= n)%nat ->
     requires_refresh FS (record chain j) P = false) ->
  forall d j, (j + d = n)%nat -> (k <= j)%nat ->
    feature_bucket (board boards j) P = feature_bucket (board boards n) P.
Proof.
  intros [_ Hsteps] Hn Hrr. induction d as [|d IH]; intros j Hj Hk.
  - replace j with n by lia. reflexivity.
  - rewrite <- (IH (S j)) by lia.
    destruct (Hsteps j ltac:(lia)) as (_ & _ & Hb).
    symmetry. apply (Hb (record chain (S j))); [reflexivity|].
    apply Hrr. lia.
Qed.

(** The refresh path forced at every step: the cache goes from board to
    board, each board's record gets its accumulator from the cache; the
    cache and the accumulator of the last board. *)
Fixpoint refresh_every_step (P : Color) (boards : list Position)
  (cache : Cache) (acc : Accumulator) : Cache * Accumulator :=
  match boards with
  | [] => (cache, acc)
  | b :: rest =>
      let '(cache', acc') :=
        update_accumulator_refresh P b cache empty_accumulator in
      refresh_every_step P rest cache' acc'
  end.

(** The incremental path: the root record is computed by a refresh, then
    [update_accumulator_incremental] walks from it to [pos.state()]. *)
Definition refresh_then_incremental (P : Color) (pos : Position)
  (boards : list Position) (cache : Cache) (chain : list StateInfo)
  : option (list StateInfo) :=
  let root := record chain 0 in
  let '(_, acc0) :=
    update_accumulator_refresh P (board boards 0) cache (accumulator root) in
  update_accumulator_incremental P pos
    (Permute.array_set chain 0
       {| dirtyPiece := dirtyPiece root; accumulator := acc0 |}) 0.

(** The boards of a history fit the word and their cache slots decode to
    their bucket and mirror. *)
Definition boards_decodable (P : Color) (boards : list Position) : Prop :=
  forall b, In b boards ->
    fits b /\ decode P (cache_slot b P) = feature_bucket b P.

Lemma refresh_every_step_exact P boards :
  forall b cache acc,
    boards_decodable P (b :: boards) -> cache_exact P cache ->
    reflects P (last (b :: boards) empty_position)
      (snd (refresh_every_step P (b :: boards) cache acc)) /\
    computed (snd (refresh_every_step P (b :: boards) cache acc)) P = true.
Proof.
  induction boards as [|b' boards IH]; intros b cache acc Hdec Hcache.
  - cbn [refresh_every_step last].
    destruct (Hdec b ltac:(left; reflexivity)) as [Hf Hd].
    destruct (refresh_exact P b cache empty_accumulator Hd Hcache Hf)
      as (H1 & H2 & _).
    destruct (update_accumulator_refresh P b cache empty_accumulator).
    cbn [snd] in *. auto.
  - cbn [refresh_every_step].
    destruct (Hdec b ltac:(left; reflexivity)) as [Hf Hd].
    destruct (refresh_exact P b cache empty_accumulator Hd Hcache Hf)
      as (_ & _ & H3 & _).
    destruct (update_accumulator_refresh P b cache empty_accumulator)
      as [cache' acc'].
    cbn [fst] in H3.
    change (last (b :: b' :: boards) empty_position)
      with (last (b' :: boards) empty_position).
    apply (IH b' cache' acc'); [|exact H3].
    intros x Hx. apply Hdec. right. exact Hx.
Qed.

Lemma current_lt chain : chain <> [] -> (current chain < length chain)%nat.
Proof.
  unfold current. destruct chain; [congruence|]. cbn. lia.
Qed.

Lemma update_path_cases P pos chain :
  match update_path FS P pos chain with
  | AlreadyComputed => is_computed chain (current chain) P = true
  | Incremental k =>
      is_computed chain (current chain) P = false /\
      k = try_find_computed_accumulator FS P pos chain /\
      is_computed chain k P = true /\ k <> current chain
  | Refresh => is_computed chain (current chain) P = false
  end.
Proof.
  unfold update_path.
  destruct (is_computed chain (current chain) P) eqn:En; [reflexivity|].
  destruct (is_computed chain (try_find_computed_accumulator FS P pos chain) P)
    eqn:Ek; cbn [andb]; [|reflexivity].
  destruct (try_find_computed_accumulator FS P pos chain =? current chain)%nat
    eqn:Ec; cbn [negb]; [reflexivity|].
  apply Nat.eqb_neq in Ec. auto.
Qed.

(** When [update_accumulator] takes the incremental path from the record
    [k] that the backward walk found, the walk forward computes every
    record above [k] up to the current one, exactly, and touches no
    other. *)
Lemma incremental_path_exact P pos boards chain k :
  chain <> [] ->
  board boards (current chain) = pos ->
  history_consistent P boards chain ->
  accumulators_exact P boards chain ->
  update_path FS P pos chain = Incremental k ->
  exists chain',
    update_accumulator_incremental P pos chain k = Some chain' /\
    length chain' = length chain /\
    (k < current chain)%nat /\
    (forall j, (k < j <= current chain)%nat ->
       is_computed chain j P = false /\
       is_computed chain' j P = true /\
       reflects P (board boards j) (accumulator (record chain' j))) /\
    (forall j, ~ (k < j <= current chain)%nat ->
       record chain' j = record chain j) /\
    (forall j, dirtyPiece (record chain' j) = dirtyPiece (record chain j)).
Proof.
  intros Hne Hpos Hcons Hexact Hpath.
  pose proof (current_lt chain Hne) as Hn.
  pose proof (update_path_cases P pos chain) as Hc. rewrite Hpath in Hc.
  destruct Hc as (En & Hk & Ek & Hkn).
  unfold try_find_computed_accumulator in Hk.
  destruct (walk_back_spec_of_code FS P chain (current chain)
              (refresh_cost FS pos)) as (Hle & Habove & _).
  rewrite <- Hk in Hle, Habove.
  unfold update_accumulator_incremental.
  assert ((current chain <=? k)%nat = false) as ->
      by (apply Nat.leb_gt; lia).
  assert (forall j, (k <= j <= current chain)%nat ->
            feature_bucket (board boards j) P = feature_bucket pos P) as Hb.
  { intros j Hj. rewrite <- Hpos.
    apply (buckets_along P boards chain k (current chain) Hcons Hn)
      with (d := (current chain - j)%nat); try lia.
    intros i Hi. apply Habove. exact Hi. }
  destruct (incremental_from_exact P pos boards (current chain - k) k chain)
    as (chain' & E & Hl & Hnew & Hold & Hdp & _).
  - lia.
  - exact Hcons.
  - exact Ek.
  - apply Hexact; [lia | exact Ek].
  - apply Hb. lia.
  - intros j Hj. split; [apply Habove; lia | apply Hb; lia].
  - exists chain'. split; [exact E|]. split; [exact Hl|]. split; [lia|].
    split; [|split; [|exact Hdp]].
    + intros j Hj. split; [apply Habove; lia|]. apply Hnew. lia.
    + intros j Hj. apply Hold. lia.
Qed.

(** [update_accumulator] under the invariant of the data model, for any
    reading [decode] of the slots that is right for the slot of [pos]. *)
Lemma update_accumulator_decoded (P : Color) (pos : Position)
  (boards : list Position) (cache : Cache) (chain : list StateInfo) :
  chain <> [] ->
  board boards (current chain) = pos ->
  fits pos ->
  decode P (cache_slot pos P) = feature_bucket pos P ->
  history_consistent P boards chain ->
  accumulators_exact P boards chain ->
  cache_exact P cache ->
  exists cache' chain',
    update_accumulator P pos cache chain = Some (cache', chain') /\
    is_computed chain' (current chain') P = true /\
    (is_computed chain (current chain) P = true ->
     cache' = cache /\ chain' = chain) /\
    (forall i, is_computed chain i P = true ->
               record chain' i = record chain i) /\
    accumulators_exact P boards chain' /\
    cache_exact P cache' /\
    history_consistent P boards chain' /\
    length chain' = length chain.
Proof.
  intros Hne Hpos Hfits Hdec Hcons Hexact Hcache.
  pose proof (current_lt chain Hne) as Hn.
  pose proof (update_path_cases P pos chain) as Hcase.
  unfold update_accumulator.
  destruct (update_path FS P pos chain) as [|k|] eqn:Epath.
  - exists cache, chain. split; [reflexivity|]. split; [exact Hcase|].
    split; [auto|]. split; [auto|]. split; [exact Hexact|].
    split; [exact Hcache|]. split; [exact Hcons | reflexivity].
  - destruct Hcase as (En & _).
    destruct (incremental_path_exact P pos boards chain k Hne Hpos Hcons
                Hexact Epath) as (chain' & E & Hl & Hk & Hnew & Hold & Hdp).
    rewrite E. exists cache, chain'.
    assert (current chain' = current chain) as Hcur
        by (unfold current; congruence).
    split; [reflexivity|]. split; [|split; [|split; [|split; [|split]]]].
    + rewrite Hcur. apply Hnew. lia.
    + intros H. congruence.
    + intros i Hi. apply Hold. intros Hr.
      destruct (Hnew i Hr) as [Hf _]. congruence.
    + intros i Hi Hc.
      destruct (Nat.lt_ge_cases k i) as [Hki|Hki].
      * apply Hnew. rewrite Hl in Hi. unfold current in *. lia.
      * unfold is_computed in Hc. rewrite Hold in * by lia.
        apply Hexact; [congruence | exact Hc].
    + exact Hcache.
    + split; [|exact Hl]. destruct Hcons as [Hbl Hsteps].
      split; [congruence|]. intros i Hi. rewrite Hdp.
      apply Hsteps. congruence.
  - rename Hcase into En.
    destruct (refresh_exact P pos cache
                (accumulator (record chain (current chain)))
                Hdec Hcache Hfits) as (Hr & Hc & Hce & _ & _).
    destruct (update_accumulator_refresh P pos cache
                (accumulator (record chain (current chain))))
      as [cache' acc'].
    cbn [fst snd] in *.
    set (st' := {| dirtyPiece := dirtyPiece (record chain (current chain));
                   accumulator := acc' |}).
    set (chain' := Permute.array_set chain (current chain) st').
    assert (length chain' = length chain) as Hl
        by apply Permute.array_set_length.
    assert (current chain' = current chain) as Hcur
        by (unfold current; congruence).
    assert (record chain' (current chain) = st') as Hsame
        by (apply record_set_same; exact Hn).
    assert (forall j, j <> current chain -> record chain' j = record chain j)
      as Hother by (intros j Hj; apply record_set_other; auto).
    exists cache', chain'. split; [reflexivity|].
    split; [|split; [|split; [|split; [|split]]]].
    + rewrite Hcur. unfold is_computed. rewrite Hsame. exact Hc.
    + intros H. congruence.
    + intros i Hi. apply Hother. intros ->. congruence.
    + intros i Hi Hci. destruct (Nat.eq_dec i (current chain)) as [->|Hd].
      * rewrite Hsame, Hpos. exact Hr.
      * unfold is_computed in Hci. rewrite Hother in * by exact Hd.
        apply Hexact; [congruence | exact Hci].
    + exact Hce.
    + split; [|exact Hl]. destruct Hcons as [Hbl Hsteps].
      split; [congruence|]. intros i Hi.
      assert (dirtyPiece (record chain' (S i))
              = dirtyPiece (record chain (S i))) as ->.
      { destruct (Nat.eq_dec (S i) (current chain)) as [E|E].
        - rewrite E, Hsame. reflexivity.
        - rewrite Hother by exact E. reflexivity. }
      apply Hsteps. congruence.
Qed.

Lemma last_is_nth (A : Type) (l : list A) d :
  last l d = nth (length l - 1) l d.
Proof.
  induction l as [|a l IH]; [reflexivity|].
  destruct l as [|b l]; [reflexivity|].
  change (last (a :: b :: l) d) with (last (b :: l) d). rewrite IH.
  cbn [length].
  replace (S (S (length l)) - 1)%nat with (S (length l)) by lia.
  replace (S (length l) - 1)%nat with (length l) by lia.
  reflexivity.
Qed.

(** Forced at every step, the refresh path ends on an exact accumulator
    of the last board. *)
Lemma refresh_every_step_last P pos boards cache chain :
  chain <> [] -> length boards = length chain ->
  board boards (current chain) = pos ->
  boards_decodable P boards -> cache_exact P cache ->
  reflects P pos (snd (refresh_every_step P boards cache empty_accumulator)) /\
  computed (snd (refresh_every_step P boards cache empty_accumulator)) P
  = true.
Proof.
  intros Hne Hbl Hpos Hdec Hcache.
  destruct boards as [|b rest].
  - destruct chain; [congruence | discriminate].
  - destruct (refresh_every_step_exact P rest b cache empty_accumulator
                Hdec Hcache) as [Hr Hc].
    rewrite last_is_nth in Hr.
    change (nth (length (b :: rest) - 1) (b :: rest) empty_position)
      with (board (b :: rest) (length (b :: rest) - 1)) in Hr.
    rewrite Hbl in Hr. fold (current chain) in Hr. rewrite Hpos in Hr.
    auto.
Qed.

(** The two paths end on the same accumulator, for any reading [decode]
    of the slots that is right for the slots of the boards. *)
Lemma incremental_equals_refresh_decoded (P : Color) (pos : Position)
  (boards : list Position) (cache : Cache) (chain : list StateInfo) :
  chain <> [] ->
  board boards (current chain) = pos ->
  history_consistent P boards chain ->
  boards_decodable P boards ->
  cache_exact P cache ->
  let refreshed := snd (refresh_every_step P boards cache empty_accumulator) in
  (forall k,
     accumulators_exact P boards chain ->
     update_path FS P pos chain = Incremental k ->
     exists chain',
       update_accumulator_incremental P pos chain k = Some chain' /\
       let incremental := accumulator (record chain' (current chain')) in
       accumulation incremental P = accumulation refreshed P /\
       psqtAccumulation incremental P = psqtAccumulation refreshed P /\
       computed incremental P = true /\ computed refreshed P = true) /\
  ((1 < length chain)%nat ->
   (forall j, (j < length chain)%nat -> is_computed chain j P = false) ->
   (forall j, (0 < j < length chain)%nat ->
              requires_refresh FS (record chain j) P = false) ->
   exists chain',
     refresh_then_incremental P pos boards cache chain = Some chain' /\
     let incremental := accumulator (record chain' (current chain')) in
     accumulation incremental P = accumulation refreshed P /\
     psqtAccumulation incremental P = psqtAccumulation refreshed P /\
     computed incremental P = true /\ computed refreshed P = true).
Proof.
  intros Hne Hpos Hcons Hdec Hcache. cbv zeta.
  destruct (refresh_every_step_last P pos boards cache chain Hne
              (proj1 Hcons) Hpos Hdec Hcache) as [[Ha' Hp'] Hc'].
  split.
  - intros k Hexact Hpath.
    destruct (incremental_path_exact P pos boards chain k Hne Hpos Hcons
                Hexact Hpath) as (chain' & E & Hl & Hk & Hnew & _).
    exists chain'. split; [exact E|].
    assert (current chain' = current chain) as Hcur
        by (unfold current; congruence).
    destruct (Hnew (current chain) ltac:(lia)) as (_ & Hc & Ha & Hp).
    rewrite Hpos in Ha, Hp. rewrite Hcur.
    split; [congruence|]. split; [congruence|]. split; [exact Hc | exact Hc'].
  - intros Hlen Hunc Hrr.
    destruct Hcons as [Hbl Hsteps].
    assert (In (board boards 0) boards) as Hin0 by (apply nth_In; lia).
    destruct (Hdec _ Hin0) as [Hf0 Hd0].
    unfold refresh_then_incremental.
    destruct (refresh_exact P (board boards 0) cache
                (accumulator (record chain 0)) Hd0 Hcache Hf0)
      as (Hr0 & Hc0 & _).
    destruct (update_accumulator_refresh P (board boards 0) cache
                (accumulator (record chain 0))) as [cache0 acc0].
    cbn [fst snd] in Hr0, Hc0.
    set (st0 := {| dirtyPiece := dirtyPiece (record chain 0);
                   accumulator := acc0 |}).
    set (chain0 := Permute.array_set chain 0 st0).
    assert (length chain0 = length chain) as Hl0
        by apply Permute.array_set_length.
    assert (record chain0 0 = st0) as Hs0 by (apply record_set_same; lia).
    assert (forall j, j <> O -> record chain0 j = record chain j) as Ho0
        by (intros j Hj; apply record_set_other; auto).
    assert (current chain0 = current chain) as Hcur0
        by (unfold current; congruence).
    assert (history_consistent P boards chain0) as Hcons0.
    { split; [congruence|]. intros i Hi. rewrite Ho0 by lia.
      apply Hsteps. congruence. }
    assert (forall j, (j <= current chain)%nat ->
              feature_bucket (board boards j) P = feature_bucket pos P) as Hb.
    { intros j Hj. rewrite <- Hpos.
      apply (buckets_along P boards chain 0 (current chain)
               (conj Hbl Hsteps)) with (d := (current chain - j)%nat);
        unfold current in *; try lia.
      intros i Hi. apply Hrr. lia. }
    unfold update_accumulator_incremental.
    assert ((current chain0 <=? 0)%nat = false) as ->
        by (apply Nat.leb_gt; unfold current; lia).
    rewrite Nat.sub_0_r.
    destruct (incremental_from_exact P pos boards (current chain0) 0 chain0)
      as (chain' & E & Hl & Hnew & _).
    + unfold current. lia.
    + exact Hcons0.
    + unfold is_computed. rewrite Hs0. exact Hc0.
    + rewrite Hs0. exact Hr0.
    + apply Hb. lia.
    + intros j Hj. unfold is_computed. rewrite Ho0 by lia.
      split; [apply Hunc; unfold current in *; lia|].
      apply Hb. lia.
    + exists chain'. split; [exact E|].
      assert (current chain' = current chain) as Hcur
          by (unfold current; congruence).
      destruct (Hnew (current chain') ltac:(unfold current in *; lia))
        as [Hc [Ha Hp]].
      rewrite Hcur, Hpos in Ha, Hp.
      split; [congruence|]. split; [congruence|].
      split; [exact Hc | exact Hc'].
Qed.

End Caches.

(** ** The slot of the cache entry

    Modelled from the spec: the cache is "indexed by (king-bucket,
    secondary-attack-bucket, perspective)"; the tables [KingBuckets] of
    the feature set and [KingCacheMaps] of nnue_accumulator.h are not
    among the sources.  [king_bucket_of] and [mirror_of] say what the
    tables hold: at the king squares [ksq] and [oksq] of a board, the
    cache index of [ksq] is one of 0 .. 8 and fixes the king bucket, and
    from 3 on it fixes the mirror flag too; below 3 the flag varies with
    [oksq].  The attack bucket is one of 0 .. 5. *)
Section Slots.

Variable king_bucket_of : nat -> nat.
Variable mirror_of : nat -> bool.

Definition tables_agree (ksq oksq : Square) : Prop :=
  (KingCacheMaps ksq < 9)%nat /\
  fst (KingBuckets FS ksq oksq) = king_bucket_of (KingCacheMaps ksq) /\
  ((3 <= KingCacheMaps ksq)%nat ->
   snd (KingBuckets FS ksq oksq) = mirror_of (KingCacheMaps ksq)).

(** The bucket and the mirror flag of the features a slot holds. *)
Definition slot_decode (P : Color) (slot : nat) : nat * bool :=
  let cache_index := (slot / 6)%nat in
  let attack_bucket := (slot mod 6)%nat in
  if (9 <=? cache_index)%nat
  then ((king_bucket_of (cache_index - 9) * 6 + attack_bucket)%nat, true)
  else ((king_bucket_of cache_index * 6 + attack_bucket)%nat,
        if (cache_index <? 3)%nat then false else mirror_of cache_index).

(** A board whose bitboards fit the word and at whose king squares the
    tables are as described. *)
Definition board_decodable (P : Color) (pos : Position) : Prop :=
  fits pos /\
  tables_agree (king_square pos P) (king_square pos (flip P)) /\
  (make_attack_bucket FS pos P < 6)%nat.

(** The slot that [update_accumulator_refresh] computes holds the
    features of the bucket and mirror flag it computes: [cache_index * 6
    + attack_bucket] keeps the two apart, and moving the first three
    cache indices by 9 keeps the mirrored boards apart from the others
    where the cache index does not tell. *)
Lemma cache_slot_decodes P pos :
  tables_agree (king_square pos P) (king_square pos (flip P)) ->
  (make_attack_bucket FS pos P < 6)%nat ->
  slot_decode P (cache_slot pos P) = feature_bucket pos P.
Proof.
  intros (H9 & Hk & Hm) Ha. unfold slot_decode, cache_slot, feature_bucket.
  destruct (KingBuckets FS (king_square pos P) (king_square pos (flip P)))
    as [king_bucket mirror] eqn:Ek.
  cbn [fst snd] in Hk, Hm. cbv zeta.
  set (ab := make_attack_bucket FS pos P) in *.
  set (ci := KingCacheMaps (king_square pos P)) in *.
  assert (forall c, ((c * 6 + ab) / 6 = c)%nat) as Hdiv.
  { intros c. rewrite Nat.add_comm, Nat.div_add by lia.
    rewrite Nat.div_small by exact Ha. reflexivity. }
  assert (forall c, ((c * 6 + ab) mod 6 = ab)%nat) as Hmod.
  { intros c. rewrite Nat.add_comm, Nat.Div0.mod_add.
    apply Nat.mod_small. exact Ha. }
  destruct (ci <? 3)%nat eqn:E3; cbn [andb].
  - apply Nat.ltb_lt in E3. destruct mirror.
    + rewrite Hdiv, Hmod.
      assert ((9 <=? ci + 9)%nat = true) as -> by (apply Nat.leb_le; lia).
      replace (ci + 9 - 9)%nat with ci by lia. rewrite <- Hk. reflexivity.
    + rewrite Hdiv, Hmod.
      assert ((9 <=? ci)%nat = false) as -> by (apply Nat.leb_gt; lia).
      assert ((ci <? 3)%nat = true) as -> by (apply Nat.ltb_lt; exact E3).
      rewrite <- Hk. reflexivity.
  - apply Nat.ltb_ge in E3. rewrite Hdiv, Hmod.
    assert ((9 <=? ci)%nat = false) as -> by (apply Nat.leb_gt; lia).
    assert ((ci <? 3)%nat = false) as -> by (apply Nat.ltb_ge; exact E3).
    rewrite <- Hk, <- (Hm E3). reflexivity.
Qed.

Lemma boards_slots_decode P boards :
  (forall b, In b boards -> board_decodable P b) ->
  boards_decodable slot_decode P boards.
Proof.
  intros H b Hb. destruct (H b Hb) as (Hf & Ht & Ha).
  split; [exact Hf|]. apply cache_slot_decodes; assumption.
Qed.

(** C8. Under the invariant of the data model (every computed flag
    stands on an exact accumulator, every cache entry holds the features
    of its snapshot for the bucket and mirror flag of its slot) and for
    a history whose dirty pieces describe its moves,
    [update_accumulator] returns with computed[Perspective] set on the
    current record, by the incremental or by the refresh path; it
    changes nothing when the flag was already set; it never touches a
    record whose flag was set, so that a flag goes from unset to set
    once and stays; and the invariant holds again afterwards: a flag is
    set only on an accumulator that reflects exactly the features of
    that record's board.  The cache entry that the refresh path picks
    by [cache_index * 6 + attack_bucket], with the first three cache
    indices moved by 9 on a mirrored board, is one for the bucket and
    mirror flag of the board. *)
Theorem update_accumulator_computed (P : Color) (pos : Position)
  (boards : list Position) (cache : Cache) (chain : list StateInfo) :
  chain <> [] ->
  board boards (current chain) = pos ->
  board_decodable P pos ->
  history_consistent P boards chain ->
  accumulators_exact P boards chain ->
  cache_exact slot_decode P cache ->
  exists cache' chain',
    update_accumulator P pos cache chain = Some (cache', chain') /\
    is_computed chain' (current chain') P = true /\
    (is_computed chain (current chain) P = true ->
     cache' = cache /\ chain' = chain) /\
    (forall i, is_computed chain i P = true ->
               record chain' i = record chain i) /\
    accumulators_exact P boards chain' /\
    cache_exact slot_decode P cache' /\
    history_consistent P boards chain' /\
    length chain' = length chain.
Proof.
  intros Hne Hpos (Hfits & Ht & Ha) Hcons Hexact Hcache.
  apply (update_accumulator_decoded slot_decode P pos boards cache chain);
    try assumption.
  apply cache_slot_decodes; assumption.
Qed.

(** C1. For a history of boards whose dirty pieces describe its moves,
    with caches that match their snapshots, the accumulator that the
    incremental path leaves on the last record holds for the
    perspective the same accumulation and the same psqt accumulation,
    lane for lane, as the accumulator that the refresh path leaves when
    it is run on every board of the history in turn, each time on the
    cache entry of the slot it computes for that board.  This holds
    whenever [update_accumulator] takes the incremental path, from the
    computed ancestor its backward walk found; and it holds for the
    walk from the root record, computed by a refresh, over a history
    none of whose moves requires a refresh. *)
Theorem incremental_equals_refresh (P : Color) (pos : Position)
  (boards : list Position) (cache : Cache) (chain : list StateInfo) :
  chain <> [] ->
  board boards (current chain) = pos ->
  history_consistent P boards chain ->
  (forall b, In b boards -> board_decodable P b) ->
  cache_exact slot_decode P cache ->
  let refreshed := snd (refresh_every_step P boards cache empty_accumulator) in
  (forall k,
     accumulators_exact P boards chain ->
     update_path FS P pos chain = Incremental k ->
     exists chain',
       update_accumulator_incremental P pos chain k = Some chain' /\
       let incremental := accumulator (record chain' (current chain')) in
       accumulation incremental P = accumulation refreshed P /\
       psqtAccumulation incremental P = psqtAccumulation refreshed P /\
       computed incremental P = true /\ computed refreshed P = true) /\
  ((1 < length chain)%nat ->
   (forall j, (j < length chain)%nat -> is_computed chain j P = false) ->
   (forall j, (0 < j < length chain)%nat ->
              requires_refresh FS (record chain j) P = false) ->
   exists chain',
     refresh_then_incremental P pos boards cache chain = Some chain' /\
     let incremental := accumulator (record chain' (current chain')) in
     accumulation incremental P = accumulation refreshed P /\
     psqtAccumulation incremental P = psqtAccumulation refreshed P /\
     computed incremental P = true /\ computed refreshed P = true).
Proof.
  intros Hne Hpos Hcons Hdec Hcache.
  apply (incremental_equals_refresh_decoded slot_decode P pos boards cache
           chain); try assumption.
  apply boards_slots_decode. exact Hdec.
Qed.

End Slots.

End Transformer.

(** ** A small transformer and a short game to run the paths on *)

Module Sample.

Import MoveGen.Xiangqi.

Definition type_code (pt : PieceType) : nat :=
  match pt with
  | NO_PIECE_TYPE => 0 | ROOK => 0 | ADVISOR => 1 | CANNON => 2 | PAWN => 3
  | KNIGHT => 4 | BISHOP => 5 | KING => 6
  end.

Definition piece_code (pc : Piece) : nat :=
  (match fst pc with WHITE => 0 | BLACK => 7 end + type_code (snd pc))%nat.

(** One king bucket, one attack bucket, no mirroring; a feature per piece
    and square; a record costs its number of dirty entries, a refresh the
    number of pieces on the board. *)
Definition features : FeatureSet :=
  {| KingBuckets := fun _ _ => (O, false);
     make_attack_bucket := fun _ _ => O;
     make_index := fun _ sq pc _ _ => (piece_code pc * 90 + N.to_nat sq)%nat;
     requires_refresh := fun _ _ => false;
     update_cost := fun st => Z.of_nat (length (dirtyPiece st));
     refresh_cost := fun pos => Z.of_nat (length (squares (pieces pos))) |}.

Definition king_cache_maps (s : Square) : nat := O.

(** Two lanes and one psqt bucket over the 14 x 90 features; the biases
    sit at the two ends of the 16-bit range. *)
Definition transformer : FeatureTransformer :=
  {| biases := [32000; -32000];
     weights := map (fun i => Z.of_nat ((i * 13) mod 1000))
                    (seq 0 2520);
     psqtWeights := map (fun i => 1000 * Z.of_nat i) (seq 0 1260) |}.

(** The cache as it is after a clear: every entry the biases, no psqt,
    an empty board. *)
Definition cleared : Cache :=
  fun _ _ => {| entry_accumulation := [32000; -32000];
                entry_psqtAccumulation := [0];
                byColorBB := fun _ => 0%N;
                byTypeBB := fun _ => 0%N |}.

(** White king e0 and rook, black king d9; the rook goes a1-a3-c3. *)
Definition board0 : Position :=
  place WHITE [(WHITE, KING, SQ_E0); (WHITE, ROOK, SQ_A1);
               (BLACK, KING, SQ_D9)] 0%N.
Definition board1 : Position :=
  place BLACK [(WHITE, KING, SQ_E0); (WHITE, ROOK, SQ_A3);
               (BLACK, KING, SQ_D9)] 0%N.
Definition board2 : Position :=
  place WHITE [(WHITE, KING, SQ_E0); (WHITE, ROOK, SQ_C3);
               (BLACK, KING, SQ_D9)] 0%N.

Definition rook_move (from to : Square) : DirtyPiece :=
  [{| dp_piece := (WHITE, ROOK); dp_from := Some from; dp_to := Some to |}].

Definition fresh (dp : DirtyPiece) : StateInfo :=
  {| dirtyPiece := dp; accumulator := empty_accumulator |}.

(** A root record whose accumulators count as computed. *)
Definition computed_root : StateInfo :=
  {| dirtyPiece := [];
     accumulator := {| accumulation := fun _ => [0; 0];
                       psqtAccumulation := fun _ => [0];
                       computed := fun _ => true |} |}.

Definition boards : list Position := [board0; board1; board2].

Definition chain : list StateInfo :=
  [fresh []; fresh (rook_move SQ_A1 SQ_A3); fresh (rook_move SQ_A3 SQ_C3)].

Definition chain_with_root : list StateInfo :=
  [computed_root; fresh (rook_move SQ_A1 SQ_A3);
   fresh (rook_move SQ_A3 SQ_C3)].

End Sample.

(** The sample history is consistent: each dirty piece moves the rook
    between the boards, and no record requires a refresh. *)
Lemma sample_history_consistent :
  history_consistent Sample.features WHITE Sample.boards Sample.chain.
Proof.
  split; [reflexivity|]. intros i Hi.
  assert (i = 0 \/ i = 1)%nat as [-> | ->] by (cbn in Hi; lia).
  - split; [|split; [reflexivity | intros; reflexivity]].
    vm_compute. apply perm_trans with
      (l' := [(WHITE, ROOK, 9%N); (WHITE, ROOK, 27%N); (WHITE, KING, 4%N);
              (BLACK, KING, 84%N)]).
    + apply Permutation_sym. apply Permutation_cons_append.
    + apply perm_skip. apply Permutation_cons_append.
  - split; [|split; [reflexivity | intros; reflexivity]].
    vm_compute. apply perm_trans with
      (l' := [(WHITE, ROOK, 27%N); (WHITE, ROOK, 29%N); (WHITE, KING, 4%N);
              (BLACK, KING, 84%N)]).
    + apply Permutation_sym. apply Permutation_cons_append.
    + apply perm_skip. apply Permutation_cons_append.
Defined.

(** One move after a root that a refresh has computed: the budget allows
    the walk back to the root, [update_accumulator] takes the
    incremental path, and the result is that of the forced refreshes. *)
Definition refreshed_root : StateInfo :=
  {| dirtyPiece := [];
     accumulator :=
       snd (update_accumulator_refresh 2 1 Sample.transformer Sample.features
              Sample.king_cache_maps true WHITE Sample.board0 Sample.cleared
              empty_accumulator) |}.

Definition one_move_chain : list StateInfo :=
  [refreshed_root; Sample.fresh (Sample.rook_move 9%N 27%N)].

Definition one_move_boards : list Position := [Sample.board0; Sample.board1].

Lemma one_move_consistent :
  history_consistent Sample.features WHITE one_move_boards one_move_chain.
Proof.
  split; [reflexivity|]. intros i Hi.
  assert (i = 0)%nat as -> by (cbn in Hi; lia).
  split; [|split; [reflexivity | intros; reflexivity]].
  vm_compute. apply perm_trans with
    (l' := [(WHITE, ROOK, 9%N); (WHITE, ROOK, 27%N); (WHITE, KING, 4%N);
            (BLACK, KING, 84%N)]).
  - apply Permutation_sym. apply Permutation_cons_append.
  - apply perm_skip. apply Permutation_cons_append.
Defined.

Lemma one_move_exact :
  accumulators_exact 2 1 Sample.transformer Sample.features WHITE
    one_move_boards one_move_chain.
Proof.
  intros i Hi Hc.
  assert (i = 0 \/ i = 1)%nat as [-> | ->] by (cbn in Hi; lia);
    [|discriminate Hc].
  split; vm_compute; reflexivity.
Defined.

Lemma one_move_path :
  update_path Sample.features WHITE Sample.board1 one_move_chain
  = Incremental 0.
Proof. vm_compute. reflexivity. Defined.

(** ** A transformer with king buckets, attack buckets and mirroring *)

Module Palace.

Import MoveGen.Xiangqi.

(** The cache index of a king square: the squares of file e come first,
    then those of file d, then those of file f. *)
Definition king_cache_maps (s : Square) : nat :=
  let row := Z.to_nat (rank_of s mod 3) in
  if file_of s =? 4 then row
  else if file_of s <? 4 then (3 + row)%nat else (6 + row)%nat.

(** Files d and f share their king buckets and differ in the mirror
    flag; on file e the flag follows the other king. *)
Definition king_bucket_of (cache_index : nat) : nat := (cache_index mod 3)%nat.
Definition mirror_of (cache_index : nat) : bool := (6 <=? cache_index)%nat.

(** Three king buckets, six attack buckets by the number of own rooks, a
    feature per bucket, mirror flag, piece and square. *)
Definition features : FeatureSet :=
  {| KingBuckets := fun ksq oksq =>
       (king_bucket_of (king_cache_maps ksq),
        if (king_cache_maps ksq <? 3)%nat then 4 <? file_of oksq
        else mirror_of (king_cache_maps ksq));
     make_attack_bucket := fun pos P =>
       (length (squares (pieces_cp pos P ROOK)) mod 6)%nat;
     make_index := fun _ sq pc bucket mirror =>
       (((bucket * 2 + (if mirror then 1 else 0)) * 14 + Sample.piece_code pc)
        * 90 + N.to_nat sq)%nat;
     requires_refresh := fun _ _ => false;
     update_cost := fun st => Z.of_nat (length (dirtyPiece st));
     refresh_cost := fun pos => Z.of_nat (length (squares (pieces pos))) |}.

(** The integers [start], [start + 1], ... *)
Fixpoint count_from (n : nat) (start : Z) : list Z :=
  match n with
  | O => []
  | S n' => start :: count_from n' (start + 1)
  end.

(** Two lanes and one psqt bucket over the 18 x 2 x 14 x 90 features. *)
Definition transformer : FeatureTransformer :=
  {| biases := [32000; -32000];
     weights := map (fun i => (i * 13) mod 1000)
                    (count_from (N.to_nat 90720) 0);
     psqtWeights := map (fun i => 1000 * i) (count_from (N.to_nat 45360) 0) |}.

(** White king e0 and rook, black king f9, so that the board is mirrored
    for WHITE; the rook goes a1-a3-c3. *)
Definition SQ_F9 : Square := 86%N.

Definition board0 : Position :=
  place WHITE [(WHITE, KING, SQ_E0); (WHITE, ROOK, SQ_A1);
               (BLACK, KING, SQ_F9)] 0%N.
Definition board1 : Position :=
  place BLACK [(WHITE, KING, SQ_E0); (WHITE, ROOK, SQ_A3);
               (BLACK, KING, SQ_F9)] 0%N.
Definition board2 : Position :=
  place WHITE [(WHITE, KING, SQ_E0); (WHITE, ROOK, SQ_C3);
               (BLACK, KING, SQ_F9)] 0%N.

Definition boards : list Position := [board0; board1; board2].

Definition chain : list StateInfo :=
  [Sample.fresh []; Sample.fresh (Sample.rook_move SQ_A1 SQ_A3);
   Sample.fresh (Sample.rook_move SQ_A3 SQ_C3)].

(** The root computed by a refresh, and one move played. *)
Definition refreshed_root : StateInfo :=
  {| dirtyPiece := [];
     accumulator :=
       snd (update_accumulator_refresh 2 1 transformer features
              king_cache_maps true WHITE board0 Sample.cleared
              empty_accumulator) |}.

Definition one_move_chain : list StateInfo :=
  [refreshed_root; Sample.fresh (Sample.rook_move SQ_A1 SQ_A3)].

Definition one_move_boards : list Position := [board0; board1].

End Palace.

(** For WHITE the boards are mirrored, in king bucket 0 and attack bucket
    1: the slot is (0 + 9) * 6 + 1. *)
Example palace_slot :
  feature_bucket Palace.features Palace.board2 WHITE = (1%nat, true) /\
  cache_slot Palace.features Palace.king_cache_maps Palace.board2 WHITE
  = 55%nat.
Proof. split; vm_compute; reflexivity. Qed.

Lemma palace_board_decodable b :
  In b Palace.boards ->
  board_decodable Palace.features Palace.king_cache_maps
    Palace.king_bucket_of Palace.mirror_of WHITE b.
Proof.
  intros Hb. destruct Hb as [<-|[<-|[<-|[]]]].
  all: split; [intros c; destruct c; vm_compute; reflexivity|].
  all: split; [|vm_compute; lia].
  all: split; [vm_compute; lia|].
  all: split; [vm_compute; reflexivity|].
  all: intros H; vm_compute in H; lia.
Defined.

Lemma palace_history_consistent :
  history_consistent Palace.features WHITE Palace.boards Palace.chain.
Proof.
  split; [reflexivity|]. intros i Hi.
  assert (i = 0 \/ i = 1)%nat as [-> | ->] by (cbn in Hi; lia).
  - split; [|split; [reflexivity | intros; vm_compute; reflexivity]].
    vm_compute. apply perm_trans with
      (l' := [(WHITE, ROOK, 9%N); (WHITE, ROOK, 27%N); (WHITE, KING, 4%N);
              (BLACK, KING, 86%N)]).
    + apply Permutation_sym. apply Permutation_cons_append.
    + apply perm_skip. apply Permutation_cons_append.
  - split; [|split; [reflexivity | intros; vm_compute; reflexivity]].
    vm_compute. apply perm_trans with
      (l' := [(WHITE, ROOK, 27%N); (WHITE, ROOK, 29%N); (WHITE, KING, 4%N);
              (BLACK, KING, 86%N)]).
    + apply Permutation_sym. apply Permutation_cons_append.
    + apply perm_skip. apply Permutation_cons_append.
Defined.

Lemma palace_cache_exact :
  cache_exact 2 1 Palace.transformer Palace.features
    (slot_decode Palace.king_bucket_of Palace.mirror_of) WHITE Sample.cleared.
Proof.
  intros slot. split; [vm_compute; reflexivity|].
  split; [vm_compute; reflexivity|].
  intros c. vm_compute. reflexivity.
Defined.

Lemma palace_one_move_consistent :
  history_consistent Palace.features WHITE Palace.one_move_boards
    Palace.one_move_chain.
Proof.
  split; [reflexivity|]. intros i Hi.
  assert (i = 0)%nat as -> by (cbn in Hi; lia).
  split; [|split; [reflexivity | intros; vm_compute; reflexivity]].
  vm_compute. apply perm_trans with
    (l' := [(WHITE, ROOK, 9%N); (WHITE, ROOK, 27%N); (WHITE, KING, 4%N);
            (BLACK, KING, 86%N)]).
  - apply Permutation_sym. apply Permutation_cons_append.
  - apply perm_skip. apply Permutation_cons_append.
Defined.

Lemma palace_one_move_exact :
  accumulators_exact 2 1 Palace.transformer Palace.features WHITE
    Palace.one_move_boards Palace.one_move_chain.
Proof.
  intros i Hi Hc.
  assert (i = 0 \/ i = 1)%nat as [-> | ->] by (cbn in Hi; lia);
    [|discriminate Hc].
  split; vm_compute; reflexivity.
Defined.

Lemma palace_one_move_path :
  update_path Palace.features WHITE Palace.board1 Palace.one_move_chain
  = Incremental 0.
Proof. vm_compute. reflexivity. Defined.

(** On the mirrored boards both ways end on the same accumulator: after
    one move, where [update_accumulator] itself takes the incremental
    path, and after two moves walked from the refreshed root; every
    refresh works on the entry of slot 55. *)
Lemma incremental_equals_refresh_witness :
  (update_path Palace.features WHITE Palace.board1 Palace.one_move_chain
   = Incremental 0 /\
   exists chain',
     update_accumulator_incremental 2 1 Palace.transformer Palace.features
       true WHITE Palace.board1 Palace.one_move_chain 0 = Some chain' /\
     accumulation (accumulator (record chain' (current chain'))) WHITE
     = accumulation
         (snd (refresh_every_step 2 1 Palace.transformer Palace.features
                 Palace.king_cache_maps true WHITE Palace.one_move_boards
                 Sample.cleared empty_accumulator)) WHITE) /\
  (history_consistent Palace.features WHITE Palace.boards Palace.chain /\
   exists chain',
     refresh_then_incremental 2 1 Palace.transformer Palace.features
       Palace.king_cache_maps true WHITE Palace.board2 Palace.boards
       Sample.cleared Palace.chain = Some chain' /\
     accumulation (accumulator (record chain' (current chain'))) WHITE
     = accumulation
         (snd (refresh_every_step 2 1 Palace.transformer Palace.features
                 Palace.king_cache_maps true WHITE Palace.boards
                 Sample.cleared empty_accumulator)) WHITE).
Proof.
  split.
  - split; [exact palace_one_move_path|].
    assert (Palace.one_move_chain <> []) as Hne by discriminate.
    assert (forall b, In b Palace.one_move_boards ->
              board_decodable Palace.features Palace.king_cache_maps
                Palace.king_bucket_of Palace.mirror_of WHITE b) as Hdec.
    { intros b Hb. apply palace_board_decodable.
      destruct Hb as [<-|[<-|[]]]; cbn; auto. }
    pose proof (incremental_equals_refresh 2 1 Palace.transformer
                  Palace.features Palace.king_cache_maps true
                  Palace.king_bucket_of Palace.mirror_of
                  WHITE Palace.board1 Palace.one_move_boards Sample.cleared
                  Palace.one_move_chain Hne eq_refl palace_one_move_consistent
                  Hdec palace_cache_exact) as H.
    cbv zeta in H. destruct H as [H _].
    destruct (H 0%nat palace_one_move_exact palace_one_move_path)
      as (chain' & E & Ha & _).
    exists chain'. split; [exact E | exact Ha].
  - split; [exact palace_history_consistent|].
    assert (Palace.chain <> []) as Hne by discriminate.
    pose proof (incremental_equals_refresh 2 1 Palace.transformer
                  Palace.features Palace.king_cache_maps true
                  Palace.king_bucket_of Palace.mirror_of
                  WHITE Palace.board2 Palace.boards Sample.cleared
                  Palace.chain Hne eq_refl palace_history_consistent
                  palace_board_decodable palace_cache_exact) as H.
    cbv zeta in H. destruct H as [_ H].
    destruct H as (chain' & E & Ha & _).
    + cbn. lia.
    + intros j Hj.
      assert (j = 0 \/ j = 1 \/ j = 2)%nat as [-> | [-> | ->]]
          by (cbn in Hj; lia); reflexivity.
    + intros j Hj. reflexivity.
    + exists chain'. split; [exact E | exact Ha].
Defined.

Example sample_accumulation_wraps :
  accumulation
    (snd (refresh_every_step 2 1 Sample.transformer Sample.features
            Sample.king_cache_maps true WHITE Sample.boards Sample.cleared
            empty_accumulator)) WHITE
  = [-32034; -30459].
Proof. vm_compute. reflexivity. Qed.

(** The accumulation of the mirrored board differs from that of the
    same pieces unmirrored: the features of the two lie in different
    columns. *)
Example palace_accumulation :
  accumulation
    (snd (refresh_every_step 2 1 Palace.transformer Palace.features
            Palace.king_cache_maps true WHITE Palace.boards Sample.cleared
            empty_accumulator)) WHITE
  <> accumulation
       (snd (refresh_every_step 2 1 Palace.transformer Sample.features
               Sample.king_cache_maps true WHITE Sample.boards Sample.cleared
               empty_accumulator)) WHITE.
Proof. vm_compute. discriminate. Qed.

(** On the mirrored chain, nothing computed yet, [update_accumulator]
    computes the current record, by a refresh on the entry of slot 55,
    which is exact afterwards. *)
Lemma update_accumulator_computed_witness :
  Palace.chain <> [] /\
  exists cache' chain',
    update_accumulator 2 1 Palace.transformer Palace.features
      Palace.king_cache_maps false WHITE Palace.board2 Sample.cleared
      Palace.chain = Some (cache', chain') /\
    is_computed chain' (current chain') WHITE = true /\
    entry_exact 2 1 Palace.transformer Palace.features
      (slot_decode Palace.king_bucket_of Palace.mirror_of) WHITE 55
      (cache' 55%nat WHITE).
Proof.
  assert (Palace.chain <> []) as Hne by discriminate.
  split; [exact Hne|].
  destruct (update_accumulator_computed 2 1 Palace.transformer Palace.features
              Palace.king_cache_maps false Palace.king_bucket_of
              Palace.mirror_of WHITE Palace.board2
              Palace.boards Sample.cleared Palace.chain)
    as (cache' & chain' & E & Hc & _ & _ & _ & Hce & _).
  - exact Hne.
  - reflexivity.
  - apply palace_board_decodable. cbn. auto.
  - exact palace_history_consistent.
  - intros i Hi Hc. exfalso.
    assert (i = 0 \/ i = 1 \/ i = 2)%nat as [-> | [-> | ->]]
        by (cbn in Hi; lia); discriminate Hc.
  - exact palace_cache_exact.
  - exists cache', chain'. split; [exact E|]. split; [exact Hc|].
    apply Hce.
Defined.

(** With the root computed and one move played, the budget of three
    pieces pays for the one record: the incremental path runs and gives
    what a refresh gives. *)
Example update_accumulator_incremental_run :
  let chain := [Sample.computed_root;
                Sample.fresh (Sample.rook_move 9%N 27%N)] in
  update_path Sample.features WHITE Sample.board1 chain = Incremental 0.
Proof. vm_compute. reflexivity. Qed.

(** C6, as stated, fails: on a board of three pieces (refresh cost 3),
    with the root computed and two quiet moves played (update cost 1
    each), a budget "decremented by each visited record's update cost"
    stays at 2 and 1 and the walk reaches the computed root; the code
    charges each record its cost plus one, overdraws at the second
    record (3 - 2 - 2 < 0), stops there and refreshes. *)
Lemma try_find_computed_accumulator_counterexample :
  let chain := Sample.chain_with_root in
  let pos := Sample.board2 in
  refresh_cost Sample.features pos = 3 /\
  update_cost Sample.features (record chain 2) = 1 /\
  update_cost Sample.features (record chain 1) = 1 /\
  is_computed chain 0 WHITE = true /\
  walk_back_spec Sample.features WHITE chain (current chain)
    (refresh_cost Sample.features pos) = 0%nat /\
  try_find_computed_accumulator Sample.features WHITE pos chain = 1%nat /\
  update_path Sample.features WHITE pos chain = Refresh.
Proof.
  cbv zeta. repeat split; vm_compute; reflexivity.
Qed.

(** The same chain under the code's own accounting: the walk ends on
    record 1, which is not computed, and the caller refreshes. *)
Lemma try_find_computed_accumulator_spec_witness :
  is_computed Sample.chain_with_root (current Sample.chain_with_root) WHITE
  = false /\
  (update_path Sample.features WHITE Sample.board2 Sample.chain_with_root
   = Refresh <->
   is_computed Sample.chain_with_root
     (try_find_computed_accumulator Sample.features WHITE Sample.board2
        Sample.chain_with_root) WHITE = false).
Proof.
  assert (is_computed Sample.chain_with_root
            (current Sample.chain_with_root) WHITE = false) as Hn
      by reflexivity.
  split; [exact Hn|].
  pose proof (try_find_computed_accumulator_spec Sample.features WHITE
                Sample.board2 Sample.chain_with_root) as H.
  cbv zeta in H.
  exact (proj2 (proj2 (proj2 (proj2 H)) Hn)).
Defined.

End NNUE.

(* ===================================================================== *)
(** * Register tiling: SIMDTiling of nnue_feature_transformer.h *)
(* ===================================================================== *)

Module Tiling.

(** The loop [for (int divisor = MaxRegisters; divisor > 1; --divisor)]
    of [BestRegisterCount], entered with [divisor]: the first divisor of
    [ideal] it meets, and 1 when it runs out. *)
Fixpoint divisor_loop (ideal divisor : nat) : nat :=
  match divisor with
  | S (S _ as d) =>
      if (ideal mod divisor =? 0)%nat then divisor else divisor_loop ideal d
  | _ => 1
  end.

(** [BestRegisterCount<SIMDRegisterType, LaneType, NumLanes,
    MaxRegisters>()], with [RegisterSize = sizeof(SIMDRegisterType)] and
    [LaneSize = sizeof(LaneType)]. *)
Definition BestRegisterCount (RegisterSize LaneSize NumLanes MaxRegisters : nat)
  : nat :=
  let ideal := (NumLanes * LaneSize / RegisterSize)%nat in
  if (ideal <=? MaxRegisters)%nat then ideal
  else divisor_loop ideal MaxRegisters.

(** The six static assertions of [BestRegisterCount]. *)
Definition register_asserts (NumRegistersSIMD RegisterSize LaneSize NumLanes
  MaxRegisters : nat) : bool :=
  (LaneSize <=? RegisterSize)%nat
  && (MaxRegisters <=? NumRegistersSIMD)%nat
  && (0 <? MaxRegisters)%nat
  && (0 <? NumRegistersSIMD)%nat
  && (RegisterSize mod LaneSize =? 0)%nat
  && ((NumLanes * LaneSize) mod RegisterSize =? 0)%nat.

(** The five vector builds of the header, in the order of its [#if]
    chain; the SSE2 build has 16 registers on a 64-bit target and 8
    otherwise. *)
Inductive VectorBuild :=
| USE_AVX512 | USE_AVX512F | USE_AVX2 | USE_SSE2 (Is64Bit : bool) | USE_NEON.

(** [sizeof(vec_t)], [sizeof(psqt_vec_t)], [NumRegistersSIMD] and
    [MaxChunkSize]. *)
Definition vec_t_size (unit : VectorBuild) : nat :=
  match unit with
  | USE_AVX512 | USE_AVX512F => 64
  | USE_AVX2 => 32
  | USE_SSE2 _ | USE_NEON => 16
  end.

Definition psqt_vec_t_size (unit : VectorBuild) : nat :=
  match unit with
  | USE_AVX512 | USE_AVX512F => 64
  | USE_AVX2 => 32
  | USE_SSE2 _ | USE_NEON => 16
  end.

Definition NumRegistersSIMD (unit : VectorBuild) : nat :=
  match unit with
  | USE_SSE2 Is64Bit => if Is64Bit then 16 else 8
  | _ => 16
  end.

Definition MaxChunkSize (unit : VectorBuild) : nat :=
  match unit with
  | USE_AVX512 | USE_AVX512F => 64
  | USE_AVX2 => 32
  | USE_SSE2 _ | USE_NEON => 16
  end.

Section SIMDTiling.

(** [template<IndexType TransformedFeatureWidth, IndexType HalfDimensions>
    class SIMDTiling], for a vector build; [PSQTBuckets] is the constant of
    the absent nnue_architecture.h. *)
Variable unit : VectorBuild.
Variables TransformedFeatureWidth HalfDimensions PSQTBuckets : nat.

(** [sizeof(WeightType)] and [sizeof(PSQTWeightType)] *)
Definition WeightType_size : nat := 2.
Definition PSQTWeightType_size : nat := 4.

Definition NumRegs : nat :=
  BestRegisterCount (vec_t_size unit) WeightType_size TransformedFeatureWidth
    (NumRegistersSIMD unit).

Definition NumPsqtRegs : nat :=
  BestRegisterCount (psqt_vec_t_size unit) PSQTWeightType_size PSQTBuckets
    (NumRegistersSIMD unit).

Definition TileHeight : nat := (NumRegs * vec_t_size unit / 2)%nat.
Definition PsqtTileHeight : nat := (NumPsqtRegs * psqt_vec_t_size unit / 4)%nat.

(** The static assertions the two instantiations of [BestRegisterCount]
    make. *)
Definition instantiation_asserts : bool :=
  register_asserts (NumRegistersSIMD unit) (vec_t_size unit) WeightType_size
    TransformedFeatureWidth (NumRegistersSIMD unit)
  && register_asserts (NumRegistersSIMD unit) (psqt_vec_t_size unit)
       PSQTWeightType_size PSQTBuckets (NumRegistersSIMD unit).

(** The lanes of the accumulation the tile loops of the refresh path
    write, in the order they write them: tile [j] starts at lane
    [j * TileHeight] and is held in [NumRegs] registers of
    [sizeof(vec_t) / 2] lanes each. *)
Definition tile_lanes : list nat :=
  flat_map (fun j =>
              flat_map (fun k =>
                          map (fun l => j * TileHeight
                                        + (k * (vec_t_size unit / 2) + l))%nat
                              (seq 0 (vec_t_size unit / 2)))
                       (seq 0 NumRegs))
           (seq 0 (HalfDimensions / TileHeight)).

(** The same for the psqt accumulation: registers of
    [sizeof(psqt_vec_t) / 4] lanes. *)
Definition psqt_tile_lanes : list nat :=
  flat_map (fun j =>
              flat_map (fun k =>
                          map (fun l => j * PsqtTileHeight
                                        + (k * (psqt_vec_t_size unit / 4) + l))%nat
                              (seq 0 (psqt_vec_t_size unit / 4)))
                       (seq 0 NumPsqtRegs))
           (seq 0 (PSQTBuckets / PsqtTileHeight)).

(** The two static assertions of the class itself. *)
Definition tile_asserts : bool :=
  (HalfDimensions mod TileHeight =? 0)%nat
  && (PSQTBuckets mod PsqtTileHeight =? 0)%nat.

End SIMDTiling.

(** ** The divisor search *)

Lemma divisor_loop_step ideal d :
  divisor_loop ideal (S (S d))
  = if (ideal mod S (S d) =? 0)%nat then S (S d)
    else divisor_loop ideal (S d).
Proof. reflexivity. Qed.

Lemma divisor_loop_bounds ideal divisor :
  (1 <= divisor_loop ideal divisor)%nat /\
  (divisor_loop ideal divisor <= Nat.max 1 divisor)%nat.
Proof.
  induction divisor as [|d IH]; [cbn; lia|].
  destruct d as [|d]; [cbn; lia|].
  rewrite divisor_loop_step.
  destruct (ideal mod S (S d) =? 0)%nat; lia.
Qed.

Lemma divisor_loop_divides ideal divisor :
  (ideal mod divisor_loop ideal divisor = 0)%nat.
Proof.
  induction divisor as [|d IH]; [apply Nat.mod_1_r|].
  destruct d as [|d]; [apply Nat.mod_1_r|].
  rewrite divisor_loop_step.
  destruct (ideal mod S (S d) =? 0)%nat eqn:E.
  - apply Nat.eqb_eq. exact E.
  - exact IH.
Qed.

Lemma divisor_loop_largest ideal divisor d :
  (0 < d <= divisor)%nat -> (ideal mod d = 0)%nat ->
  (d <= divisor_loop ideal divisor)%nat.
Proof.
  induction divisor as [|n IH]; intros Hd Hm; [lia|].
  destruct n as [|n].
  - cbn. lia.
  - rewrite divisor_loop_step.
    destruct (ideal mod S (S n) =? 0)%nat eqn:E; [lia|].
    apply Nat.eqb_neq in E.
    destruct (Nat.eq_dec d (S (S n))) as [->|Hne]; [congruence|].
    apply IH; [lia | exact Hm].
Qed.

Lemma BestRegisterCount_divides (R Sz n N : nat) :
  (0 < N)%nat -> (0 < n * Sz / R)%nat ->
  (1 <= BestRegisterCount R Sz n N <= N)%nat /\
  ((n * Sz / R) mod BestRegisterCount R Sz n N = 0)%nat.
Proof.
  intros HN Hideal. unfold BestRegisterCount.
  destruct (n * Sz / R <=? N)%nat eqn:E.
  - apply Nat.leb_le in E. split; [lia | apply Nat.Div0.mod_same].
  - destruct (divisor_loop_bounds (n * Sz / R) N) as [H1 H2].
    split; [lia | apply divisor_loop_divides].
Qed.

(** X1. [BestRegisterCount] returns the ideal register count when it fits,
    and otherwise the largest divisor of the ideal count that does not
    exceed [MaxRegisters]: in both cases a count between 1 and
    [MaxRegisters] that divides the ideal count, and no admissible divisor
    of the ideal count is larger. *)
Theorem BestRegisterCount_largest_divisor
  (RegisterSize LaneSize NumLanes MaxRegisters : nat) :
  let ideal := (NumLanes * LaneSize / RegisterSize)%nat in
  let best := BestRegisterCount RegisterSize LaneSize NumLanes MaxRegisters in
  (0 < MaxRegisters)%nat -> (0 < ideal)%nat ->
  (1 <= best <= MaxRegisters)%nat /\
  (ideal mod best = 0)%nat /\
  (forall d, (0 < d <= MaxRegisters)%nat -> (ideal mod d = 0)%nat ->
             (d <= best)%nat) /\
  ((ideal <= MaxRegisters)%nat -> best = ideal).
Proof.
  cbv zeta. intros Hmax Hideal. unfold BestRegisterCount.
  set (ideal := (NumLanes * LaneSize / RegisterSize)%nat) in *.
  destruct (ideal <=? MaxRegisters)%nat eqn:E.
  - apply Nat.leb_le in E. split; [lia|]. split; [apply Nat.Div0.mod_same|].
    split; [|reflexivity].
    intros d Hd Hm. apply Nat.Lcm0.mod_divide in Hm.
    apply Nat.divide_pos_le in Hm; lia.
  - apply Nat.leb_gt in E.
    destruct (divisor_loop_bounds ideal MaxRegisters) as [H1 H2].
    split; [lia|]. split; [apply divisor_loop_divides|].
    split; [|lia]. intros d Hd Hm. apply divisor_loop_largest; assumption.
Qed.

(** ** Tiles *)

Lemma map_offset_seq a n : map (fun l => (a + l)%nat) (seq 0 n) = seq a n.
Proof.
  revert a. induction n as [|n IH]; intros a; [reflexivity|].
  cbn [seq map]. rewrite Nat.add_0_r. f_equal.
  rewrite <- seq_shift, map_map.
  rewrite <- (IH (S a)). apply map_ext. intros l. lia.
Qed.

(** [m] runs of [n] consecutive indices, one after the other. *)
Lemma runs_cover (n m base : nat) (f : nat -> nat) :
  (forall j, f j = (base + j * n)%nat) ->
  flat_map (fun j => seq (f j) n) (seq 0 m) = seq base (m * n).
Proof.
  intros Hf. induction m as [|m IH]; [reflexivity|].
  rewrite seq_S, flat_map_app, IH. cbn [flat_map Nat.add].
  rewrite app_nil_r, Hf.
  replace (S m * n)%nat with (m * n + n)%nat by lia.
  rewrite seq_app. reflexivity.
Qed.

Lemma tiles_cover (L regs tiles : nat) :
  flat_map (fun j =>
              flat_map (fun k =>
                          map (fun l => (j * (regs * L) + (k * L + l))%nat)
                              (seq 0 L))
                       (seq 0 regs))
           (seq 0 tiles)
  = seq 0 (tiles * (regs * L)).
Proof.
  rewrite <- (runs_cover (regs * L) tiles 0 (fun j => (j * (regs * L))%nat))
    by reflexivity.
  apply flat_map_ext. intros j.
  rewrite <- (runs_cover L regs (j * (regs * L))
                (fun k => (j * (regs * L) + k * L)%nat)) by reflexivity.
  apply flat_map_ext. intros k.
  rewrite <- (map_offset_seq (j * (regs * L) + k * L) L).
  apply map_ext. intros l. lia.
Qed.

(** For a register of [R] bytes and lanes of [S] bytes, the best
    register count times the lanes of a register divides the number of
    lanes. *)
Lemma best_count_tiles (N R Sz n : nat) :
  (0 < Sz)%nat -> (0 < n)%nat ->
  register_asserts N R Sz n N = true ->
  let best := BestRegisterCount R Sz n N in
  let L := (R / Sz)%nat in
  (0 < L)%nat /\ (L * Sz = R)%nat /\ (0 < best)%nat /\
  (n mod (best * L) = 0)%nat /\ (best <= N)%nat.
Proof.
  intros HSz Hn Ha. unfold register_asserts in Ha.
  repeat match goal with
         | H : _ && _ = true |- _ => apply andb_prop in H; destruct H as [H ?]
         end.
  repeat match goal with
         | H : (_ <=? _)%nat = true |- _ => apply Nat.leb_le in H
         | H : (_ <? _)%nat = true |- _ => apply Nat.ltb_lt in H
         | H : (_ =? _)%nat = true |- _ => apply Nat.eqb_eq in H
         end.
  cbv zeta.
  assert (R = (R / Sz) * Sz)%nat as HR.
  { rewrite Nat.mul_comm. apply Nat.Div0.div_exact. assumption. }
  set (L := (R / Sz)%nat) in *.
  assert (0 < L)%nat as HL by nia.
  assert (n * Sz / R = n / L)%nat as Hideal.
  { rewrite HR. apply Nat.Div0.div_mul_cancel_r. lia. }
  assert (n mod L = 0)%nat as HnL.
  { match goal with
    | H : ((n * Sz) mod R = 0)%nat |- _ =>
        rewrite HR in H; rewrite Nat.Div0.mul_mod_distr_r in H
    end.
    nia. }
  assert (0 < n / L)%nat as Hpos.
  { apply Nat.Div0.div_exact in HnL. nia. }
  destruct (BestRegisterCount_divides R Sz n N) as (Hb & Hdiv);
    [assumption | rewrite Hideal; exact Hpos |].
  rewrite Hideal in Hdiv.
  split; [exact HL|]. split; [lia|]. split; [lia|]. split; [|lia].
  apply Nat.Lcm0.mod_divide. apply Nat.Lcm0.mod_divide in Hdiv.
  destruct Hdiv as [q Hq]. exists q.
  apply Nat.Div0.div_exact in HnL. rewrite HnL at 1. rewrite Hq. lia.
Qed.

Lemma tile_height_lanes (N R Sz n : nat) :
  (0 < Sz)%nat -> (0 < n)%nat ->
  register_asserts N R Sz n N = true ->
  let best := BestRegisterCount R Sz n N in
  (best * R / Sz = best * (R / Sz))%nat /\
  (n / (best * (R / Sz)) * (best * (R / Sz)) = n)%nat /\
  (n mod (best * (R / Sz)) = 0)%nat.
Proof.
  intros HSz Hn Ha.
  destruct (best_count_tiles N R Sz n HSz Hn Ha) as (HL & HR & Hb & Hm & _).
  cbv zeta in *. split; [|split; [|exact Hm]].
  - apply Nat.Lcm0.divide_div_mul_exact. exists (R / Sz)%nat. lia.
  - apply Nat.Div0.div_exact in Hm. lia.
Qed.

(** X2. Whenever the static assertions of [BestRegisterCount] hold for
    the accumulation and for the psqt accumulation, the two static
    assertions of [SIMDTiling] hold as well when the class is instantiated
    as the feature transformer does, with the transformed feature width for
    both parameters: the tile height divides the number of lanes.  The
    tile loops of the refresh path then visit every lane of the
    accumulation, and every psqt bucket, exactly once and in order, with
    no more registers than the unit has. *)
Theorem tiles_partition_lanes (unit : VectorBuild)
  (HalfDimensions PSQTBuckets : nat) :
  (0 < HalfDimensions)%nat -> (0 < PSQTBuckets)%nat ->
  instantiation_asserts unit HalfDimensions PSQTBuckets = true ->
  tile_asserts unit HalfDimensions HalfDimensions PSQTBuckets = true /\
  tile_lanes unit HalfDimensions HalfDimensions = seq 0 HalfDimensions /\
  psqt_tile_lanes unit PSQTBuckets = seq 0 PSQTBuckets /\
  (0 < NumRegs unit HalfDimensions <= NumRegistersSIMD unit)%nat /\
  (0 < NumPsqtRegs unit PSQTBuckets <= NumRegistersSIMD unit)%nat.
Proof.
  intros HH HP Ha. unfold instantiation_asserts in Ha.
  apply andb_prop in Ha. destruct Ha as [Ha Hp].
  assert (0 < WeightType_size)%nat as H2 by (unfold WeightType_size; lia).
  assert (0 < PSQTWeightType_size)%nat as H4
      by (unfold PSQTWeightType_size; lia).
  destruct (tile_height_lanes _ _ _ _ H2 HH Ha) as (Ht & Hc & Hm).
  destruct (tile_height_lanes _ _ _ _ H4 HP Hp) as (Ht' & Hc' & Hm').
  destruct (best_count_tiles _ _ _ _ H2 HH Ha) as (_ & _ & Hb & _ & Hn).
  destruct (best_count_tiles _ _ _ _ H4 HP Hp) as (_ & _ & Hb' & _ & Hn').
  cbv zeta in *.
  fold (NumRegs unit HalfDimensions) in Ht, Hc, Hm, Hb, Hn.
  fold (NumPsqtRegs unit PSQTBuckets) in Ht', Hc', Hm', Hb', Hn'.
  unfold WeightType_size in Ht, Hc, Hm.
  unfold PSQTWeightType_size in Ht', Hc', Hm'.
  split; [|split; [|split; [|split; [lia | lia]]]].
  - unfold tile_asserts, TileHeight, PsqtTileHeight.
    rewrite Ht, Ht', Hm, Hm'. reflexivity.
  - unfold tile_lanes, TileHeight. rewrite Ht, tiles_cover, Hc. reflexivity.
  - unfold psqt_tile_lanes, PsqtTileHeight.
    rewrite Ht', tiles_cover, Hc'. reflexivity.
Qed.

(** The AVX2 build of a transformer of 1024 outputs and 16 psqt buckets:
    16 registers of 16 lanes hold a tile of 256 lanes. *)
Lemma tiles_partition_lanes_witness :
  instantiation_asserts USE_AVX2 1024 16 = true /\
  tile_asserts USE_AVX2 1024 1024 16 = true /\
  TileHeight USE_AVX2 1024 = 256%nat.
Proof.
  assert (instantiation_asserts USE_AVX2 1024 16 = true) as Ha
      by (vm_compute; reflexivity).
  split; [exact Ha|]. split; [|vm_compute; reflexivity].
  exact (proj1 (tiles_partition_lanes USE_AVX2 1024 16
                  ltac:(lia) ltac:(lia) Ha)).
Defined.

(** Twelve lanes in registers of two lanes, at most four registers: the
    ideal count six does not fit, its largest divisor below five is
    three. *)
Lemma BestRegisterCount_largest_divisor_witness :
  BestRegisterCount 4 2 12 4 = 3%nat /\
  (1 <= BestRegisterCount 4 2 12 4 <= 4)%nat.
Proof.
  split; [reflexivity|].
  exact (proj1 (BestRegisterCount_largest_divisor 4 2 12 4
                  ltac:(lia) ltac:(vm_compute; lia))).
Defined.

End Tiling.

(* ===================================================================== *)
(** * Further properties of invert_permutation and permute *)
(* ===================================================================== *)

Module PermuteFacts.

Import Permute.
Import Parameters.

(** ** The inverse of an order *)

Lemma invert_permutation_NoDup order :
  is_permutation order -> NoDup (invert_permutation order).
Proof.
  intros Hp. apply (NoDup_nth _ 0%nat). intros i j Hi Hj E.
  rewrite invert_permutation_length in Hi, Hj.
  rewrite <- (invert_right order i Hp Hi), <- (invert_right order j Hp Hj), E.
  reflexivity.
Qed.

Lemma invert_permutation_is_permutation order :
  is_permutation order -> is_permutation (invert_permutation order).
Proof.
  intros Hp. unfold is_permutation.
  apply NoDup_Permutation_bis.
  - apply invert_permutation_NoDup. exact Hp.
  - rewrite length_seq. lia.
  - intros x Hx. apply In_nth with (d := 0%nat) in Hx.
    destruct Hx as [k [Hk <-]]. rewrite invert_permutation_length in *.
    apply in_seq. pose proof (invert_bound order k Hp Hk). lia.
Qed.

(** X3. The table [invert_permutation] computes from a permutation of
    0 .. Len-1 is again such a permutation, and inverting it gives the
    table back. *)
Theorem invert_permutation_involutive (order : list nat) :
  is_permutation order ->
  is_permutation (invert_permutation order) /\
  invert_permutation (invert_permutation order) = order.
Proof.
  intros Hp.
  pose proof (invert_permutation_is_permutation order Hp) as Hq.
  split; [exact Hq|].
  pose proof (invert_permutation_length order) as Hl.
  apply nth_ext with (d := 0%nat) (d' := 0%nat).
  - rewrite invert_permutation_length. exact Hl.
  - intros k Hk. rewrite invert_permutation_length, Hl in Hk.
    pose proof (is_permutation_bound order k Hp Hk) as Hb.
    rewrite <- (invert_left order k Hp Hk) at 1.
    apply invert_left; [exact Hq | rewrite Hl; exact Hb].
Qed.

(** The AVX-512 order and the table computed from it. *)
Lemma invert_permutation_involutive_witness :
  is_permutation (PackusEpi16Order TargetAVX512) /\
  invert_permutation (invert_permutation (PackusEpi16Order TargetAVX512))
  = [0; 2; 4; 6; 1; 3; 5; 7]%nat.
Proof.
  split; [apply PackusEpi16Order_permutation|].
  exact (proj2 (invert_permutation_involutive (PackusEpi16Order TargetAVX512)
                  (PackusEpi16Order_permutation TargetAVX512))).
Defined.

(** ** Permuting moves elements, and only moves them *)

Lemma permute_chunk_rearranges A B order (values : list A) :
  is_permutation order ->
  length values = (B * length order)%nat ->
  Permutation (permute_chunk B order values) values.
Proof.
  intros Hp Hlen. unfold permute_chunk.
  pose proof (Permutation_flat_map (fun o => block B o values) Hp) as H.
  rewrite !flat_map_concat_map in H.
  rewrite (concat_all_blocks A B (length order) values Hlen) in H.
  exact H.
Qed.

Lemma permute_chunks_rearranges A count B order (data : list A) :
  is_permutation order ->
  (count * (B * length order) <= length data)%nat ->
  Permutation (permute_chunks count B order data) data.
Proof.
  intros Hp. revert data.
  induction count as [|count IH]; intros data Hlen; [apply Permutation_refl|].
  cbn [permute_chunks].
  rewrite <- (firstn_skipn (B * length order) data) at 3.
  apply Permutation_app.
  - apply permute_chunk_rearranges; [exact Hp|].
    rewrite length_firstn. lia.
  - apply IH. rewrite length_skipn. lia.
Qed.

(** X4. [permute] with an order that is a permutation of the block
    numbers only rearranges the region: the result holds the same
    elements, each as often as before, and has the same size. *)
Theorem permute_rearranges (A : Type) (BlockSize : nat) (order : list nat)
  (data : list A) :
  is_permutation order ->
  Permutation (permute BlockSize data order) data /\
  length (permute BlockSize data order) = length data.
Proof.
  intros Hp.
  assert (Permutation (permute BlockSize data order) data) as H.
  { unfold permute. apply permute_chunks_rearranges; [exact Hp|].
    rewrite Nat.mul_comm. apply Nat.Div0.mul_div_le. }
  split; [exact H | apply Permutation_length; exact H].
Qed.

Lemma permute_rearranges_witness :
  is_permutation (PackusEpi16Order TargetAVX2) /\
  Permutation
    (permute 1 [10; 11; 12; 13; 14; 15; 16; 17]%Z (PackusEpi16Order TargetAVX2))
    [10; 11; 12; 13; 14; 15; 16; 17]%Z.
Proof.
  split; [apply PackusEpi16Order_permutation|].
  exact (proj1 (permute_rearranges Z 1 (PackusEpi16Order TargetAVX2)
                  [10; 11; 12; 13; 14; 15; 16; 17]%Z
                  (PackusEpi16Order_permutation TargetAVX2))).
Defined.

(** ** The identity order *)

Lemma permute_chunk_identity A B n (values : list A) :
  length values = (B * n)%nat ->
  permute_chunk B (seq 0 n) values = values.
Proof. intros Hlen. apply concat_all_blocks. exact Hlen. Qed.

Lemma permute_chunks_identity A count B n (data : list A) :
  (count * (B * n) <= length data)%nat ->
  permute_chunks count B (seq 0 n) data = data.
Proof.
  revert data. induction count as [|count IH]; intros data Hlen;
    [reflexivity|].
  cbn [permute_chunks]. rewrite length_seq.
  rewrite permute_chunk_identity by (rewrite length_firstn; lia).
  rewrite IH by (rewrite length_skipn; lia).
  apply firstn_skipn.
Qed.

Lemma permute_identity A B n (data : list A) :
  permute B data (seq 0 n) = data.
Proof.
  unfold permute. apply permute_chunks_identity. rewrite length_seq.
  rewrite Nat.mul_comm. apply Nat.Div0.mul_div_le.
Qed.

Lemma permute16_identity ws :
  Forall is_int16 ws -> permute16 ws (seq 0 8) = ws.
Proof.
  intros H. unfold permute16. rewrite permute_identity.
  apply bytes_of_int16s. exact H.
Qed.

(** X5. On a build that is neither AVX-512 nor AVX2 the packing order
    is the identity: [permute_weights] and [unpermute_weights] leave
    every bias and weight where it is, whatever the sizes of the arrays,
    so the order of the file is the order in memory. *)
Theorem permute_weights_default_target (ft : FeatureTransformer) :
  Forall is_int16 (biases ft) -> Forall is_int16 (weights ft) ->
  permute_weights TargetOther ft = ft /\
  unpermute_weights TargetOther ft = ft.
Proof.
  intros Hb Hw. unfold permute_weights, unpermute_weights.
  change (InversePackusEpi16Order TargetOther) with (seq 0 8).
  change (PackusEpi16Order TargetOther) with (seq 0 8).
  rewrite !permute16_identity by assumption.
  destruct ft; split; reflexivity.
Qed.

Lemma permute_weights_default_target_witness :
  permute_weights TargetOther ft_odd = ft_odd.
Proof.
  refine (proj1 (permute_weights_default_target ft_odd _ _));
    apply forallb_int16; vm_compute; reflexivity.
Defined.

End PermuteFacts.

(* ===================================================================== *)
(** * Further properties of read_parameters and write_parameters *)
(* ===================================================================== *)

Module ParameterFacts.

Import Permute.
Import Parameters.
Local Open Scope Z_scope.

(** The values of the file that doubling keeps inside [int16_t]. *)
Definition half_range (z : Z) : Prop := -16384 <= z < 16384.
Definition half_rangeb (z : Z) : bool := (-16384 <=? z) && (z <? 16384).

(** [read_parameters] on a stream, then [write_parameters] on an empty
    one: the integers written and the two results. *)
Definition load_then_save (H I P : nat) (t : simd_target)
  (ft0 : FeatureTransformer) (s : stream) : list Z * bool * bool :=
  let '(ft1, _, ok1) := read_parameters H I P t ft0 s in
  let '(_, s2, ok2) := write_parameters H I P t ft1 empty_stream in
  (items s2, ok1, ok2).

(** [write_parameters] twice in a row on the same stream. *)
Definition save_twice (H I P : nat) (t : simd_target)
  (ft : FeatureTransformer) (s : stream)
  : FeatureTransformer * FeatureTransformer * stream * stream :=
  let '(ft1, s1, _) := write_parameters H I P t ft s in
  let '(ft2, s2, _) := write_parameters H I P t ft1 s1 in
  (ft1, ft2, s1, s2).

Lemma half_rangeb_spec z : half_rangeb z = true <-> half_range z.
Proof. unfold half_rangeb, half_range. lia. Qed.

Lemma half_range_int16 z : half_range z -> is_int16 z.
Proof. unfold half_range, is_int16. lia. Qed.

Lemma wrap16_shift z k : wrap16 (z + 65536 * k) = wrap16 z.
Proof.
  unfold wrap16. f_equal.
  replace (z + 65536 * k + 32768) with (z + 32768 + k * 65536) by lia.
  apply Z.mod_add. lia.
Qed.

(** Doubling and halving again restores exactly the values of the half
    range. *)
Lemma scale_double_halve w :
  is_int16 w -> (scale false (scale true w) = w <-> half_range w).
Proof.
  unfold is_int16, half_range, scale. intros Hw.
  destruct (Z_lt_ge_dec w (-16384)) as [Hlo|Hlo];
    [|destruct (Z_lt_ge_dec w 16384) as [Hhi|Hhi]].
  - replace (w * 2) with (w * 2 + 65536 + 65536 * (-1)) by lia.
    rewrite wrap16_shift, (wrap16_id (w * 2 + 65536))
      by (unfold is_int16; lia).
    replace (w * 2 + 65536) with ((w + 32768) * 2) by lia.
    rewrite Z.quot_mul, wrap16_id by (unfold is_int16; lia). lia.
  - rewrite (wrap16_id (w * 2)) by (unfold is_int16; lia).
    rewrite Z.quot_mul, wrap16_id by (unfold is_int16; lia). lia.
  - replace (w * 2) with (w * 2 - 65536 + 65536 * 1) by lia.
    rewrite wrap16_shift, (wrap16_id (w * 2 - 65536))
      by (unfold is_int16; lia).
    replace (w * 2 - 65536) with ((w - 32768) * 2) by lia.
    rewrite Z.quot_mul, wrap16_id by (unfold is_int16; lia). lia.
Qed.

Lemma map_scale_double_halve ws :
  Forall half_range ws -> map (scale false) (map (scale true) ws) = ws.
Proof.
  induction 1 as [|w ws Hw Hws IH]; cbn [map]; [reflexivity|].
  rewrite IH. f_equal. apply scale_double_halve; [|exact Hw].
  apply half_range_int16. exact Hw.
Qed.

(** Halving and doubling again clears what the halving dropped. *)
Lemma scale_halve_double_any w :
  is_int16 w -> scale true (scale false w) = 2 * Z.quot w 2.
Proof.
  unfold is_int16, scale. intros Hw.
  assert (-16384 <= Z.quot w 2 <= 16383) as Hq
      by (Z.to_euclidean_division_equations; lia).
  rewrite (wrap16_id (Z.quot w 2)) by (unfold is_int16; lia).
  rewrite wrap16_id by (unfold is_int16; lia). lia.
Qed.

Lemma quot_cleared w : Z.quot (2 * Z.quot w 2) 2 = Z.quot w 2.
Proof. rewrite Z.mul_comm. apply Z.quot_mul. lia. Qed.

(** ** permute16 *)

Lemma permute16_map (f : Z -> Z) ws order :
  Forall is_int16 ws -> Forall is_int16 (map f ws) ->
  permute16 (map f ws) order = map f (permute16 ws order).
Proof.
  intros Hws Hf.
  rewrite (permute16_elements ws) by exact Hws.
  rewrite permute16_elements by exact Hf.
  apply permute_map.
Qed.

Lemma permute16_order_length t ws :
  Forall is_int16 ws -> (length ws mod 64 = 0)%nat ->
  length (permute16 ws (PackusEpi16Order t)) = length ws.
Proof.
  intros Hws Hlen. rewrite permute16_elements by exact Hws.
  apply permute_length.
  - intros j Hj. apply is_permutation_bound;
      [apply PackusEpi16Order_permutation | exact Hj].
  - rewrite PackusEpi16Order_length. exact Hlen.
Qed.

(** Permute, rewrite every element, unpermute: the rewrite alone
    remains. *)
Lemma permute16_sandwich_back t (f : Z -> Z) ws :
  (forall w, is_int16 (f w)) ->
  Forall is_int16 ws -> (length ws mod 64 = 0)%nat ->
  permute16 (map f (permute16 ws (PackusEpi16Order t)))
    (InversePackusEpi16Order t) = map f ws.
Proof.
  intros Hf Hws Hlen.
  rewrite (permute16_elements ws) by exact Hws.
  rewrite permute16_elements.
  - rewrite permute_map. f_equal.
    apply permute_then_inverse.
    + apply PackusEpi16Order_permutation.
    + rewrite PackusEpi16Order_length. exact Hlen.
  - apply Forall_forall. intros x Hx. apply in_map_iff in Hx.
    destruct Hx as [w [<- _]]. apply Hf.
Qed.

(** ** The transformer in memory *)

Lemma Forall_forallb (A : Type) (P : A -> Prop) (f : A -> bool) l :
  (forall x, P x -> f x = true) -> Forall P l -> forallb f l = true.
Proof.
  intros Hf H. apply forallb_forall. intros x Hx. apply Hf.
  revert x Hx. apply Forall_forall. exact H.
Qed.

Lemma well_sized_intro H I P ft :
  length (biases ft) = H -> length (weights ft) = (H * I)%nat ->
  length (psqtWeights ft) = (P * I)%nat -> (H mod 64 = 0)%nat ->
  Forall is_int16 (biases ft) -> Forall is_int16 (weights ft) ->
  Forall is_int32 (psqtWeights ft) ->
  well_sized H I P ft = true.
Proof.
  intros Lb Lw Lp Hm Rb Rw Rp. unfold well_sized.
  rewrite Lb, Lw, Lp, Hm, !Nat.eqb_refl.
  rewrite (Forall_forallb _ is_int16 is_int16b (biases ft))
    by (auto; intros; apply is_int16b_spec; assumption).
  rewrite (Forall_forallb _ is_int16 is_int16b (weights ft))
    by (auto; intros; apply is_int16b_spec; assumption).
  rewrite (Forall_forallb _ is_int32 is_int32b (psqtWeights ft))
    by (auto; intros; apply is_int32b_spec; assumption).
  reflexivity.
Qed.

Lemma Forall_half_int16 ws : Forall half_range ws -> Forall is_int16 ws.
Proof.
  intros H. eapply Forall_impl; [|exact H]. apply half_range_int16.
Qed.

(** What [read_parameters] leaves in memory for a stream that holds the
    three arrays. *)
Lemma read_parameters_loaded H I P t ft0 b w p rest :
  length b = H -> length w = (H * I)%nat -> length p = (P * I)%nat ->
  Forall is_int16 b -> Forall is_int16 w -> Forall is_int32 p ->
  read_parameters H I P t ft0
    {| items := b ++ w ++ p ++ rest; failbit := false |}
  = ({| biases := map (scale true) (permute16 b (PackusEpi16Order t));
        weights := map (scale true) (permute16 w (PackusEpi16Order t));
        psqtWeights := p |},
     {| items := rest; failbit := false |}, true).
Proof.
  intros Lb Lw Lp Rb Rw Rp. unfold read_parameters.
  rewrite (read_leb_128_exact wrap16 b _ _ _ Lb).
  rewrite (read_leb_128_exact wrap16 w _ _ _ Lw).
  rewrite (read_leb_128_exact wrap32 p _ _ _ Lp).
  rewrite !map_wrap16_id, map_wrap32_id by assumption.
  reflexivity.
Qed.

(** A bias of 16384 in the file is -32768 in memory and -16384 in the
    file written back. *)
Example scale_wraps_outside_half_range :
  scale true 16384 = -32768 /\ scale false (scale true 16384) = -16384.
Proof. split; reflexivity. Qed.

(** X6. Loading and saving again reproduces the file: when the stream
    holds the three arrays, the biases and weights within the half range
    of [int16_t] that doubling does not overflow, [read_parameters]
    followed by [write_parameters] succeeds twice and writes exactly the
    integers it read.  The half range is needed: doubling and halving
    restores a 16-bit value exactly when it lies in it. *)
Theorem load_then_save_reproduces (H I P : nat) (t : simd_target)
  (ft0 : FeatureTransformer) (b w p rest : list Z) :
  (H mod 64 = 0)%nat ->
  length b = H -> length w = (H * I)%nat -> length p = (P * I)%nat ->
  Forall half_range b -> Forall half_range w -> Forall is_int32 p ->
  load_then_save H I P t ft0
    {| items := b ++ w ++ p ++ rest; failbit := false |}
  = (b ++ w ++ p, true, true) /\
  (forall x, is_int16 x ->
     (scale false (scale true x) = x <-> half_range x)).
Proof.
  intros Hm Lb Lw Lp Hb Hw Rp.
  pose proof (Forall_half_int16 b Hb) as Rb.
  pose proof (Forall_half_int16 w Hw) as Rw.
  split; [|exact scale_double_halve].
  unfold load_then_save.
  rewrite (read_parameters_loaded H I P t ft0 b w p rest) by assumption.
  set (ft1 := {| biases := map (scale true) (permute16 b (PackusEpi16Order t));
                 weights := map (scale true) (permute16 w (PackusEpi16Order t));
                 psqtWeights := p |}).
  assert ((length b mod 64 = 0)%nat) as Mb by (rewrite Lb; exact Hm).
  assert ((length w mod 64 = 0)%nat) as Mw
      by (rewrite Lw; apply mod64_mul; exact Hm).
  assert (well_sized H I P ft1 = true) as Hws.
  { apply well_sized_intro; cbn [ft1 biases weights psqtWeights];
      auto using Forall_scale.
    - rewrite length_map, permute16_order_length; assumption.
    - rewrite length_map, permute16_order_length; assumption. }
  assert (doubled ft1 = true) as Hd.
  { unfold doubled. cbn [ft1 biases weights].
    apply andb_true_intro. split; apply forallb_forall; intros x Hx;
      apply in_map_iff in Hx; destruct Hx as [y [<- _]];
      apply scale_true_even. }
  rewrite (write_parameters_keeps H I P t ft1 empty_stream Hws Hd eq_refl).
  cbn [items empty_stream app]. f_equal. f_equal.
  unfold saved_image. cbn [ft1 biases weights psqtWeights].
  rewrite !permute16_sandwich_back by auto using scale_range.
  rewrite !map_scale_double_halve by assumption.
  reflexivity.
Qed.

(** A file of 64 biases, 64 weights and 8 psqt weights, loaded and saved
    on the AVX2 target. *)
Lemma load_then_save_reproduces_witness :
  let b := map (fun i => Z.of_nat i - 30) (seq 0 64) in
  let w := map (fun i => 16383 - 500 * Z.of_nat i) (seq 0 64) in
  let p := [1; -2; 3; -4; 5; -6; 7; -8] in
  Forall half_range b /\ Forall half_range w /\
  load_then_save 64 1 8 TargetAVX2 ft_odd
    {| items := b ++ w ++ p ++ [99]; failbit := false |}
  = (b ++ w ++ p, true, true).
Proof.
  cbv zeta.
  assert (forall l, forallb half_rangeb l = true -> Forall half_range l) as Hh.
  { intros l Hl. apply Forall_forall. intros x Hx. apply half_rangeb_spec.
    revert x Hx. apply forallb_forall. exact Hl. }
  assert (Forall half_range (map (fun i => Z.of_nat i - 30) (seq 0 64))) as Hb
      by (apply Hh; vm_compute; reflexivity).
  assert (Forall half_range
            (map (fun i => 16383 - 500 * Z.of_nat i) (seq 0 64))) as Hw
      by (apply Hh; vm_compute; reflexivity).
  split; [exact Hb|]. split; [exact Hw|].
  refine (proj1 (load_then_save_reproduces 64 1 8 TargetAVX2 ft_odd
                   (map (fun i => Z.of_nat i - 30) (seq 0 64))
                   (map (fun i => 16383 - 500 * Z.of_nat i) (seq 0 64))
                   [1; -2; 3; -4; 5; -6; 7; -8] [99]
                   eq_refl eq_refl eq_refl eq_refl Hb Hw _)).
  apply forallb_int32. vm_compute. reflexivity.
Defined.

(** ** Saving from any memory *)

(** A value with what halving drops cleared: the even value next to it
    towards zero. *)
Definition cleared (w : Z) : Z := 2 * Z.quot w 2.

Definition cleared_weights (ft : FeatureTransformer) : FeatureTransformer :=
  {| biases := map cleared (biases ft);
     weights := map cleared (weights ft);
     psqtWeights := psqtWeights ft |}.

Lemma cleared_int16 w : is_int16 w -> is_int16 (cleared w).
Proof.
  unfold is_int16, cleared. intros Hw.
  Z.to_euclidean_division_equations; lia.
Qed.

Lemma cleared_even w : Z.even (cleared w) = true.
Proof. unfold cleared. rewrite Z.even_mul. reflexivity. Qed.

Lemma scale_false_cleared w :
  is_int16 w -> scale false (cleared w) = scale false w.
Proof. intros Hw. unfold scale, cleared. rewrite quot_cleared. reflexivity. Qed.

Lemma map_scale_halve_double_any ws :
  Forall is_int16 ws ->
  map (scale true) (map (scale false) ws) = map cleared ws.
Proof.
  induction 1 as [|w ws Hw Hws IH]; cbn [map]; [reflexivity|].
  rewrite IH, scale_halve_double_any by exact Hw. reflexivity.
Qed.

Lemma Forall_cleared ws : Forall is_int16 ws -> Forall is_int16 (map cleared ws).
Proof.
  intros H. apply Forall_forall. intros x Hx. apply in_map_iff in Hx.
  destruct Hx as [w [<- Hw]]. apply cleared_int16.
  revert w Hw. apply Forall_forall. exact H.
Qed.

Lemma well_sized_cleared H I P ft :
  well_sized H I P ft = true ->
  well_sized H I P (cleared_weights ft) = true /\
  doubled (cleared_weights ft) = true.
Proof.
  intros Hwf.
  destruct (well_sized_facts H I P ft Hwf)
    as (Lb & Lw & Lp & Hm & Rb & Rw & Rp & _).
  split.
  - apply well_sized_intro; cbn [cleared_weights biases weights psqtWeights];
      rewrite ?length_map; auto using Forall_cleared.
  - unfold doubled. cbn [cleared_weights biases weights].
    apply andb_true_intro. split; apply forallb_forall; intros x Hx;
      apply in_map_iff in Hx; destruct Hx as [y [<- _]]; apply cleared_even.
Qed.

Lemma saved_image_cleared H I P t ft :
  well_sized H I P ft = true ->
  saved_image t (cleared_weights ft) = saved_image t ft.
Proof.
  intros Hwf.
  destruct (well_sized_facts H I P ft Hwf)
    as (Lb & Lw & Lp & Hm & Rb & Rw & Rp & _).
  unfold saved_image. cbn [cleared_weights biases weights psqtWeights].
  rewrite !(permute16_map cleared) by auto using Forall_cleared.
  rewrite !map_map.
  f_equal; [|f_equal]; apply map_ext_in; intros w Hw;
    apply scale_false_cleared.
  - assert (Forall is_int16 (permute16 (biases ft) (InversePackusEpi16Order t)))
      as Hp by (rewrite permute16_elements by exact Rb;
                apply permute_Forall; exact Rb).
    revert w Hw. apply Forall_forall. exact Hp.
  - assert (Forall is_int16 (permute16 (weights ft) (InversePackusEpi16Order t)))
      as Hp by (rewrite permute16_elements by exact Rw;
                apply permute_Forall; exact Rw).
    revert w Hw. apply Forall_forall. exact Hp.
Qed.

(** [write_parameters] from any memory of the declared sizes. *)
Lemma write_parameters_any H I P t ft s :
  well_sized H I P ft = true -> failbit s = false ->
  write_parameters H I P t ft s
  = (cleared_weights ft,
     {| items := items s ++ saved_image t ft; failbit := false |}, true).
Proof.
  intros Hwf Hs.
  destruct (well_sized_facts H I P ft Hwf)
    as (Lb & Lw & Lp & Hm & Rb & Rw & Rp & Mb & Mw).
  destruct ft as [b w p]. cbn [biases weights psqtWeights] in *.
  unfold write_parameters, unpermute_weights, scale_weights, permute_weights,
    write_leb_128, saved_image, cleared_weights.
  cbn [biases weights psqtWeights items failbit].
  rewrite !permute16_sandwich by auto using scale_range.
  rewrite !map_scale_halve_double_any by assumption.
  rewrite Hs. cbn [negb].
  rewrite (firstn_all2 (n := H)), (firstn_all2 (n := (H * I)%nat)),
    (firstn_all2 (n := (P * I)%nat) p).
  - rewrite <- !app_assoc. reflexivity.
  - lia.
  - rewrite length_map, permute16_inverse_length by auto. lia.
  - rewrite length_map, permute16_inverse_length by auto. lia.
Qed.

(** X7. [write_parameters] is not read-only: from any memory of the
    declared sizes it succeeds, and leaves every bias and weight rounded
    towards zero to an even value (the psqt weights as they were).
    Saving a second time changes nothing more and appends the same
    integers again. *)
Theorem write_parameters_rounds_once (H I P : nat) (t : simd_target)
  (ft : FeatureTransformer) (s : stream) :
  well_sized H I P ft = true -> failbit s = false ->
  exists image,
    write_parameters H I P t ft s
    = (cleared_weights ft,
       {| items := items s ++ image; failbit := false |}, true) /\
    save_twice H I P t ft s
    = (cleared_weights ft, cleared_weights ft,
       {| items := items s ++ image; failbit := false |},
       {| items := (items s ++ image) ++ image; failbit := false |}).
Proof.
  intros Hwf Hs. exists (saved_image t ft).
  pose proof (write_parameters_any H I P t ft s Hwf Hs) as H1.
  split; [exact H1|].
  unfold save_twice. rewrite H1.
  destruct (well_sized_cleared H I P ft Hwf) as [Hwf' Hd'].
  rewrite (write_parameters_keeps H I P t (cleared_weights ft)
             {| items := items s ++ saved_image t ft; failbit := false |}
             Hwf' Hd' eq_refl).
  cbn [items]. rewrite (saved_image_cleared H I P t ft Hwf). reflexivity.
Qed.

(** The transformer with one odd bias: the bias 1 is 0 after the first
    save and stays 0. *)
Lemma write_parameters_rounds_once_witness :
  well_sized 64 1 8 ft_odd = true /\
  biases (fst (fst (write_parameters 64 1 8 TargetAVX512 ft_odd empty_stream)))
  = repeat 0 64.
Proof.
  split; [reflexivity|].
  destruct (write_parameters_rounds_once 64 1 8 TargetAVX512 ft_odd
              empty_stream eq_refl eq_refl) as [image [E _]].
  rewrite E. reflexivity.
Defined.

End ParameterFacts.

(* ===================================================================== *)
(** * Further properties of pikafish_stdout_read *)
(* ===================================================================== *)

Module FFIFacts.

Import FFI.
Local Open Scope Z_scope.

(** No terminator among the bytes. *)
Definition text (l : list byte) : Prop := Forall (fun c => c <> NUL) l.

Lemma c_string_text l : text l -> c_string l = l.
Proof.
  induction 1 as [|x l Hx Hl IH]; cbn [c_string]; [reflexivity|].
  apply byte_eqb_neq in Hx. rewrite Hx, IH. reflexivity.
Qed.

Lemma c_string_app_NUL l r : c_string (l ++ NUL :: r) = c_string l.
Proof.
  induction l as [|x l IH]; cbn [c_string app].
  - reflexivity.
  - destruct (Byte.eqb x NUL); [reflexivity | rewrite IH; reflexivity].
Qed.

Lemma c_string_length l : (length (c_string l) <= length l)%nat.
Proof.
  induction l as [|x l IH]; cbn [c_string length]; [lia|].
  destruct (Byte.eqb x NUL); cbn [length]; lia.
Qed.

Lemma text_firstn n l : text l -> text (firstn n l).
Proof.
  intros H. apply Forall_forall. intros x Hx.
  apply (proj1 (Forall_forall _ l) H).
  rewrite <- (firstn_skipn n l). apply in_or_app. left. exact Hx.
Qed.

(** One call on delivered bytes: the buffer afterwards is the bytes
    read, a terminator and what the buffer held behind it; the result is
    decided by [strcmp]. *)
Lemma stdout_read_data (pending buffer : list byte) :
  length buffer = BUFFER_SIZE ->
  let chunk := firstn (BUFFER_SIZE - 1) pending in
  exists rest z,
    pikafish_stdout_read (PipeData pending) buffer
    = (match z with 0 => NULL | _ => BUFFER end, chunk ++ NUL :: rest) /\
    (z = 0 <-> c_string chunk = QUITOK_chars) /\
    length (chunk ++ NUL :: rest) = BUFFER_SIZE /\
    (length chunk <= BUFFER_SIZE - 1)%nat.
Proof.
  intros Hlen chunk.
  destruct (read_buffer_shape pending buffer Hlen) as [Hc [rest [Hst Hl]]].
  fold chunk in Hc, Hst, Hl.
  destruct (strcmp_terminated chunk QUITOK_chars rest []) as [z [Hz Hiff]].
  exists rest, z.
  unfold pikafish_stdout_read, sys_read. fold chunk.
  assert ((Z.of_nat (length chunk) <? 0) = false) as Hneg
      by (apply Z.ltb_ge; lia).
  rewrite Hneg, Nat2Z.id, Hst. unfold QUITOK. rewrite Hz.
  split; [destruct z; reflexivity|].
  split; [exact Hiff|]. split; [exact Hl | exact Hc].
Qed.

Lemma firstn_whole (A : Type) n (l : list A) :
  (length (firstn n l) < n)%nat -> firstn n l = l.
Proof.
  intros H. rewrite length_firstn in H. apply firstn_all2. lia.
Qed.

(** X8. For output without NUL bytes, [pikafish_stdout_read] reports
    the end of the engine (NULL) exactly when one [read] delivers the
    seven bytes "quitok\n" and nothing else.  When the farewell arrives
    in the same [read] behind other output, or only its beginning
    arrives, the call hands the bytes on as ordinary output. *)
Theorem quitok_must_arrive_alone (pending buffer : list byte) :
  length buffer = BUFFER_SIZE -> text pending ->
  (fst (pikafish_stdout_read (PipeData pending) buffer) = NULL
   <-> pending = QUITOK_chars) /\
  (forall output, output <> [] -> pending = output ++ QUITOK_chars ->
     fst (pikafish_stdout_read (PipeData pending) buffer) = BUFFER) /\
  (forall n, (n < 7)%nat -> pending = firstn n QUITOK_chars ->
     fst (pikafish_stdout_read (PipeData pending) buffer) = BUFFER).
Proof.
  intros Hlen Htext.
  destruct (stdout_read_data pending buffer Hlen)
    as (rest & z & E & Hz & _ & _).
  rewrite E. cbn [fst].
  rewrite (c_string_text _ (text_firstn _ _ Htext)) in Hz.
  assert (z = 0 <-> pending = QUITOK_chars) as Hiff.
  { rewrite Hz. split.
    - intros Hq. rewrite <- Hq. symmetry. apply firstn_whole.
      rewrite Hq. cbn. lia.
    - intros ->. reflexivity. }
  assert (forall P : Prop, (pending = QUITOK_chars -> False) ->
            match z with 0 => NULL | _ => BUFFER end = BUFFER) as Hno.
  { intros _ Hne. destruct z; [|reflexivity..]. exfalso. tauto. }
  split; [|split].
  - rewrite <- Hiff. destruct z; split; congruence.
  - intros output Hne ->. apply (Hno True). intros Hq.
    apply (f_equal (@length byte)) in Hq. rewrite length_app in Hq.
    destruct output; [congruence | cbn in Hq; lia].
  - intros n Hn ->. apply (Hno True). intros Hq.
    apply (f_equal (@length byte)) in Hq. rewrite length_firstn in Hq.
    cbn in Hq. lia.
Qed.

(** "bestmove a0a1\n" and the farewell in one read come back as
    output. *)
Lemma quitok_must_arrive_alone_witness :
  let output := [x62; x65; x73; x74; x6d; x6f; x76; x65; x20;
                 x61; x30; x61; x31; x0a] in
  text (output ++ QUITOK_chars) /\
  fst (pikafish_stdout_read (PipeData (output ++ QUITOK_chars))
         (repeat NUL 80)) = BUFFER.
Proof.
  cbv zeta.
  assert (text ([x62; x65; x73; x74; x6d; x6f; x76; x65; x20;
                 x61; x30; x61; x31; x0a] ++ QUITOK_chars)) as Ht
      by (repeat constructor; discriminate).
  split; [exact Ht|].
  refine (proj1 (proj2 (quitok_must_arrive_alone _ (repeat NUL 80)
                          eq_refl Ht)) _ _ eq_refl).
  discriminate.
Defined.

(** X9. What the caller reads through the returned pointer is the bytes
    of this [read] up to their first NUL byte, at most 79 characters:
    bytes behind a NUL byte in the output are lost to the caller, and
    nothing of what earlier calls left in the static buffer shows, since
    neither the result nor the string depends on the buffer's previous
    content. *)
Theorem stdout_read_returns_this_read (pending buffer buffer0 : list byte) :
  length buffer = BUFFER_SIZE -> length buffer0 = BUFFER_SIZE ->
  let r := pikafish_stdout_read (PipeData pending) buffer in
  let r0 := pikafish_stdout_read (PipeData pending) buffer0 in
  c_string (snd r) = c_string (firstn 79 pending) /\
  (length (c_string (snd r)) <= 79)%nat /\
  fst r = fst r0 /\
  c_string (snd r) = c_string (snd r0).
Proof.
  intros Hlen Hlen0. cbv zeta.
  destruct (stdout_read_data pending buffer Hlen)
    as (rest & z & E & Hz & _ & Hc).
  destruct (stdout_read_data pending buffer0 Hlen0)
    as (rest0 & z0 & E0 & Hz0 & _ & _).
  rewrite E, E0. cbn [fst snd]. rewrite !c_string_app_NUL.
  change (BUFFER_SIZE - 1)%nat with 79%nat in *.
  split; [reflexivity|]. split; [|split; [|reflexivity]].
  - pose proof (c_string_length (firstn 79 pending)). lia.
  - assert (z = 0 <-> z0 = 0) as H by tauto.
    destruct z, z0; try reflexivity; exfalso;
      try (assert (0 = 0) as H0 by reflexivity; apply H in H0; discriminate);
      try (assert (0 = 0) as H0 by reflexivity; apply (proj2 H) in H0;
           discriminate).
Qed.

(** After a long line, a short one: "ok\n" read into a buffer full of
    'x' gives the string "ok\n". *)
Lemma stdout_read_returns_this_read_witness :
  length (repeat x78 80) = BUFFER_SIZE /\
  c_string (snd (pikafish_stdout_read (PipeData [x6f; x6b; x0a])
                   (repeat x78 80)))
  = [x6f; x6b; x0a].
Proof.
  split; [reflexivity|].
  exact (proj1 (stdout_read_returns_this_read [x6f; x6b; x0a]
                  (repeat x78 80) (repeat NUL 80) eq_refl eq_refl)).
Defined.

End FFIFacts.

(* ===================================================================== *)
(** * Further properties of the move generators *)
(* ===================================================================== *)

Module MoveGenFacts.

Import Board.
Import MoveGen.
Local Open Scope N_scope.

(** Solves a goal about the bits of bitboards built with and, or and
    complement, from hypotheses of the same kind. *)
Ltac bits :=
  repeat match goal with
         | H : context [N.testbit (N.land _ _) _] |- _ =>
             rewrite N.land_spec in H
         | H : context [N.testbit (N.lor _ _) _] |- _ =>
             rewrite N.lor_spec in H
         | H : context [N.testbit (bb_not _) _] |- _ =>
             rewrite bb_not_spec in H
         | |- context [N.testbit (N.land _ _) _] => rewrite N.land_spec
         | |- context [N.testbit (N.lor _ _) _] => rewrite N.lor_spec
         | |- context [N.testbit (bb_not _) _] => rewrite bb_not_spec
         end;
  repeat match goal with
         | H : _ && _ = true |- _ => apply andb_prop in H; destruct H
         | H : _ || _ = true |- _ => apply orb_prop in H; destruct H
         | H : negb _ = true |- _ => apply negb_true_iff in H
         end.

Section Safety.

Variable T : Tables.
Variable legal : Position -> Move -> bool.

(** A target that holds no own piece. *)
Definition spares_own (pos : Position) (Us : Color) (target : Bitboard)
  : Prop :=
  forall s, N.testbit target s = true ->
            N.testbit (pieces_c pos Us) s = false.

Lemma opponent_not_own pos Us s :
  well_formed pos = true ->
  N.testbit (pieces_c pos (flip Us)) s = true ->
  N.testbit (pieces_c pos Us) s = false.
Proof.
  intros Hwf H. pose proof (colours_apart pos (flip Us) s Hwf H) as E.
  destruct Us; exact E.
Qed.

Lemma empty_not_own pos Us s :
  well_formed pos = true ->
  N.testbit (pieces pos) s = false ->
  N.testbit (pieces_c pos Us) s = false.
Proof.
  intros Hwf H. rewrite (occupancy_bit pos Us s Hwf) in H.
  apply orb_false_elim in H. tauto.
Qed.

Lemma all_target_spares_own Us Ty pos :
  well_formed pos = true -> spares_own pos Us (all_target Us Ty pos).
Proof.
  intros Hwf s. unfold all_target.
  destruct Ty; cbn [GenType_eqb]; intros H; bits;
    auto using opponent_not_own, empty_not_own.
Qed.

Lemma destinations_spare_own Us Pt Ty pos target from :
  well_formed pos = true -> spares_own pos Us target ->
  spares_own pos Us (destinations T Us Pt Ty pos target from).
Proof.
  intros Hwf Ht s. unfold destinations.
  destruct Pt; cbn [PieceType_eqb negb]; intros H;
    try (bits; auto; fail).
  destruct Ty; cbn [GenType_eqb negb] in H; bits;
    try discriminate; auto using opponent_not_own, empty_not_own.
Qed.

Lemma king_is_own pos Us :
  well_formed pos = true ->
  N.testbit (pieces_c pos Us) (king_square pos Us) = true.
Proof.
  intros Hwf.
  destruct (well_formed_facts pos Hwf) as (_ & _ & _ & _ & _ & KW & KB).
  apply pieces_cp_bits in KW, KB. destruct Us; tauto.
Qed.

Lemma generate_all_safe Us Ty pos m :
  well_formed pos = true ->
  In m (generate_all T Us Ty pos) ->
  N.testbit (pieces_c pos Us) (from_sq m) = true /\
  N.testbit (pieces_c pos Us) (to_sq m) = false.
Proof.
  intros Hwf Hin. apply In_generate_all in Hin.
  destruct Hin as [[Pt [_ [Hf Hd]]]|[_ [Hf Hd]]].
  - apply pieces_cp_bits in Hf. split; [tauto|].
    exact (destinations_spare_own Us Pt Ty pos _ _ Hwf
             (all_target_spares_own Us Ty pos Hwf) _ Hd).
  - rewrite Hf. split; [apply king_is_own; exact Hwf|].
    bits. apply (all_target_spares_own Us Ty pos Hwf). assumption.
Qed.

Lemma evasion_target_spares_own pos :
  spares_own pos (side_to_move pos) (evasion_target T pos).
Proof.
  intros s H. unfold evasion_target in H. bits. assumption.
Qed.

Lemma generate_EVASIONS_safe pos m :
  well_formed pos = true ->
  In m (generate_EVASIONS T pos) ->
  N.testbit (pieces_c pos (side_to_move pos)) (from_sq m) = true /\
  N.testbit (pieces_c pos (side_to_move pos)) (to_sq m) = false.
Proof.
  intros Hwf. unfold generate_EVASIONS.
  destruct (more_than_one (checkers pos)).
  - rewrite generate_plain_side. apply generate_all_safe. exact Hwf.
  - rewrite !in_app_iff, evasion_piece_moves_eq.
    intros [Hin|[Hin|Hin]].
    + apply In_generate_moves in Hin. destruct Hin as [Pt [_ [Hf Hd]]].
      apply pieces_cp_bits in Hf. split; [tauto|].
      exact (destinations_spare_own _ Pt EVASIONS pos _ _ Hwf
               (evasion_target_spares_own pos) _ Hd).
    + apply In_moves_from in Hin. destruct Hin as [Hf Hb]. rewrite Hf.
      split; [apply king_is_own; exact Hwf|].
      unfold evasion_king_bb in Hb.
      destruct (PieceType_eqb _ ROOK || PieceType_eqb _ CANNON);
        bits; assumption.
    + apply In_evasion_hurdle_moves in Hin.
      destruct Hin as (_ & Hh & Hf & Hb). rewrite Hf. split.
      * apply lsb_set in Hh. unfold evasion_hurdle in Hh. bits. assumption.
      * unfold evasion_hurdle_bb in Hb.
        destruct (type_on pos (lsb (evasion_hurdle T pos)));
          cbn [PieceType_eqb] in Hb; bits;
          auto using opponent_not_own, empty_not_own.
Qed.

Lemma generate_LEGAL_candidates pos m :
  In m (generate_LEGAL T legal pos) <->
  In m (if negb (checkers pos =? 0) then generate_EVASIONS T pos
        else generate_plain T PSEUDO_LEGAL pos)
  /\ legal pos m = true.
Proof.
  unfold generate_LEGAL. rewrite <- filter_In.
  split; apply Permutation_in;
    [apply legal_loop_filter | symmetry; apply legal_loop_filter].
Qed.

(** X10. On a well-formed board every move any of the five generators
    writes starts on a square that holds a piece of the side to move and
    ends on a square that holds none of its pieces: no generator moves an
    opponent's piece or an empty square, and none takes an own piece. *)
Theorem generated_moves_spare_own_pieces (Type' : GenType) (pos : Position)
  (m : Move) :
  well_formed pos = true ->
  In m (generate T legal Type' pos) ->
  N.testbit (pieces_c pos (side_to_move pos)) (from_sq m) = true /\
  N.testbit (pieces_c pos (side_to_move pos)) (to_sq m) = false.
Proof.
  intros Hwf Hin.
  assert (forall Ty, In m (generate_plain T Ty pos) ->
            N.testbit (pieces_c pos (side_to_move pos)) (from_sq m) = true /\
            N.testbit (pieces_c pos (side_to_move pos)) (to_sq m) = false)
    as Hplain.
  { intros Ty H. rewrite generate_plain_side in H.
    exact (generate_all_safe _ Ty pos m Hwf H). }
  destruct Type'; cbn [generate] in Hin; try exact (Hplain _ Hin).
  - apply generate_EVASIONS_safe; assumption.
  - apply generate_LEGAL_candidates in Hin. destruct Hin as [Hin _].
    destruct (negb (checkers pos =? 0)); [|exact (Hplain _ Hin)].
    apply generate_EVASIONS_safe; assumption.
Qed.

End Safety.

(** The rook's capture c3xe3 in the open position: from a white piece
    to a square without one. *)
Lemma generated_moves_spare_own_pieces_witness :
  well_formed Xiangqi.open_position = true /\
  N.testbit (pieces_c Xiangqi.open_position WHITE) Xiangqi.SQ_C3 = true /\
  N.testbit (pieces_c Xiangqi.open_position WHITE) Xiangqi.SQ_E3 = false.
Proof.
  assert (well_formed Xiangqi.open_position = true) as Hwf
      by (vm_compute; reflexivity).
  split; [exact Hwf|].
  assert (In (mk_move Xiangqi.SQ_C3 Xiangqi.SQ_E3)
            (generate Xiangqi.tables (fun _ _ => true) CAPTURES
               Xiangqi.open_position)) as Hc by (vm_compute; tauto).
  exact (generated_moves_spare_own_pieces Xiangqi.tables (fun _ _ => true)
           CAPTURES Xiangqi.open_position
           (mk_move Xiangqi.SQ_C3 Xiangqi.SQ_E3) Hwf Hc).
Defined.

Section Modes.

Variable T : Tables.
Variable legal : Position -> Move -> bool.

(** The relations between the bits of a square on a well-formed board:
    an own piece is not an opponent's, the occupancy is both together,
    and a piece stands inside the word. *)
Lemma square_bits pos Us s :
  well_formed pos = true ->
  N.testbit (pieces pos) s
  = N.testbit (pieces_c pos Us) s || N.testbit (pieces_c pos (flip Us)) s /\
  (N.testbit (pieces_c pos Us) s = true ->
   N.testbit (pieces_c pos (flip Us)) s = false) /\
  (N.testbit (pieces_c pos Us) s = true -> (s <? BB_BITS) = true) /\
  (N.testbit (pieces_c pos (flip Us)) s = true -> (s <? BB_BITS) = true).
Proof.
  intros Hwf. split; [apply occupancy_bit; exact Hwf|].
  split; [apply colours_apart; exact Hwf|].
  split; apply colour_below; exact Hwf.
Qed.

Lemma destinations_take Us Pt pos from s :
  well_formed pos = true ->
  N.testbit (destinations T Us Pt CAPTURES pos
               (all_target Us CAPTURES pos) from) s
  = N.testbit (destinations T Us Pt PSEUDO_LEGAL pos
                 (all_target Us PSEUDO_LEGAL pos) from) s
    && N.testbit (pieces_c pos (flip Us)) s.
Proof.
  intros Hwf. destruct (square_bits pos Us s Hwf) as (Ho & Ha & Hb & Hc).
  unfold destinations, all_target.
  destruct Pt; cbn [PieceType_eqb GenType_eqb negb N.lor];
    rewrite ?N.lor_spec, ?N.land_spec, ?bb_not_spec, ?Ho;
    destruct (N.testbit (pieces_c pos Us) s),
      (N.testbit (pieces_c pos (flip Us)) s), (s <? BB_BITS);
    try specialize (Ha eq_refl); try specialize (Hb eq_refl);
    try specialize (Hc eq_refl); try discriminate;
    cbn; rewrite ?andb_false_r, ?andb_true_r, ?orb_false_r; reflexivity.
Qed.

Lemma destinations_stay Us Pt pos from s :
  well_formed pos = true ->
  N.testbit (destinations T Us Pt QUIETS pos
               (all_target Us QUIETS pos) from) s
  = N.testbit (destinations T Us Pt PSEUDO_LEGAL pos
                 (all_target Us PSEUDO_LEGAL pos) from) s
    && negb (N.testbit (pieces pos) s).
Proof.
  intros Hwf. destruct (square_bits pos Us s Hwf) as (Ho & Ha & Hb & Hc).
  unfold destinations, all_target.
  destruct Pt; cbn [PieceType_eqb GenType_eqb negb N.lor];
    rewrite ?N.lor_spec, ?N.land_spec, ?bb_not_spec, ?Ho;
    destruct (N.testbit (pieces_c pos Us) s),
      (N.testbit (pieces_c pos (flip Us)) s), (s <? BB_BITS);
    try specialize (Ha eq_refl); try specialize (Hb eq_refl);
    try specialize (Hc eq_refl); try discriminate;
    cbn; rewrite ?andb_false_r, ?andb_true_r, ?orb_false_r; reflexivity.
Qed.

Lemma king_target_take Us pos s :
  well_formed pos = true ->
  N.testbit (all_target Us CAPTURES pos) s
  = N.testbit (all_target Us PSEUDO_LEGAL pos) s
    && N.testbit (pieces_c pos (flip Us)) s.
Proof.
  intros Hwf. destruct (square_bits pos Us s Hwf) as (Ho & Ha & Hb & Hc).
  unfold all_target. cbn [GenType_eqb]. rewrite bb_not_spec.
  destruct (N.testbit (pieces_c pos Us) s),
    (N.testbit (pieces_c pos (flip Us)) s), (s <? BB_BITS);
    try specialize (Ha eq_refl); try specialize (Hc eq_refl);
    try discriminate; reflexivity.
Qed.

Lemma king_target_stay Us pos s :
  well_formed pos = true ->
  N.testbit (all_target Us QUIETS pos) s
  = N.testbit (all_target Us PSEUDO_LEGAL pos) s
    && negb (N.testbit (pieces pos) s).
Proof.
  intros Hwf. destruct (square_bits pos Us s Hwf) as (Ho & Ha & Hb & Hc).
  unfold all_target. cbn [GenType_eqb]. rewrite !bb_not_spec, Ho.
  destruct (N.testbit (pieces_c pos Us) s),
    (N.testbit (pieces_c pos (flip Us)) s), (s <? BB_BITS);
    try specialize (Ha eq_refl); try specialize (Hc eq_refl);
    try discriminate; reflexivity.
Qed.

(** X11. On a well-formed board [generate<CAPTURES>] writes exactly the
    moves of [generate<PSEUDO_LEGAL>] that end on an opponent's piece,
    and [generate<QUIETS>] exactly those that end on an empty square. *)
Theorem captures_take_quiets_do_not (pos : Position) (m : Move) :
  well_formed pos = true ->
  (In m (generate T legal CAPTURES pos) <->
   In m (generate T legal PSEUDO_LEGAL pos) /\
   N.testbit (pieces_c pos (flip (side_to_move pos))) (to_sq m) = true) /\
  (In m (generate T legal QUIETS pos) <->
   In m (generate T legal PSEUDO_LEGAL pos) /\
   N.testbit (pieces pos) (to_sq m) = false).
Proof.
  intros Hwf. cbn [generate]. rewrite !generate_plain_side.
  set (Us := side_to_move pos). rewrite !In_generate_all.
  cbn [GenType_eqb]. split.
  - split.
    + intros [[Pt [HPt [Hf Hd]]]|[_ [Hk Hd]]].
      * rewrite (destinations_take Us Pt pos _ _ Hwf) in Hd.
        apply andb_prop in Hd. destruct Hd as [Hd Ho].
        split; [left; exists Pt; auto | exact Ho].
      * rewrite N.land_spec, (king_target_take Us pos _ Hwf) in Hd.
        apply andb_prop in Hd. destruct Hd as [Ha Hd].
        apply andb_prop in Hd. destruct Hd as [Hd Ho].
        split; [right | exact Ho].
        rewrite N.land_spec, Ha, Hd. auto.
    + intros [[[Pt [HPt [Hf Hd]]]|[_ [Hk Hd]]] Ho].
      * left. exists Pt. split; [exact HPt|]. split; [exact Hf|].
        rewrite (destinations_take Us Pt pos _ _ Hwf), Hd, Ho. reflexivity.
      * right. split; [reflexivity|]. split; [exact Hk|].
        rewrite N.land_spec in *. apply andb_prop in Hd.
        destruct Hd as [Ha Hd].
        rewrite (king_target_take Us pos _ Hwf), Ha, Hd, Ho. reflexivity.
  - split.
    + intros [[Pt [HPt [Hf Hd]]]|[_ [Hk Hd]]].
      * rewrite (destinations_stay Us Pt pos _ _ Hwf) in Hd.
        apply andb_prop in Hd. destruct Hd as [Hd Ho].
        apply negb_true_iff in Ho.
        split; [left; exists Pt; auto | exact Ho].
      * rewrite N.land_spec, (king_target_stay Us pos _ Hwf) in Hd.
        apply andb_prop in Hd. destruct Hd as [Ha Hd].
        apply andb_prop in Hd. destruct Hd as [Hd Ho].
        apply negb_true_iff in Ho.
        split; [right | exact Ho].
        rewrite N.land_spec, Ha, Hd. auto.
    + intros [[[Pt [HPt [Hf Hd]]]|[_ [Hk Hd]]] Ho].
      * left. exists Pt. split; [exact HPt|]. split; [exact Hf|].
        rewrite (destinations_stay Us Pt pos _ _ Hwf), Hd, Ho. reflexivity.
      * right. split; [reflexivity|]. split; [exact Hk|].
        rewrite N.land_spec in *. apply andb_prop in Hd.
        destruct Hd as [Ha Hd].
        rewrite (king_target_stay Us pos _ Hwf), Ha, Hd, Ho. reflexivity.
Qed.

End Modes.

(** In the open position the rook's move c3-d3 ends on an empty square,
    so QUIETS writes it. *)
Lemma captures_take_quiets_do_not_witness :
  well_formed Xiangqi.open_position = true /\
  In (mk_move Xiangqi.SQ_C3 30)
     (generate Xiangqi.tables (fun _ _ => true) QUIETS Xiangqi.open_position).
Proof.
  assert (well_formed Xiangqi.open_position = true) as Hwf
      by (vm_compute; reflexivity).
  split; [exact Hwf|].
  apply (proj2 (captures_take_quiets_do_not Xiangqi.tables (fun _ _ => true)
                  Xiangqi.open_position (mk_move Xiangqi.SQ_C3 30) Hwf)).
  split; [vm_compute; tauto | vm_compute; reflexivity].
Defined.

Section Subsets.

Variable T : Tables.
Variable legal : Position -> Move -> bool.

(** [type_of(pos.piece_on(hurdleSq))] agrees with the bitboards: the
    screen of a cannon check, when there is one, is a piece of the type
    the board reports for its square, and is not a king. *)
Definition screen_typed (pos : Position) : Prop :=
  evasion_hurdle T pos <> 0 ->
  let hurdleSq := lsb (evasion_hurdle T pos) in
  In (type_on pos hurdleSq) generated_types /\
  N.testbit (pieces_pt pos (type_on pos hurdleSq)) hurdleSq = true.

(** Against a target inside the complement of the own pieces,
    EVASIONS writes no destination that PSEUDO_LEGAL does not write. *)
Lemma destinations_evasions_pseudo Us Pt pos target from s :
  (forall x, N.testbit target x = true ->
             N.testbit (bb_not (pieces_c pos Us)) x = true) ->
  N.testbit (destinations T Us Pt EVASIONS pos target from) s = true ->
  N.testbit (destinations T Us Pt PSEUDO_LEGAL pos
               (all_target Us PSEUDO_LEGAL pos) from) s = true.
Proof.
  intros Ht. unfold destinations, all_target.
  destruct Pt; cbn [PieceType_eqb GenType_eqb negb N.lor];
    rewrite ?N.land_spec; intros H; apply andb_prop in H;
    destruct H as [H Hs]; try (rewrite H, (Ht s Hs); reflexivity).
  exact H.
Qed.

Lemma evasion_target_within pos x :
  N.testbit (evasion_target T pos) x = true ->
  N.testbit (bb_not (pieces_c pos (side_to_move pos))) x = true.
Proof.
  unfold evasion_target. rewrite N.land_spec. intros H.
  apply andb_prop in H. tauto.
Qed.

Lemma evasion_king_pseudo pos s :
  N.testbit (evasion_king_bb T pos) s = true ->
  N.testbit (N.land (pseudo_attacks T KING (king_square pos (side_to_move pos)))
               (all_target (side_to_move pos) PSEUDO_LEGAL pos)) s = true.
Proof.
  unfold evasion_king_bb, all_target. cbn [GenType_eqb].
  destruct (PieceType_eqb _ ROOK || PieceType_eqb _ CANNON); [|tauto].
  rewrite (N.land_spec (N.land _ _)). intros H. apply andb_prop in H. tauto.
Qed.

Lemma evasion_hurdle_pseudo pos s :
  let us := side_to_move pos in
  let h := lsb (evasion_hurdle T pos) in
  N.testbit (evasion_hurdle_bb T pos h) s = true ->
  N.testbit (destinations T us (type_on pos h) PSEUDO_LEGAL pos
               (all_target us PSEUDO_LEGAL pos) h) s = true.
Proof.
  cbv zeta. unfold evasion_hurdle_bb, destinations, all_target.
  destruct (type_on pos (lsb (evasion_hurdle T pos)));
    cbn [PieceType_eqb GenType_eqb negb N.lor];
    rewrite ?N.lor_spec, !N.land_spec; intros H;
    repeat match goal with
           | X : _ && _ = true |- _ => apply andb_prop in X; destruct X
           | X : _ || _ = true |- _ => apply orb_prop in X; destruct X
           end;
    repeat match goal with
           | X : _ = true |- _ => rewrite X
           end;
    rewrite ?orb_true_r; reflexivity.
Qed.

Lemma generate_EVASIONS_pseudo pos m :
  screen_typed pos ->
  In m (generate_EVASIONS T pos) -> In m (generate_plain T PSEUDO_LEGAL pos).
Proof.
  intros Hs. unfold generate_EVASIONS.
  destruct (more_than_one (checkers pos)); [tauto|].
  rewrite generate_plain_side, In_generate_all, !in_app_iff,
    evasion_piece_moves_eq.
  cbn [GenType_eqb]. intros [Hin|[Hin|Hin]].
  - left. apply In_generate_moves in Hin. destruct Hin as [Pt [HPt [Hf Hd]]].
    exists Pt. split; [exact HPt|]. split; [exact Hf|].
    eapply destinations_evasions_pseudo; [|exact Hd].
    apply evasion_target_within.
  - right. apply In_moves_from in Hin. destruct Hin as [Hf Hb].
    split; [reflexivity|]. split; [exact Hf|].
    apply evasion_king_pseudo. exact Hb.
  - left. apply In_evasion_hurdle_moves in Hin.
    destruct Hin as (_ & Hh & Hf & Hb).
    destruct (Hs Hh) as [Hty Hbit]. cbv zeta in Hty, Hbit.
    exists (type_on pos (lsb (evasion_hurdle T pos))).
    split; [exact Hty|]. rewrite Hf. split.
    + unfold pieces_cp. rewrite N.land_spec, Hbit, andb_true_r.
      apply lsb_set in Hh. unfold evasion_hurdle in Hh.
      rewrite N.land_spec in Hh. apply andb_prop in Hh. tauto.
    + apply evasion_hurdle_pseudo. exact Hb.
Qed.

(** X12. On a board whose screen piece, if a cannon gives check over
    one, is typed as the bitboards have it, every move of
    [generate<EVASIONS>] is a move of [generate<PSEUDO_LEGAL>]: the
    evasion generator only leaves moves out.  Hence every move of
    [generate<LEGAL>], in check or not, is a move of
    [generate<PSEUDO_LEGAL>] that [pos.legal] accepts. *)
Theorem evasions_are_pseudo_legal (pos : Position) :
  screen_typed pos ->
  (forall m, In m (generate T legal EVASIONS pos) ->
             In m (generate T legal PSEUDO_LEGAL pos)) /\
  (forall m, In m (generate T legal LEGAL pos) ->
             In m (generate T legal PSEUDO_LEGAL pos) /\ legal pos m = true).
Proof.
  intros Hs. cbn [generate]. split.
  - intros m. apply generate_EVASIONS_pseudo; assumption.
  - intros m Hin. apply generate_LEGAL_candidates in Hin.
    destruct Hin as [Hin Hl]. split; [|exact Hl].
    destruct (negb (checkers pos =? 0)); [|exact Hin].
    apply generate_EVASIONS_pseudo; assumption.
Qed.

End Subsets.

(** The cannon check over the own rook e1: the rook's move e1-d1, off
    the file, is a pseudo-legal move. *)
Lemma evasions_are_pseudo_legal_witness :
  screen_typed Xiangqi.tables Xiangqi.cannon_check_own_screen /\
  In (mk_move Xiangqi.SQ_E1 Xiangqi.SQ_D1)
     (generate Xiangqi.tables (fun _ _ => true) PSEUDO_LEGAL
        Xiangqi.cannon_check_own_screen).
Proof.
  assert (screen_typed Xiangqi.tables Xiangqi.cannon_check_own_screen) as Hs.
  { intros _. cbv zeta. split; [vm_compute; tauto | vm_compute; reflexivity]. }
  split; [exact Hs|].
  assert (In (mk_move Xiangqi.SQ_E1 Xiangqi.SQ_D1)
            (generate Xiangqi.tables (fun _ _ => true) EVASIONS
               Xiangqi.cannon_check_own_screen)) as He
      by (vm_compute; tauto).
  exact (proj1 (evasions_are_pseudo_legal Xiangqi.tables (fun _ _ => true)
                  Xiangqi.cannon_check_own_screen Hs) _ He).
Defined.

End MoveGenFacts.

(* ===================================================================== *)
(** * Further properties of the accumulator updates *)
(* ===================================================================== *)

Module NNUEFacts.

Import Board.
Import Parameters.
Import NNUE.
Local Open Scope Z_scope.

(** ** Vector and scalar arithmetic on one lane *)

Section RawLanes.

Variable wrap : Z -> Z.
Hypothesis W : Wraps wrap.

(** Removals one after the other from any start value: once something is
    removed the lane is the wrapped difference. *)
Lemma fold_sub_raw (column : IndexType -> Z) r l x :
  fold_left (fun y index => wrap (y - column index)) (r :: l) x
  = wrap (x - column_sum column (r :: l)).
Proof.
  cbn [fold_left]. rewrite (fold_sub_sum wrap W).
  change (column_sum column (r :: l)) with (column r + column_sum column l).
  f_equal. lia.
Qed.

Lemma fold_add_raw (column : IndexType -> Z) a l x :
  fold_left (fun y index => wrap (y + column index)) (a :: l) x
  = wrap (x + column_sum column (a :: l)).
Proof.
  cbn [fold_left]. rewrite (fold_add_sum wrap W).
  change (column_sum column (a :: l)) with (column a + column_sum column l).
  f_equal. lia.
Qed.

(** All removals, then all additions, from any start value. *)
Lemma serial_lane_raw (column : IndexType -> Z) x removed added :
  removed <> [] \/ added <> [] ->
  serial_lane (fun a b => wrap (a + b)) (fun a b => wrap (a - b))
    column x removed added
  = wrap (x - column_sum column removed + column_sum column added).
Proof.
  intros Hne. unfold serial_lane.
  destruct removed as [|r removed].
  - destruct added as [|a added]; [destruct Hne; congruence|].
    cbn [fold_left]. rewrite (fold_add_sum wrap W).
    change (column_sum column (a :: added))
      with (column a + column_sum column added).
    change (column_sum column []) with 0. f_equal. lia.
  - rewrite fold_sub_raw, (fold_add_sum wrap W). reflexivity.
Qed.

End RawLanes.

(** The paired loop of the vector refresh, from any start value. *)
Lemma fused_lane_raw (column : IndexType -> Z) x removed added :
  removed <> [] \/ added <> [] ->
  fused_lane column x removed added
  = wrap16 (x - column_sum column removed + column_sum column added).
Proof.
  intros Hne. destruct removed as [|r removed].
  - destruct added as [|a added]; [destruct Hne; congruence|].
    cbn [fused_lane].
    change (fun (y : Z) (index : IndexType) => add16 y (column index))
      with (fun (y : Z) (index : IndexType) => wrap16 (y + column index)).
    rewrite (fold_add_raw wrap16 wrap16_Wraps).
    change (column_sum column []) with 0. f_equal. lia.
  - destruct added as [|a added].
    + cbn [fused_lane].
      change (fun (y : Z) (index : IndexType) => sub16 y (column index))
        with (fun (y : Z) (index : IndexType) => wrap16 (y - column index)).
      rewrite (fold_sub_raw wrap16 wrap16_Wraps).
      change (column_sum column []) with 0. f_equal. lia.
    + cbn [fused_lane]. unfold add16 at 1.
      rewrite fused_lane_sum.
      change (column_sum column (r :: removed))
        with (column r + column_sum column removed).
      change (column_sum column (a :: added))
        with (column a + column_sum column added).
      unfold sub16.
      replace (x + wrap16 (column a - column r) - column_sum column removed
               + column_sum column added)
        with (wrap16 (column a - column r)
              + (x - column_sum column removed + column_sum column added))
        by lia.
      rewrite (wrap_add_l _ wrap16_Wraps). f_equal. lia.
Qed.

(** On any lane the paired loop and the two loops in series agree. *)
Lemma fused_is_serial (column : IndexType -> Z) x removed added :
  fused_lane column x removed added
  = serial_lane add16 sub16 column x removed added.
Proof.
  destruct removed as [|r removed], added as [|a added];
    try reflexivity;
    rewrite fused_lane_raw by (right + left; discriminate);
    symmetry;
    apply (serial_lane_raw wrap16 wrap16_Wraps);
    (right + left); discriminate.
Qed.

(** The three fused forms of the vector incremental path against the
    scalar loops, on any lane. *)
Lemma incremental_vector_is_scalar (wrap : Z -> Z) n accIn
  (column : IndexType -> nat -> Z) removed added :
  Wraps wrap -> sizes_asserted removed added = true ->
  incremental_vector (fun a b => wrap (a + b)) (fun a b => wrap (a - b))
    n accIn column removed added
  = incremental_scalar (fun a b => wrap (a + b)) (fun a b => wrap (a - b))
      n accIn column removed added.
Proof.
  intros W Hs. unfold sizes_asserted in Hs.
  destruct removed as [|r0 [|r1 [|r2 removed]]];
    destruct added as [|a0 [|a1 [|a2 added]]]; try discriminate Hs;
    cbn [incremental_vector]; apply lanes_ext; intros i Hi;
    cbn [fold_left].
  - reflexivity.
  - repeat (rewrite (wrap_sub_r _ W) || rewrite (wrap_sub_l _ W)
            || rewrite (wrap_add_l _ W) || rewrite (wrap_add_r _ W)).
    f_equal. lia.
  - rewrite (wrap_add_r _ W).
    replace (nth i accIn 0 + (wrap (column a0 i + column a1 i)
                              - wrap (column r0 i + column r1 i)))
      with (nth i accIn 0 + wrap (column a0 i + column a1 i)
            - wrap (column r0 i + column r1 i)) by lia.
    rewrite (wrap_sub_r _ W).
    replace (nth i accIn 0 + wrap (column a0 i + column a1 i)
             - (column r0 i + column r1 i))
      with (nth i accIn 0 - (column r0 i + column r1 i)
            + wrap (column a0 i + column a1 i)) by lia.
    rewrite (wrap_add_r _ W).
    repeat (rewrite (wrap_sub_l _ W) || rewrite (wrap_add_l _ W)).
    replace (wrap (nth i accIn 0 - column r0 i - column r1 i) + column a0 i
             + column a1 i)
      with (wrap (nth i accIn 0 - column r0 i - column r1 i)
            + (column a0 i + column a1 i)) by lia.
    rewrite (wrap_add_l _ W). f_equal. lia.
Qed.

Section Builds.

Variables HalfDimensions PSQTBuckets : nat.
Variable ft : FeatureTransformer.
Variable FS : FeatureSet.
Variable KingCacheMaps : Square -> nat.

Lemma next_accumulation_builds accIn removed added :
  (length removed =? 0)%nat && (length added =? 0)%nat
  || sizes_asserted removed added = true ->
  next_accumulation HalfDimensions ft true accIn removed added
  = next_accumulation HalfDimensions ft false accIn removed added.
Proof.
  intros Hs. unfold next_accumulation.
  destruct ((length removed =? 0)%nat && (length added =? 0)%nat);
    [reflexivity|].
  apply (incremental_vector_is_scalar wrap16); [apply wrap16_Wraps | exact Hs].
Qed.

Lemma next_psqt_builds psqtIn removed added :
  (length removed =? 0)%nat && (length added =? 0)%nat
  || sizes_asserted removed added = true ->
  next_psqt PSQTBuckets ft true psqtIn removed added
  = next_psqt PSQTBuckets ft false psqtIn removed added.
Proof.
  intros Hs. unfold next_psqt.
  destruct ((length removed =? 0)%nat && (length added =? 0)%nat);
    [reflexivity|].
  rewrite (incremental_scalar_ext add32 sub32 PSQTBuckets _
             (fun index i => psqt_weight ft (index * PSQTBuckets) i)
             (fun index i => psqt_weight ft (PSQTBuckets * index) i))
    by (intros; rewrite Nat.mul_comm; reflexivity).
  apply (incremental_vector_is_scalar wrap32); [apply wrap32_Wraps | exact Hs].
Qed.

Lemma incremental_step_builds P pos prev next :
  incremental_step HalfDimensions PSQTBuckets ft FS true P pos prev next
  = incremental_step HalfDimensions PSQTBuckets ft FS false P pos prev next.
Proof.
  unfold incremental_step.
  destruct (feature_bucket FS pos P) as [bucket mirror].
  destruct (append_changed_indices FS P bucket mirror (dirtyPiece next))
    as [removed added].
  destruct (negb (computed (accumulator prev) P)
            || computed (accumulator next) P); [reflexivity|].
  destruct (negb ((length removed =? 0)%nat && (length added =? 0)%nat)
            && negb (sizes_asserted removed added)) eqn:E; [reflexivity|].
  assert ((length removed =? 0)%nat && (length added =? 0)%nat
          || sizes_asserted removed added = true) as Hs.
  { destruct ((length removed =? 0)%nat && (length added =? 0)%nat);
      [reflexivity|]. cbn in E. apply negb_false_iff in E. exact E. }
  rewrite (next_accumulation_builds _ removed added Hs),
    (next_psqt_builds _ removed added Hs).
  reflexivity.
Qed.

Lemma incremental_from_builds steps P pos :
  forall chain k,
    incremental_from HalfDimensions PSQTBuckets ft FS true steps P pos chain k
    = incremental_from HalfDimensions PSQTBuckets ft FS false steps P pos
        chain k.
Proof.
  induction steps as [|steps IH]; intros chain k; [reflexivity|].
  cbn [incremental_from]. rewrite incremental_step_builds.
  destruct (incremental_step HalfDimensions PSQTBuckets ft FS false P pos
              (record chain k) (record chain (S k))); [apply IH | reflexivity].
Qed.

Lemma refresh_builds P pos cache acc :
  update_accumulator_refresh HalfDimensions PSQTBuckets ft FS KingCacheMaps
    true P pos cache acc
  = update_accumulator_refresh HalfDimensions PSQTBuckets ft FS KingCacheMaps
      false P pos cache acc.
Proof.
  unfold update_accumulator_refresh.
  destruct (feature_bucket FS pos P) as [bucket mirror].
  destruct (refresh_indices FS P pos
              (cache (cache_slot FS KingCacheMaps pos P) P) bucket mirror)
    as [removed added].
  rewrite (lanes_ext HalfDimensions _
             (fun j => serial_lane add16 sub16
                         (fun index => weight ft (HalfDimensions * index) j)
                         (nth j (entry_accumulation
                                   (cache (cache_slot FS KingCacheMaps pos P) P))
                              0) removed added))
    by (intros j _; apply fused_is_serial).
  rewrite (lanes_ext PSQTBuckets
             (fun k => serial_lane add32 sub32
                         (fun index => psqt_weight ft (PSQTBuckets * index) k)
                         (nth k (entry_psqtAccumulation
                                   (cache (cache_slot FS KingCacheMaps pos P) P))
                              0) removed added)
             (fun k => serial_lane add32 sub32
                         (fun index => psqt_weight ft (index * PSQTBuckets) k)
                         (nth k (entry_psqtAccumulation
                                   (cache (cache_slot FS KingCacheMaps pos P) P))
                              0) removed added))
    by (intros k _; apply serial_lane_ext; intros index;
        rewrite Nat.mul_comm; reflexivity).
  reflexivity.
Qed.

(** X13. A build with vector instructions and a build without leave the
    same accumulators and the same cache: whatever the chain and the
    cache hold, [update_accumulator] returns the same result with VECTOR
    defined as without, on the incremental path (the three fused forms
    against the two scalar loops) and on the refresh path (the paired
    tile loop against removals followed by additions), and fails on the
    same assertions. *)
Theorem update_accumulator_same_on_all_builds (P : Color) (pos : Position)
  (cache : Cache) (chain : list StateInfo) :
  update_accumulator HalfDimensions PSQTBuckets ft FS KingCacheMaps true
    P pos cache chain
  = update_accumulator HalfDimensions PSQTBuckets ft FS KingCacheMaps false
      P pos cache chain.
Proof.
  unfold update_accumulator.
  destruct (update_path FS P pos chain) as [|oldest|].
  - reflexivity.
  - unfold update_accumulator_incremental.
    destruct (current chain <=? oldest)%nat; [reflexivity|].
    rewrite incremental_from_builds. reflexivity.
  - rewrite refresh_builds. reflexivity.
Qed.

End Builds.

Section Refresh.

Variables HalfDimensions PSQTBuckets : nat.
Variable ft : FeatureTransformer.
Variable FS : FeatureSet.
Variable KingCacheMaps : Square -> nat.
Variable VECTOR : bool.

(** Two accumulators, and two cache entries, that hold the same
    values. *)
Definition same_accumulator (a b : Accumulator) : Prop :=
  forall c, accumulation a c = accumulation b c /\
            psqtAccumulation a c = psqtAccumulation b c /\
            computed a c = computed b c.

Definition same_entry (e f : CacheEntry) : Prop :=
  entry_accumulation e = entry_accumulation f /\
  entry_psqtAccumulation e = entry_psqtAccumulation f /\
  (forall c, byColorBB e c = byColorBB f c) /\
  (forall pt, byTypeBB e pt = byTypeBB f pt).

Lemma land_bb_not b : N.land b (bb_not b) = 0%N.
Proof.
  apply N.bits_inj. intros s. rewrite N.land_spec, bb_not_spec, N.bits_0.
  destruct (N.testbit b s); [apply andb_false_r | reflexivity].
Qed.

Lemma flat_map_nil (A B : Type) (f : A -> list B) l :
  (forall x, In x l -> f x = []) -> flat_map f l = [].
Proof.
  induction l as [|a l IH]; intros H; [reflexivity|].
  cbn [flat_map]. rewrite (H a) by (left; reflexivity).
  apply IH. intros x Hx. apply H. right. exact Hx.
Qed.

(** Against an entry whose snapshot is the board, nothing is to remove
    and nothing to add. *)
Lemma refresh_indices_up_to_date P pos entry bucket mirror :
  (forall c, byColorBB entry c = pieces_c pos c) ->
  (forall pt, In pt piece_types -> byTypeBB entry pt = pieces_pt pos pt) ->
  refresh_indices FS P pos entry bucket mirror = ([], []).
Proof.
  intros Hc Ht. unfold refresh_indices.
  assert (forall cp, In cp color_types ->
            to_remove pos entry cp = 0%N /\ to_add pos entry cp = 0%N) as Hz.
  { intros [c pt] Hin. unfold color_types in Hin.
    apply in_flat_map in Hin. destruct Hin as [c' [_ Hin]].
    apply in_map_iff in Hin. destruct Hin as [pt' [E Hpt]].
    injection E as -> ->.
    unfold to_remove, to_add, pieces_cp. cbn [fst snd].
    rewrite Hc, (Ht pt Hpt). split; apply land_bb_not. }
  f_equal; apply flat_map_nil; intros cp Hin;
    destruct (Hz cp Hin) as [Hr Ha]; rewrite ?Hr, ?Ha; reflexivity.
Qed.

Lemma lanes_nth_lanes n f : lanes n (fun j => nth j (lanes n f) 0) = lanes n f.
Proof. apply lanes_ext. intros j Hj. apply nth_lanes. exact Hj. Qed.

(** The lanes the refresh path computes from a cache entry, and the
    entry it leaves. *)
Definition refreshed_lanes (P : Color) (pos : Position) (entry : CacheEntry)
  : list Z * list Z :=
  let '(bucket, mirror) := feature_bucket FS pos P in
  let '(removed, added) := refresh_indices FS P pos entry bucket mirror in
  (lanes HalfDimensions
     (fun j =>
        if VECTOR
        then fused_lane (fun index => weight ft (HalfDimensions * index) j)
               (nth j (entry_accumulation entry) 0) removed added
        else serial_lane add16 sub16
               (fun index => weight ft (HalfDimensions * index) j)
               (nth j (entry_accumulation entry) 0) removed added),
   lanes PSQTBuckets
     (fun k =>
        serial_lane add32 sub32
          (fun index => if VECTOR
                        then psqt_weight ft (PSQTBuckets * index) k
                        else psqt_weight ft (index * PSQTBuckets) k)
          (nth k (entry_psqtAccumulation entry) 0) removed added)).

Definition refreshed_entry (P : Color) (pos : Position) (entry : CacheEntry)
  : CacheEntry :=
  {| entry_accumulation := fst (refreshed_lanes P pos entry);
     entry_psqtAccumulation := snd (refreshed_lanes P pos entry);
     byColorBB := pieces_c pos;
     byTypeBB := fun pt => match pt with
                           | NO_PIECE_TYPE => byTypeBB entry pt
                           | _ => pieces_pt pos pt
                           end |}.

Lemma refresh_result P pos cache acc :
  let slot := cache_slot FS KingCacheMaps pos P in
  let entry := cache slot P in
  update_accumulator_refresh HalfDimensions PSQTBuckets ft FS KingCacheMaps
    VECTOR P pos cache acc
  = (set_entry cache slot P (refreshed_entry P pos entry),
     {| accumulation :=
          set_color (accumulation acc) P (fst (refreshed_lanes P pos entry));
        psqtAccumulation :=
          set_color (psqtAccumulation acc) P
            (snd (refreshed_lanes P pos entry));
        computed := set_color (computed acc) P true |}).
Proof.
  cbv zeta.
  unfold update_accumulator_refresh, refreshed_entry, refreshed_lanes.
  destruct (feature_bucket FS pos P) as [bucket mirror].
  destruct (refresh_indices FS P pos _ bucket mirror) as [removed added].
  reflexivity.
Qed.

Lemma refreshed_entry_up_to_date P pos entry :
  let '(bucket, mirror) := feature_bucket FS pos P in
  refresh_indices FS P pos (refreshed_entry P pos entry) bucket mirror
  = ([], []).
Proof.
  destruct (feature_bucket FS pos P) as [bucket mirror].
  apply refresh_indices_up_to_date; cbn [refreshed_entry byColorBB byTypeBB];
    [reflexivity|].
  intros pt Hpt. destruct pt; try reflexivity.
  cbn in Hpt. intuition discriminate.
Qed.

Lemma refreshed_lanes_again P pos entry :
  refreshed_lanes P pos (refreshed_entry P pos entry)
  = refreshed_lanes P pos entry.
Proof.
  pose proof (refreshed_entry_up_to_date P pos entry) as Hnone.
  unfold refreshed_lanes at 1.
  destruct (feature_bucket FS pos P) as [bucket mirror] eqn:Eb.
  rewrite Hnone.
  cbn [refreshed_entry entry_accumulation entry_psqtAccumulation].
  assert (forall (column : IndexType -> Z) x,
            (if VECTOR then fused_lane column x [] []
             else serial_lane add16 sub16 column x [] []) = x) as Hf
      by (intros; destruct VECTOR; reflexivity).
  rewrite (lanes_ext HalfDimensions _ _ (fun j _ => Hf _ _)).
  cbn [serial_lane fold_left].
  destruct (refreshed_lanes P pos entry) as [a p] eqn:El. cbn [fst snd].
  unfold refreshed_lanes in El. rewrite Eb in El.
  destruct (refresh_indices FS P pos entry bucket mirror) as [removed added].
  injection El as <- <-. rewrite !lanes_nth_lanes. reflexivity.
Qed.

(** X14. The refresh path is idempotent: a second
    [update_accumulator_refresh] for the same perspective and board,
    right after the first, finds nothing to remove and nothing to add,
    and leaves the accumulator and every cache entry holding the values
    the first call left. *)
Theorem refresh_twice_is_refresh_once (P : Color) (pos : Position)
  (cache : Cache) (acc : Accumulator) :
  let once :=
    update_accumulator_refresh HalfDimensions PSQTBuckets ft FS KingCacheMaps
      VECTOR P pos cache acc in
  let twice :=
    update_accumulator_refresh HalfDimensions PSQTBuckets ft FS KingCacheMaps
      VECTOR P pos (fst once) (snd once) in
  refresh_indices FS P pos
    (fst once (cache_slot FS KingCacheMaps pos P) P)
    (fst (feature_bucket FS pos P)) (snd (feature_bucket FS pos P))
  = ([], []) /\
  same_accumulator (snd twice) (snd once) /\
  forall slot c, same_entry (fst twice slot c) (fst once slot c).
Proof.
  cbv zeta. rewrite (refresh_result P pos cache acc). cbn [fst snd].
  rewrite refresh_result. cbn [fst snd]. rewrite !set_entry_same.
  rewrite refreshed_lanes_again.
  split; [|split].
  - pose proof (refreshed_entry_up_to_date P pos
                  (cache (cache_slot FS KingCacheMaps pos P) P)) as H.
    destruct (feature_bucket FS pos P). exact H.
  - intros c. cbn [accumulation psqtAccumulation computed].
    unfold set_color. destruct (Color_eqb c P); auto.
  - intros slot c. unfold set_entry.
    destruct ((slot =? cache_slot FS KingCacheMaps pos P)%nat
              && Color_eqb c P); [|unfold same_entry; auto].
    unfold same_entry.
    cbn [refreshed_entry entry_accumulation entry_psqtAccumulation
           byColorBB byTypeBB].
    rewrite refreshed_lanes_again.
    split; [reflexivity|]. split; [reflexivity|]. split; [reflexivity|].
    intros pt. destruct pt; reflexivity.
Qed.

(** ** What an update leaves alone *)

Lemma same_elsewhere_refl P a : same_elsewhere P a a.
Proof. intros c _. auto. Qed.

Lemma same_elsewhere_trans P a b c :
  same_elsewhere P a b -> same_elsewhere P b c -> same_elsewhere P a c.
Proof.
  intros H1 H2 col Hc. destruct (H1 col Hc) as (A1 & A2 & A3).
  destruct (H2 col Hc) as (B1 & B2 & B3). repeat split; congruence.
Qed.

Lemma array_set_beyond (A : Type) (a : list A) i v :
  (length a <= i)%nat -> Permute.array_set a i v = a.
Proof.
  revert i. induction a as [|h t IH]; intros i Hi; [reflexivity|].
  destruct i as [|i]; cbn in Hi; [lia|].
  cbn [Permute.array_set]. rewrite IH by lia. reflexivity.
Qed.

(** A successful step found [next] uncomputed and returns it with the
    accumulator of the perspective written. *)
Lemma incremental_step_shape P pos prev next next' :
  incremental_step HalfDimensions PSQTBuckets ft FS VECTOR P pos prev next
  = Some next' ->
  computed (accumulator prev) P = true /\
  computed (accumulator next) P = false /\
  dirtyPiece next' = dirtyPiece next /\
  same_elsewhere P (accumulator next') (accumulator next).
Proof.
  unfold incremental_step.
  destruct (feature_bucket FS pos P) as [bucket mirror].
  destruct (append_changed_indices FS P bucket mirror (dirtyPiece next))
    as [removed added].
  destruct (computed (accumulator prev) P); cbn [negb orb];
    [|discriminate].
  destruct (computed (accumulator next) P); [discriminate|].
  destruct (negb _ && negb _); [discriminate|].
  intros E. injection E as <-.
  split; [reflexivity|]. split; [reflexivity|]. split; [reflexivity|].
  apply with_accumulator_elsewhere.
Qed.

Lemma incremental_from_frame P pos steps :
  forall chain k chain',
    incremental_from HalfDimensions PSQTBuckets ft FS VECTOR steps P pos
      chain k = Some chain' ->
    length chain' = length chain /\
    (forall j, dirtyPiece (record chain' j) = dirtyPiece (record chain j)) /\
    (forall j, same_elsewhere P (accumulator (record chain' j))
                 (accumulator (record chain j))) /\
    (forall j, ~ (k < j <= k + steps)%nat ->
               record chain' j = record chain j) /\
    (forall j, (k < j <= k + steps)%nat -> is_computed chain j P = false).
Proof.
  induction steps as [|steps IH]; intros chain k chain' E.
  - cbn [incremental_from] in E. injection E as <-.
    split; [reflexivity|]. split; [reflexivity|].
    split; [intros j; apply same_elsewhere_refl|].
    split; [reflexivity | intros j Hj; lia].
  - cbn [incremental_from] in E.
    destruct (incremental_step HalfDimensions PSQTBuckets ft FS VECTOR P pos
                (record chain k) (record chain (S k))) as [next'|] eqn:Es;
      [|discriminate].
    destruct (incremental_step_shape _ _ _ _ _ Es) as (_ & Hn & Hd & Hse).
    set (chain1 := Permute.array_set chain (S k) next') in *.
    assert (length chain1 = length chain) as Hl1
        by apply Permute.array_set_length.
    assert (forall j, j <> S k -> record chain1 j = record chain j) as Ho
        by (intros j Hj; apply record_set_other; auto).
    assert (dirtyPiece (record chain1 (S k)) = dirtyPiece (record chain (S k))
            /\ same_elsewhere P (accumulator (record chain1 (S k)))
                 (accumulator (record chain (S k)))) as [Hd1 Hs1].
    { destruct (Nat.lt_ge_cases (S k) (length chain)) as [Hin|Hout].
      - unfold chain1. rewrite record_set_same by exact Hin. auto.
      - unfold chain1. rewrite array_set_beyond by exact Hout.
        split; [reflexivity | apply same_elsewhere_refl]. }
    destruct (IH chain1 (S k) chain' E) as (Hl & Hdp & Hse' & Hold & Hunc).
    split; [congruence|]. split; [|split; [|split]].
    + intros j. rewrite Hdp. destruct (Nat.eq_dec j (S k)) as [->|Hne];
        [exact Hd1 | rewrite Ho by exact Hne; reflexivity].
    + intros j. eapply same_elsewhere_trans; [apply Hse'|].
      destruct (Nat.eq_dec j (S k)) as [->|Hne];
        [exact Hs1 | rewrite Ho by exact Hne; apply same_elsewhere_refl].
    + intros j Hj. rewrite Hold by lia. apply Ho. lia.
    + intros j Hj. destruct (Nat.eq_dec j (S k)) as [->|Hne];
        [exact Hn|].
      unfold is_computed. rewrite <- Ho by exact Hne.
      apply Hunc. lia.
Qed.

(** X15. [update_accumulator<Perspective>] works on its perspective
    only.  Whenever it returns, the chain has the records it had, each
    with its dirty piece; the accumulation, the psqt accumulation and the
    computed flag of the other perspective are as they were in every
    record; no cache entry of the other perspective has changed; and no
    record whose flag for the perspective was already set has been
    written. *)
Theorem update_accumulator_touches_one_perspective (P : Color)
  (pos : Position) (cache cache' : Cache) (chain chain' : list StateInfo) :
  update_accumulator HalfDimensions PSQTBuckets ft FS KingCacheMaps VECTOR
    P pos cache chain = Some (cache', chain') ->
  length chain' = length chain /\
  (forall j, dirtyPiece (record chain' j) = dirtyPiece (record chain j)) /\
  (forall j, same_elsewhere P (accumulator (record chain' j))
               (accumulator (record chain j))) /\
  (forall slot c, c <> P -> cache' slot c = cache slot c) /\
  (forall j, is_computed chain j P = true ->
             record chain' j = record chain j).
Proof.
  unfold update_accumulator. intros E.
  pose proof (update_path_cases FS P pos chain) as Hcase.
  destruct (update_path FS P pos chain) as [|k|].
  - injection E as <- <-.
    split; [reflexivity|]. split; [reflexivity|].
    split; [intros j; apply same_elsewhere_refl|]. auto.
  - destruct (update_accumulator_incremental HalfDimensions PSQTBuckets ft FS
                VECTOR P pos chain k) as [chain1|] eqn:Ei; [|discriminate].
    injection E as <- <-. unfold update_accumulator_incremental in Ei.
    destruct (current chain <=? k)%nat; [discriminate|].
    destruct (incremental_from_frame _ _ _ _ _ _ Ei)
      as (Hl & Hdp & Hse & Hold & Hunc).
    split; [exact Hl|]. split; [exact Hdp|]. split; [exact Hse|].
    split; [reflexivity|].
    intros j Hj. apply Hold. intros Hr. rewrite (Hunc j Hr) in Hj.
    discriminate.
  - rewrite refresh_result in E. injection E as <- <-.
    set (st' := {| dirtyPiece := dirtyPiece (record chain (current chain));
                   accumulator := _ |}).
    assert (forall j, j <> current chain ->
              record (Permute.array_set chain (current chain) st') j
              = record chain j) as Ho
        by (intros j Hj; apply record_set_other; auto).
    assert (dirtyPiece (record (Permute.array_set chain (current chain) st')
                          (current chain))
            = dirtyPiece (record chain (current chain))
            /\ same_elsewhere P
                 (accumulator (record (Permute.array_set chain (current chain)
                                         st') (current chain)))
                 (accumulator (record chain (current chain)))) as [Hd Hs].
    { destruct (Nat.lt_ge_cases (current chain) (length chain)) as [Hin|Hout].
      - rewrite record_set_same by exact Hin. split; [reflexivity|].
        intros c Hc. cbn. rewrite !set_color_other by exact Hc. auto.
      - rewrite array_set_beyond by exact Hout.
        split; [reflexivity | apply same_elsewhere_refl]. }
    split; [apply Permute.array_set_length|]. split; [|split; [|split]].
    + intros j. destruct (Nat.eq_dec j (current chain)) as [->|Hne];
        [exact Hd | rewrite Ho by exact Hne; reflexivity].
    + intros j. destruct (Nat.eq_dec j (current chain)) as [->|Hne];
        [exact Hs | rewrite Ho by exact Hne; apply same_elsewhere_refl].
    + intros slot c Hc. apply set_entry_other_color. exact Hc.
    + intros j Hj. apply Ho. intros ->. congruence.
Qed.

End Refresh.

Section Budget.

Variable FS : FeatureSet.
Variable P : Color.

(** Every record is charged at least one. *)
Lemma charged_at_least chain i last :
  (forall st, 0 <= update_cost FS st) -> (i <= S last)%nat ->
  Z.of_nat (S last - i) <= charged FS chain i last.
Proof.
  intros Hc. induction last as [|last IH]; intros Hi.
  - cbn [charged]. destruct (0 <? i)%nat eqn:E.
    + apply Nat.ltb_lt in E. replace (1 - i)%nat with 0%nat by lia. cbn. lia.
    + apply Nat.ltb_ge in E. replace i with 0%nat by lia.
      pose proof (Hc (record chain 0)). cbn. lia.
  - destruct (Nat.eq_dec i (S (S last))) as [->|Hne].
    + rewrite charged_none by lia. rewrite Nat.sub_diag. cbn. lia.
    + rewrite charged_top by lia.
      pose proof (Hc (record chain (S last))).
      specialize (IH ltac:(lia)).
      replace (S (S last) - i)%nat with (S (S last - i)) by lia.
      rewrite Nat2Z.inj_succ. lia.
Qed.

(** X16. When no update cost is negative, the backward walk of
    [try_find_computed_accumulator] leaves at most [refresh_cost(pos)]
    records behind: each costs it at least one.  So the incremental path
    of [update_accumulator] never replays more moves than the refresh
    cost, and with a refresh cost of zero or less it is never taken. *)
Theorem incremental_replay_is_bounded (pos : Position)
  (chain : list StateInfo) :
  (forall st, 0 <= update_cost FS st) ->
  let n := current chain in
  let k := try_find_computed_accumulator FS P pos chain in
  (k <= n)%nat /\
  Z.of_nat (n - k) <= Z.max 0 (refresh_cost FS pos) /\
  (forall oldest, update_path FS P pos chain = Incremental oldest ->
     (oldest < n)%nat /\ Z.of_nat (n - oldest) <= refresh_cost FS pos) /\
  (refresh_cost FS pos <= 0 ->
     forall oldest, update_path FS P pos chain <> Incremental oldest).
Proof.
  intros Hc. cbv zeta.
  destruct (walk_back_spec_of_code FS P chain (current chain)
              (refresh_cost FS pos)) as (Hle & Habove & _).
  cbv zeta in Hle, Habove.
  fold (try_find_computed_accumulator FS P pos chain) in Hle, Habove.
  set (k := try_find_computed_accumulator FS P pos chain) in *.
  assert ((k < current chain)%nat ->
          Z.of_nat (current chain - k) <= refresh_cost FS pos) as Hbound.
  { intros Hlt. destruct (Habove (S k) ltac:(lia)) as (_ & _ & Hg).
    pose proof (charged_at_least chain (S k) (current chain) Hc ltac:(lia))
      as Hch.
    replace (S (current chain) - S k)%nat with (current chain - k)%nat
      in Hch by lia.
    lia. }
  assert (forall oldest, update_path FS P pos chain = Incremental oldest ->
            (oldest < current chain)%nat /\
            Z.of_nat (current chain - oldest) <= refresh_cost FS pos) as Hinc.
  { intros oldest Hp.
    pose proof (update_path_cases FS P pos chain) as Hcase.
    rewrite Hp in Hcase. destruct Hcase as (_ & -> & _ & Hne).
    fold k in Hne |- *.
    assert (k < current chain)%nat as Hlt by lia. auto. }
  split; [exact Hle|]. split; [|split; [exact Hinc|]].
  - destruct (Nat.eq_dec k (current chain)) as [->|Hne].
    + rewrite Nat.sub_diag. cbn. lia.
    + specialize (Hbound ltac:(lia)). lia.
  - intros Hz oldest Hp. destruct (Hinc oldest Hp) as [Hlt Hb]. lia.
Qed.

End Budget.

(** One move after the refreshed root, updated for WHITE: the record of
    the move is still unmarked for BLACK. *)
Lemma update_accumulator_touches_one_perspective_witness :
  exists cache' chain',
    update_accumulator 2 1 Sample.transformer Sample.features
      Sample.king_cache_maps true WHITE Sample.board1 Sample.cleared
      one_move_chain = Some (cache', chain') /\
    computed (accumulator (record chain' 1)) BLACK = false.
Proof.
  destruct (update_accumulator 2 1 Sample.transformer Sample.features
              Sample.king_cache_maps true WHITE Sample.board1 Sample.cleared
              one_move_chain) as [[cache' chain']|] eqn:E.
  - exists cache', chain'. split; [reflexivity|].
    destruct (update_accumulator_touches_one_perspective 2 1
                Sample.transformer Sample.features Sample.king_cache_maps true
                WHITE Sample.board1 Sample.cleared cache' one_move_chain
                chain' E) as (_ & _ & Hse & _).
    destruct (Hse 1%nat BLACK ltac:(discriminate)) as (_ & _ & Hc).
    rewrite Hc. reflexivity.
  - vm_compute in E. discriminate E.
Defined.

(** The sample game: three pieces on the board, one dirty entry per
    move; the walk from the second move stops on the first. *)
Lemma incremental_replay_is_bounded_witness :
  (forall st, 0 <= update_cost Sample.features st) /\
  (try_find_computed_accumulator Sample.features WHITE Sample.board2
     Sample.chain <= current Sample.chain)%nat.
Proof.
  assert (forall st, 0 <= update_cost Sample.features st) as Hc
      by (intros st; cbn; lia).
  split; [exact Hc|].
  exact (proj1 (incremental_replay_is_bounded Sample.features WHITE
                  Sample.board2 Sample.chain Hc)).
Defined.

End NNUEFacts.
